(** * Tella: audio-link scanner, placeholder splicer and job orchestrator

    A shallow embedding of [transcribeAudioInNote] and its helpers
    (the plugin's [main.ts]), together with the properties of the
    scanner, the placeholder insertion loop and the content-addressed
    result splice.

    JavaScript strings are sequences of UTF-16 code units; every offset
    the plugin computes ([match.index], [String.length], [indexOf]) counts
    code units.  Documents are therefore modelled as lists of code units. *)

From Stdlib Require Import String Ascii DecimalString.
From Stdlib Require Import List Arith Lia Bool NArith Permutation.
Import ListNotations.
Local Open Scope list_scope.

(** ** Text *)

Definition cu := N.
Definition text := list cu.

(** ASCII literals of the source, as code units. *)
Definition lit (s : string) : text :=
  map N_of_ascii (list_ascii_of_string s).

Definition cu_eqb (a b : cu) : bool := N.eqb a b.

Fixpoint text_eqb (a b : text) : bool :=
  match a, b with
  | [], [] => true
  | x :: a', y :: b' => cu_eqb x y && text_eqb a' b'
  | _, _ => false
  end.

(** [startsWith p s]: [s] begins with [p]. *)
Fixpoint startsWith (p s : text) : bool :=
  match p, s with
  | [], _ => true
  | _ :: _, [] => false
  | x :: p', y :: s' => cu_eqb x y && startsWith p' s'
  end.

(** [String.prototype.indexOf]: offset of the first occurrence of [p] in
    [s]; [None] stands for the result [-1]. *)
Fixpoint indexOf (s p : text) : option nat :=
  if startsWith p s then Some 0
  else match s with
       | [] => None
       | _ :: s' => option_map S (indexOf s' p)
       end.

(** [includes p s]: [p] occurs somewhere in [s]. *)
Definition includes (s p : text) : bool :=
  match indexOf s p with Some _ => true | None => false end.

(** Decimal rendering of a number inside a template literal. *)
Definition decimal (n : nat) : text :=
  lit (NilEmpty.string_of_uint (Nat.to_uint n)).

Definition NL : cu := 10%N.

(** Line terminators: the characters the regular expression's [.] does
    not match (LF, CR, U+2028, U+2029). *)
Definition isLineTerminator (c : cu) : bool :=
  cu_eqb c 10%N || cu_eqb c 13%N || cu_eqb c 8232%N || cu_eqb c 8233%N.

(** ** Audio-link scanner

    [const audioFileRegex = /!\[\[(.*?\.(mp3|wav|m4a|flac|ogg|aac|webm))\]\]/g;]
    [const audioFiles = [...content.matchAll(audioFileRegex)];] *)

(** One element of [matchAll]'s result: [m[0]], [m[1]] and [m.index]. *)
Record RegExpMatch := mkMatch {
  m0 : text;       (* the whole matched link *)
  m1 : text;       (* capture group 1: file name with extension *)
  index : nat      (* offset of the match in the scanned text *)
}.

(** The alternatives of the inner group, in the order written; the pattern
    carries no [i] flag, so they are compared as they stand. *)
Definition extensions : list text :=
  [lit "mp3"; lit "wav"; lit "m4a"; lit "flac"; lit "ogg"; lit "aac"; lit "webm"].

Definition opener : text := lit "![[".
Definition closer : text := lit "]]".
Definition dot : cu := 46%N.

(** [\.(mp3|...)\]\]] tried at the head of [s]: the first alternative
    (in order) after which [\]\]] follows. *)
Fixpoint matchTail (exts : list text) (s : text) : option text :=
  match exts with
  | [] => None
  | e :: rest =>
      if startsWith (dot :: e ++ closer) s then Some e
      else matchTail rest s
  end.

(** The lazy [.*?] followed by the tail: zero characters are tried first;
    each further character must not be a line terminator.  Returns
    capture group 1. *)
Fixpoint matchLazy (s : text) : option text :=
  match matchTail extensions s with
  | Some e => Some (dot :: e)
  | None =>
      match s with
      | [] => None
      | c :: s' =>
          if isLineTerminator c then None
          else option_map (cons c) (matchLazy s')
      end
  end.

(** The whole pattern anchored at the head of [s]; returns group 1. *)
Definition matchHere (s : text) : option text :=
  if startsWith opener s
  then matchLazy (skipn 3 s)
  else None.

(** The global scan: [pos] is the offset of [s] in the scanned text and
    [skip] the number of characters still covered by the previous match
    ([lastIndex] lies beyond them). *)
Fixpoint scanFrom (s : text) (pos skip : nat) : list RegExpMatch :=
  match s with
  | [] => []
  | _ :: s' =>
      match skip with
      | S k => scanFrom s' (S pos) k
      | 0 =>
          match matchHere s with
          | Some name =>
              let whole := opener ++ name ++ closer in
              mkMatch whole name pos :: scanFrom s' (S pos) (length whole - 1)
          | None => scanFrom s' (S pos) 0
          end
      end
  end.

Definition matchAll (content : text) : list RegExpMatch :=
  scanFrom content 0 0.

(** End offset of a reference, [matchIndex + originalLink.length]. *)
Definition matchEnd (m : RegExpMatch) : nat := index m + length (m0 m).

(** ** The host editor

    The document editor is a collaborator of the plugin (the host's
    [Editor]): [getValue], [offsetToPos], [posToOffset] and [replaceRange].
    Positions are line/column pairs, as in the host; lines are separated
    by LF.  Offsets beyond the document and columns beyond the end of a
    line are clamped, as the host does. *)

Record EditorPosition := mkPos { line : nat; ch : nat }.

Definition isNL (c : cu) : bool := cu_eqb c NL.

Fixpoint offsetToPosIn (d : text) (offset : nat) : EditorPosition :=
  match offset, d with
  | 0, _ => mkPos 0 0
  | S _, [] => mkPos 0 0
  | S o, c :: d' =>
      let p := offsetToPosIn d' o in
      if isNL c then mkPos (S (line p)) (ch p)
      else match line p with
           | 0 => mkPos 0 (S (ch p))
           | S _ => p
           end
  end.

Fixpoint posToOffsetAt (d : text) (l c : nat) : nat :=
  match d with
  | [] => 0
  | x :: d' =>
      match l with
      | 0 =>
          match c with
          | 0 => 0
          | S c' => if isNL x then 0 else S (posToOffsetAt d' 0 c')
          end
      | S l' =>
          if isNL x then S (posToOffsetAt d' l' c)
          else S (posToOffsetAt d' l c)
      end
  end.

Definition posToOffsetIn (d : text) (p : EditorPosition) : nat :=
  posToOffsetAt d (line p) (ch p).

(** [replaceRange(replacement, from, to)] on the text [d]. *)
Definition replaceRangeIn (d replacement : text) (from to : EditorPosition)
  : text :=
  firstn (posToOffsetIn d from) d ++ replacement ++ skipn (posToOffsetIn d to) d.

(** ** Settings and provider clients *)

Inductive Provider := gemini | openrouter.

Definition Provider_eqb (a b : Provider) : bool :=
  match a, b with
  | gemini, gemini | openrouter, openrouter => true
  | _, _ => false
  end.

Definition providerName (p : Provider) : text :=
  match p with gemini => lit "gemini" | openrouter => lit "openrouter" end.

Record TellaSettings := mkSettings {
  provider : Provider;
  geminiApiKey : text;
  geminiModelName : text;
  openrouterApiKey : text;
  openrouterModelName : text;
  transcriptionPrompt : text
}.

Definition DEFAULT_SETTINGS : TellaSettings := {|
  provider := gemini;
  geminiApiKey := [];
  geminiModelName := lit "gemini-1.5-flash";
  openrouterApiKey := [];
  openrouterModelName := lit "openai/whisper-large-v3";
  transcriptionPrompt := lit "Transcribe the following audio, ensuring to capture every word accurately. Ignore any background noise or non-verbal sounds. The output should be a clean, readable text."
|}.

(** Outcome of an operation that may throw: the value, or the thrown
    error's [message]. *)
Inductive Result (A : Type) :=
| Ok (v : A)
| Throw (message : text).
Arguments Ok {A} v.
Arguments Throw {A} message.

(** JavaScript truthiness of a string: [!s] holds exactly for the empty
    string. *)
Definition isEmpty (s : text) : bool :=
  match s with [] => true | _ :: _ => false end.

(** What the plugin reaches outside itself: the workspace, the link
    resolver, the vault adapter, the file system and the two remote
    services. *)
Record Host := mkHost {
  (* [getActiveViewOfType(MarkdownView)]: [None] when there is no view;
     otherwise [activeView.file?.path]. *)
  activeView : option (option text);
  (* [metadataCache.getFirstLinkpathDest(name, source)]: the path of the
     [TFile] found, [None] when the result is not a [TFile]. *)
  getFirstLinkpathDest : text -> text -> option text;
  (* [vault.adapter.getFullPath] *)
  getFullPath : text -> text;
  (* [fs.readFileSync] *)
  readFileSync : text -> Result text;
  (* [model.generateContent([prompt, audioPart])] followed by
     [result.response.text()]: model, prompt, data, mime type. *)
  generateContent : text -> text -> text -> text -> Result text;
  (* The request of [OpenRouterService.transcribeAudio] together with the
     handling of its response and errors: key, model, path, data. *)
  openrouterRequest : text -> text -> text -> text -> Result text
}.

(** [s.split(sep).pop()]: the part of [s] after its last [sep], all of
    [s] when there is none. *)
Fixpoint splitPop (sep : cu) (s : text) : text :=
  match s with
  | [] => []
  | c :: s' =>
      if existsb (cu_eqb sep) s' then splitPop sep s'
      else if cu_eqb c sep then s' else s
  end.

(** [toLowerCase] on the ASCII letters; no other character lower-cases
    to a letter of the extensions compared below. *)
Definition toLowerCase (s : text) : text :=
  map (fun c => if (N.leb 65 c && N.leb c 90)%bool then (c + 32)%N else c) s.

Definition getMimeType (filePath : text) : option text :=
  let extension := toLowerCase (splitPop dot filePath) in
  if text_eqb extension (lit "mp3") then Some (lit "audio/mp3")
  else if text_eqb extension (lit "wav") then Some (lit "audio/wav")
  else if text_eqb extension (lit "m4a") then Some (lit "audio/m4a")
  else if text_eqb extension (lit "flac") then Some (lit "audio/flac")
  else if text_eqb extension (lit "ogg") then Some (lit "audio/ogg")
  else if text_eqb extension (lit "aac") then Some (lit "audio/aac")
  else if text_eqb extension (lit "webm") then Some (lit "audio/webm")
  else None.

Module GeminiService.

Record t := new { apiKey : text }.

(** [generativePart]: the file's bytes (sent base64-encoded) and the
    mime type. *)
Definition generativePart (h : Host) (path : text) : Result text :=
  readFileSync h path.

Definition transcribeAudio (h : Host) (self : t)
    (audioPath prompt modelName : text) : Result text :=
  if isEmpty (apiKey self)
  then Throw (lit "Gemini API key is not configured.")
  else
    match getMimeType audioPath with
    | None => Throw (lit "Unsupported audio format for file: " ++ audioPath)
    | Some audioMimeType =>
        match generativePart h audioPath with
        | Throw e => Throw e
        | Ok data => generateContent h modelName prompt data audioMimeType
        end
    end.

End GeminiService.

Module OpenRouterService.

Record t := new { apiKey : text }.

Definition transcribeAudio (h : Host) (self : t)
    (audioPath modelName : text) : Result text :=
  if isEmpty (apiKey self)
  then Throw (lit "OpenRouter API key is not configured.")
  else
    match readFileSync h audioPath with
    | Throw e => Throw e
    | Ok audioBuffer =>
        openrouterRequest h (apiKey self) modelName audioPath audioBuffer
    end.

End OpenRouterService.

(** ** Effects of the command

    The command mutates the editor's document and emits notices, console
    messages and provider calls.  The state carries the document and the
    chronological trace of the effects. *)

Inductive Event :=
| Notice (message : text)
| ConsoleError (message : text)
| ReplaceRange (replacement : text) (from to : EditorPosition)
| Transcribe (p : Provider) (filePath : text).

Record St := mkSt { doc : text; trace : list Event }.

Definition M (A : Type) : Type := St -> A * St.

Definition ret {A} (a : A) : M A := fun st => (a, st).
Definition bind {A B} (m : M A) (k : A -> M B) : M B :=
  fun st => let (a, st') := m st in k a st'.

Notation "x <- c1 ;; c2" := (bind c1 (fun x => c2))
  (at level 61, c1 at next level, right associativity).
Notation "c1 ;; c2" := (bind c1 (fun _ => c2))
  (at level 61, right associativity).

Definition emit (e : Event) : M unit :=
  fun st => (tt, mkSt (doc st) (trace st ++ [e])).

Definition getValue : M text := fun st => (doc st, st).
Definition offsetToPos (offset : nat) : M EditorPosition :=
  fun st => (offsetToPosIn (doc st) offset, st).
Definition posToOffset (p : EditorPosition) : M nat :=
  fun st => (posToOffsetIn (doc st) p, st).
Definition replaceRange (replacement : text) (from to : EditorPosition)
  : M unit :=
  fun st => (tt, mkSt (replaceRangeIn (doc st) replacement from to)
                      (trace st ++ [ReplaceRange replacement from to])).

Definition newNotice (message : text) : M unit := emit (Notice message).
Definition consoleError (message : text) : M unit := emit (ConsoleError message).

Definition doc_of {A} (r : A * St) : text := doc (snd r).
Definition trace_of {A} (r : A * St) : list Event := trace (snd r).

Fixpoint mapM {A B} (f : A -> M B) (l : list A) : M (list B) :=
  match l with
  | [] => ret []
  | a :: l' => b <- f a ;; bs <- mapM f l' ;; ret (b :: bs)
  end.

(** [for (const x of l) acc = body(acc, x)] *)
Fixpoint forEach {A B} (body : B -> A -> M B) (l : list A) (acc : B) : M B :=
  match l with
  | [] => ret acc
  | a :: l' => acc' <- body acc a ;; forEach body l' acc'
  end.

(** ** Callout blocks *)

Definition hourglass : cu := 9203%N.   (* U+23F3 *)

Definition tipHeader : text := lit "> [!tip] Audio Note" ++ [NL].
Definition warningHeader : text := lit "> [!warning] Transcription Failed" ++ [NL].

Definition quoted (body : text) : text := lit "> " ++ body ++ [NL].

(** [`> [!tip] Audio Note\n> ⏳ Transcribing ${fileName} with ${provider}...\n> ${originalLink}\n`] *)
Definition placeholderBlock (p : Provider) (fileName originalLink : text) : text :=
  tipHeader
  ++ quoted (hourglass :: lit " Transcribing " ++ fileName ++ lit " with "
             ++ providerName p ++ lit "...")
  ++ quoted originalLink.

(** [`> [!warning] Transcription Failed\n> ${message}\n> ${originalLink}\n`] *)
Definition errorBlock (message originalLink : text) : text :=
  warningHeader ++ quoted message ++ quoted originalLink.

Definition notAFileBlock (originalLink : text) : text :=
  errorBlock (lit "Active note is not a file.") originalLink.

Definition notFoundBlock (fileName originalLink : text) : text :=
  errorBlock (lit "Could not find file: " ++ fileName) originalLink.

(** [transcriptionText.replace(/\n/g, '\n> ')] *)
Definition formatTranscription (transcriptionText : text) : text :=
  flat_map (fun c => if isNL c then NL :: lit "> " else [c]) transcriptionText.

(** [`> [!tip] Audio Note\n> ${formattedTranscription}\n> ${job.originalLink}\n`] *)
Definition finalBlock (transcriptionText originalLink : text) : text :=
  tipHeader ++ quoted (formatTranscription transcriptionText) ++ quoted originalLink.

(** ** Jobs *)

Record Job := mkJob {
  filePath : text;
  startPos : EditorPosition;
  jobPlaceholder : text;     (* [job.placeholderBlock] *)
  originalLink : text;
  fileName : text
}.

(** *** Step 1: placeholders, in reverse document order

    The loop body is the same in both revisions of [main.ts] except for
    the wording of the placeholder, which is a parameter here. *)
Section Placeholders.

Variable h : Host.
Variable placeholderText : text -> text -> text.  (* fileName, originalLink *)
Variable viewFile : option text.                  (* [activeView.file?.path] *)

(** Lines 281-289: the placeholder goes over the link. *)
Definition insertPlaceholder (m : RegExpMatch) : M EditorPosition :=
  let originalLink := m0 m in
  let fileName := m1 m in
  let matchIndex := index m in
  startPos <- offsetToPos matchIndex ;;
  endPos <- offsetToPos (matchIndex + length originalLink) ;;
  replaceRange (placeholderText fileName originalLink) startPos endPos ;;
  ret startPos.

(** The error paths write their block over the placeholder just
    inserted. *)
Definition overwritePlaceholder (startPos : EditorPosition)
    (placeholder block : text) : M unit :=
  start <- posToOffset startPos ;;
  newEndPos <- offsetToPos (start + length placeholder) ;;
  replaceRange block startPos newEndPos.

(** Lines 291-307: resolution of the link; a job, or an error callout. *)
Definition resolveMatch (jobs : list Job) (m : RegExpMatch)
    (startPos : EditorPosition) : M (list Job) :=
  let originalLink := m0 m in
  let fileName := m1 m in
  let placeholder := placeholderText fileName originalLink in
  match viewFile with
  | None =>
      overwritePlaceholder startPos placeholder (notAFileBlock originalLink) ;;
      ret jobs
  | Some sourcePath =>
      match getFirstLinkpathDest h fileName sourcePath with
      | Some file =>
          ret (jobs ++ [mkJob (getFullPath h file) startPos placeholder
                              originalLink fileName])
      | None =>
          overwritePlaceholder startPos placeholder
            (notFoundBlock fileName originalLink) ;;
          newNotice (lit "Could not find the file: " ++ fileName) ;;
          ret jobs
      end
  end.

Definition processMatch (jobs : list Job) (m : RegExpMatch) : M (list Job) :=
  startPos <- insertPlaceholder m ;;
  resolveMatch jobs m startPos.

(** [for (const match of audioFiles.reverse()) { ... }] *)
Definition createPlaceholders (audioFiles : list RegExpMatch) : M (list Job) :=
  forEach processMatch (rev audioFiles) [].

(** Whether the link of [m] resolves to a file. *)
Definition resolves (m : RegExpMatch) : bool :=
  match viewFile with
  | None => false
  | Some sourcePath =>
      match getFirstLinkpathDest h (m1 m) sourcePath with
      | Some _ => true
      | None => false
      end
  end.

(** The block standing in place of the link once its iteration is over. *)
Definition blockFor (m : RegExpMatch) : text :=
  match viewFile with
  | None => notAFileBlock (m0 m)
  | Some sourcePath =>
      match getFirstLinkpathDest h (m1 m) sourcePath with
      | Some _ => placeholderText (m1 m) (m0 m)
      | None => notFoundBlock (m1 m) (m0 m)
      end
  end.

(** [j] is the job of the match [m]. *)
Definition jobFor (m : RegExpMatch) (j : Job) : Prop :=
  jobPlaceholder j = placeholderText (m1 m) (m0 m)
  /\ originalLink j = m0 m
  /\ fileName j = m1 m
  /\ exists sourcePath file,
       viewFile = Some sourcePath
       /\ getFirstLinkpathDest h (m1 m) sourcePath = Some file
       /\ filePath j = getFullPath h file.

End Placeholders.

(** *** Step 2: the result splice *)

(** [updateCallout(blockToInsert)] of a job. *)
Definition updateCallout (job : Job) (blockToInsert : text) : M unit :=
  currentContent <- getValue ;;
  match indexOf currentContent (jobPlaceholder job) with
  | Some placeholderIndex =>
      startPos <- offsetToPos placeholderIndex ;;
      endPos <- offsetToPos (placeholderIndex + length (jobPlaceholder job)) ;;
      replaceRange blockToInsert startPos endPos
  | None =>
      consoleError (lit "Could not find placeholder for " ++ fileName job
                    ++ lit " to update. It might have been modified or removed.") ;;
      newNotice (lit "Could not update transcription for " ++ fileName job ++ lit ".")
  end.

(** Completion order of the concurrent jobs.  The promises settle in an
    order the plugin does not control; [sched] picks, at each completion,
    which of the jobs still running settles next (every schedule yields a
    permutation of the jobs, and every permutation has a schedule). *)
Fixpoint completionOrder {A} (fuel : nat) (sched : list nat) (running : list A)
  : list A :=
  match fuel, running with
  | S fuel', a :: _ =>
      let k := hd 0 sched mod length running in
      nth k running a
      :: completionOrder fuel' (tl sched) (firstn k running ++ skipn (S k) running)
  | _, _ => []
  end.

Definition settleOrder {A} (sched : list nat) (running : list A) : list A :=
  completionOrder (length running) sched running.

(** ** The plugin (revision with provider selection) *)

Record Plugin := mkPlugin {
  settings : TellaSettings;
  geminiService : GeminiService.t;
  openrouterService : OpenRouterService.t
}.

Section Command.

Variable h : Host.
Variable sched : list nat.
Variable this : Plugin.

(** The provider call of a job (lines 326-331). *)
Definition callProvider (audioPath : text) : Result text :=
  match provider (settings this) with
  | gemini =>
      GeminiService.transcribeAudio h (geminiService this) audioPath
        (transcriptionPrompt (settings this)) (geminiModelName (settings this))
  | openrouter =>
      OpenRouterService.transcribeAudio h (openrouterService this) audioPath
        (openrouterModelName (settings this))
  end.

(** The synchronous part of a job's callback: the call is issued. *)
Definition launch (job : Job) : M (Job * Result text) :=
  emit (Transcribe (provider (settings this)) (filePath job)) ;;
  ret (job, callProvider (filePath job)).

(** The continuation of a job once its call has settled (lines 333-340). *)
Definition settle (jr : Job * Result text) : M unit :=
  let job := fst jr in
  match snd jr with
  | Ok transcriptionText =>
      updateCallout job (finalBlock transcriptionText (originalLink job))
  | Throw message =>
      consoleError (lit "Error transcribing " ++ fileName job ++ lit ":") ;;
      updateCallout job (errorBlock message (originalLink job))
  end.

(** [await Promise.all(jobs.map(async (job) => ...))] *)
Definition runJobs (jobs : list Job) : M unit :=
  running <- mapM launch jobs ;;
  forEach (fun _ jr => settle jr) (settleOrder sched running) tt.

Definition transcribeAudioInNote : M unit :=
  let s := settings this in
  if Provider_eqb (provider s) gemini && isEmpty (geminiApiKey s) then
    newNotice (lit "Gemini API key is not set. Please configure it in the settings.")
  else if Provider_eqb (provider s) openrouter && isEmpty (openrouterApiKey s) then
    newNotice (lit "OpenRouter API key is not set. Please configure it in the settings.")
  else
    match activeView h with
    | None => newNotice (lit "No active note to transcribe.")
    | Some viewFile =>
        content <- getValue ;;
        let audioFiles := matchAll content in
        if Nat.eqb (length audioFiles) 0 then
          newNotice [26410; 25214; 21040; 38899; 39057]%N
        else
          let modelInUse :=
            match provider s with
            | gemini => geminiModelName s
            | openrouter => openrouterModelName s
            end in
          newNotice (lit "Found " ++ decimal (length audioFiles)
                     ++ lit " audio file(s). Starting transcription with "
                     ++ providerName (provider s) ++ lit " (" ++ modelInUse
                     ++ lit ")...") ;;
          jobs <- createPlaceholders h (placeholderBlock (provider s)) viewFile
                    audioFiles ;;
          runJobs jobs ;;
          newNotice (lit "All transcriptions complete!")
    end.

(** The key of the selected provider is set. *)
Definition ready : Prop :=
  match provider (settings this) with
  | gemini => geminiApiKey (settings this) <> []
  | openrouter => openrouterApiKey (settings this) <> []
  end.

(** The provider call a job stands for in the trace. *)
Definition callOf (job : Job) : Provider * text :=
  (provider (settings this), filePath job).

(** [`Found ${n} audio file(s). Starting transcription with ${provider} (${modelInUse})...`] *)
Definition foundNotice (n : nat) : text :=
  let s := settings this in
  lit "Found " ++ decimal n
  ++ lit " audio file(s). Starting transcription with "
  ++ providerName (provider s) ++ lit " ("
  ++ match provider s with
     | gemini => geminiModelName s
     | openrouter => openrouterModelName s
     end
  ++ lit ")...".

(** The jobs of a run on the document of [st]. *)
Definition jobsOfRun (viewFile : option text) (st : St) : list Job :=
  fst (createPlaceholders h (placeholderBlock (provider (settings this)))
         viewFile (matchAll (doc st))
         (snd (newNotice (foundNotice (length (matchAll (doc st)))) st))).

(** The state in which step 2 starts. *)
Definition stateAfterPlaceholders (viewFile : option text) (st : St) : St :=
  snd (createPlaceholders h (placeholderBlock (provider (settings this)))
         viewFile (matchAll (doc st))
         (snd (newNotice (foundNotice (length (matchAll (doc st)))) st))).

End Command.

(** *** Plugin life cycle *)

(** What [loadData] returns: the stored object (any subset of the
    settings' fields), or nothing. *)
Record StoredData := mkStored {
  s_provider : option Provider;
  s_geminiApiKey : option text;
  s_geminiModelName : option text;
  s_openrouterApiKey : option text;
  s_openrouterModelName : option text;
  s_transcriptionPrompt : option text
}.

Definition orDefault {A} (o : option A) (d : A) : A :=
  match o with Some v => v | None => d end.

(** [Object.assign({}, DEFAULT_SETTINGS, await this.loadData())] *)
Definition loadSettings (stored : option StoredData) : TellaSettings :=
  match stored with
  | None => DEFAULT_SETTINGS
  | Some d => {|
      provider := orDefault (s_provider d) (provider DEFAULT_SETTINGS);
      geminiApiKey := orDefault (s_geminiApiKey d) (geminiApiKey DEFAULT_SETTINGS);
      geminiModelName :=
        orDefault (s_geminiModelName d) (geminiModelName DEFAULT_SETTINGS);
      openrouterApiKey :=
        orDefault (s_openrouterApiKey d) (openrouterApiKey DEFAULT_SETTINGS);
      openrouterModelName :=
        orDefault (s_openrouterModelName d) (openrouterModelName DEFAULT_SETTINGS);
      transcriptionPrompt :=
        orDefault (s_transcriptionPrompt d) (transcriptionPrompt DEFAULT_SETTINGS)
    |}
  end.

(** [saveData(settings)]: the whole settings object is stored. *)
Definition saveData (s : TellaSettings) : option StoredData :=
  Some {|
    s_provider := Some (provider s);
    s_geminiApiKey := Some (geminiApiKey s);
    s_geminiModelName := Some (geminiModelName s);
    s_openrouterApiKey := Some (openrouterApiKey s);
    s_openrouterModelName := Some (openrouterModelName s);
    s_transcriptionPrompt := Some (transcriptionPrompt s)
  |}.

Definition services (s : TellaSettings) : Plugin :=
  mkPlugin s (GeminiService.new (geminiApiKey s))
             (OpenRouterService.new (openrouterApiKey s)).

Inductive LifecycleEvent :=
| SaveData (s : TellaSettings)
| ConsoleLog (message : text)
| AddCommand (id : text)
| AddSettingTab.

(** The loaded plugin with the host's stored data and what happened, in
    order. *)
Record Loaded := mkLoaded {
  plugin : Plugin;
  stored : option StoredData;
  lifecycle : list LifecycleEvent
}.

(** [saveSettings]: stores the settings and rebuilds both services. *)
Definition saveSettings (l : Loaded) : Loaded :=
  let s := settings (plugin l) in
  mkLoaded (services s) (saveData s) (lifecycle l ++ [SaveData s]).

Definition withProvider (s : TellaSettings) (p : Provider) : TellaSettings :=
  mkSettings p (geminiApiKey s) (geminiModelName s) (openrouterApiKey s)
             (openrouterModelName s) (transcriptionPrompt s).

Definition onload (data : option StoredData) : Loaded :=
  let s := loadSettings data in
  let l0 := mkLoaded (services s) data [] in
  let l1 :=
    match provider s with
    | openrouter =>
        let l := saveSettings (mkLoaded (services (withProvider s gemini)) data []) in
        mkLoaded (plugin l) (stored l)
          (lifecycle l ++ [ConsoleLog (lit "Tella: Migrated provider setting from OpenRouter to Gemini.")])
    | gemini => l0
    end in
  mkLoaded (services (settings (plugin l1))) (stored l1)
    (lifecycle l1 ++ [AddCommand (lit "transcribe-audio-in-note"); AddSettingTab]).

(** The controls of the settings tab: the Gemini key, the Gemini model
    name and the prompt.  (The provider drop-down and the OpenRouter
    fields are commented out in [display].) *)
Inductive SettingChange :=
| ChangeGeminiApiKey (value : text)
| ChangeGeminiModelName (value : text)
| ChangeTranscriptionPrompt (value : text).

Definition onChange (l : Loaded) (c : SettingChange) : Loaded :=
  let s := settings (plugin l) in
  let s' :=
    match c with
    | ChangeGeminiApiKey v =>
        mkSettings (provider s) v (geminiModelName s) (openrouterApiKey s)
                   (openrouterModelName s) (transcriptionPrompt s)
    | ChangeGeminiModelName v =>
        mkSettings (provider s) (geminiApiKey s) v (openrouterApiKey s)
                   (openrouterModelName s) (transcriptionPrompt s)
    | ChangeTranscriptionPrompt v =>
        mkSettings (provider s) (geminiApiKey s) (geminiModelName s)
                   (openrouterApiKey s) (openrouterModelName s) v
    end in
  saveSettings (mkLoaded (mkPlugin s' (geminiService (plugin l))
                                   (openrouterService (plugin l)))
                         (stored l) (lifecycle l)).

(** ** The Gemini-only revision ([src/main.ts])

    The scanner, the placeholder loop and [updateCallout] are the same;
    the settings have no provider, the placeholder does not name one, and
    the failure callout carries a fixed line. *)
Module GeminiOnly.

Record TellaSettings := mkSettings {
  geminiApiKey : text;
  transcriptionPrompt : text;
  modelName : text
}.

Definition DEFAULT_SETTINGS : TellaSettings := {|
  geminiApiKey := [];
  transcriptionPrompt := lit "Transcribe the following audio, ensuring to capture every word accurately. Ignore any background noise or non-verbal sounds. The output should be a clean, readable text.";
  modelName := lit "gemini-2.5-flash"
|}.

Record Plugin := mkPlugin {
  settings : TellaSettings;
  geminiService : GeminiService.t
}.

(** [`> [!tip] Audio Note\n> ⏳ Transcribing ${fileName}...\n> ${originalLink}\n`] *)
Definition placeholderBlock (fileName originalLink : text) : text :=
  tipHeader
  ++ quoted (hourglass :: lit " Transcribing " ++ fileName ++ lit "...")
  ++ quoted originalLink.

Section Command.

Variable h : Host.
Variable sched : list nat.
Variable this : Plugin.

Definition callProvider (audioPath : text) : Result text :=
  GeminiService.transcribeAudio h (geminiService this) audioPath
    (transcriptionPrompt (settings this)) (modelName (settings this)).

Definition launch (job : Job) : M (Job * Result text) :=
  emit (Transcribe gemini (filePath job)) ;;
  ret (job, callProvider (filePath job)).

(** Lines 191-197. *)
Definition settle (jr : Job * Result text) : M unit :=
  let job := fst jr in
  match snd jr with
  | Ok transcriptionText =>
      updateCallout job (finalBlock transcriptionText (originalLink job))
  | Throw _ =>
      consoleError (lit "Error transcribing " ++ fileName job ++ lit ":") ;;
      updateCallout job
        (errorBlock (lit "Check console for details.") (originalLink job))
  end.

Definition runJobs (jobs : list Job) : M unit :=
  running <- mapM launch jobs ;;
  forEach (fun _ jr => settle jr) (settleOrder sched running) tt.

Definition transcribeAudioInNote : M unit :=
  if isEmpty (geminiApiKey (settings this)) then
    newNotice (lit "Gemini API key is not set. Please configure it in the settings.")
  else
    match activeView h with
    | None => newNotice (lit "No active note to transcribe.")
    | Some viewFile =>
        content <- getValue ;;
        let audioFiles := matchAll content in
        if Nat.eqb (length audioFiles) 0 then
          newNotice [26410; 25214; 21040; 38899; 39057]%N
        else
          newNotice (lit "Found " ++ decimal (length audioFiles)
                     ++ lit " audio file(s). Starting transcription...") ;;
          jobs <- createPlaceholders h placeholderBlock viewFile audioFiles ;;
          runJobs jobs ;;
          newNotice (lit "All transcriptions complete!")
    end.

End Command.

End GeminiOnly.

(** ** A concrete host, for the end-to-end scenarios *)

(** A vault in which every link but [missing.mp3] resolves; each file
    holds its own path as content, and the remote service answers by
    [answer], given the content sent. *)
Definition vaultHost (answer : text -> Result text) : Host := {|
  activeView := Some (Some (lit "Notes/day.md"));
  getFirstLinkpathDest := fun name _ =>
    if text_eqb name (lit "missing.mp3") then None else Some (lit "Audio/" ++ name);
  getFullPath := fun path => lit "/vault/" ++ path;
  readFileSync := fun path => Ok path;
  generateContent := fun _ _ data _ => answer data;
  openrouterRequest := fun _ _ _ data => answer data
|}.

Definition configured : Plugin :=
  services (mkSettings gemini (lit "key") (lit "gemini-1.5-flash") []
                       (lit "openai/whisper-large-v3") (lit "Transcribe."))%list.

Definition configuredGeminiOnly : GeminiOnly.Plugin :=
  GeminiOnly.mkPlugin
    (GeminiOnly.mkSettings (lit "key") (lit "Transcribe.") (lit "gemini-2.5-flash"))
    (GeminiService.new (lit "key")).

Definition open (content : text) : St := mkSt content [].

(** ** Vocabulary of the properties *)

(** *** The scanner's input, as the specification describes it

    A document made of [N] links [![[name.ext]]], each preceded by a gap
    of other text, and a last gap.  These definitions follow the
    specification's words; the scanner above follows the code. *)

Definition link (name ext : text) : text :=
  opener ++ name ++ dot :: ext ++ closer.

Definition noLineBreak (s : text) : bool :=
  forallb (fun c => negb (isLineTerminator c)) s.

(** A name is well formed when the link's brackets close where the link
    ends: no line break and no closing pair of brackets inside the
    name. *)
Definition wellFormedName (name : text) : bool :=
  forallb (fun c => negb (isLineTerminator c)) name && negb (includes name closer).

(** Text without the opening [![[] of an embed. *)
Definition linkFree (gap : text) : bool := negb (includes gap opener).

Definition Segment : Type := text * text * text.   (* gap, name, extension *)

Fixpoint render (segs : list Segment) (final : text) : text :=
  match segs with
  | [] => final
  | (gap, name, ext) :: rest => gap ++ link name ext ++ render rest final
  end.

(** The references expected of the layout, with their offsets. *)
Fixpoint references (pos : nat) (segs : list Segment) : list RegExpMatch :=
  match segs with
  | [] => []
  | (gap, name, ext) :: rest =>
      mkMatch (link name ext) (name ++ dot :: ext) (pos + length gap)
      :: references (pos + length gap + length (link name ext)) rest
  end.

Definition wellFormedSegment (s : Segment) : Prop :=
  let '(gap, name, ext) := s in
  linkFree gap = true /\ wellFormedName name = true /\ In ext extensions.

(** The extension as the specification words it: one of the seven,
    whatever the case of its letters. *)
Definition audioExtensionAnyCase (ext : text) : bool :=
  existsb (text_eqb (toLowerCase ext)) extensions.

(** *** Matches *)

(** The matches lie one after the other between [lo] and [hi]. *)
Fixpoint placed (lo hi : nat) (ms : list RegExpMatch) : Prop :=
  match ms with
  | [] => lo <= hi
  | m :: rest => lo <= index m /\ placed (matchEnd m) hi rest
  end.

(** The shape of a match: the link is the name in brackets, the name has
    no line break, and the link stands in the text at the match's index. *)
Definition matchOf (s : text) (pos : nat) (m : RegExpMatch) : Prop :=
  m0 m = opener ++ m1 m ++ closer
  /\ noLineBreak (m1 m) = true
  /\ pos <= index m
  /\ startsWith (m0 m) (skipn (index m - pos) s) = true.

Definition scanned (m : RegExpMatch) : Prop :=
  m0 m = opener ++ m1 m ++ closer /\ noLineBreak (m1 m) = true.

(** *** Traces *)

Definition transcribeCalls (tr : list Event) : list (Provider * text) :=
  flat_map (fun e => match e with
                     | Transcribe p f => [(p, f)]
                     | _ => []
                     end) tr.

(** A computation that calls no provider. *)
Definition quiet {A} (m : M A) : Prop :=
  forall st, transcribeCalls (trace (snd (m st))) = transcribeCalls (trace st).

(** The trace only grows. *)
Definition grows {A} (m : M A) : Prop :=
  forall st, exists evs, trace (snd (m st)) = trace st ++ evs.

(** What [updateCallout] leaves when the placeholder is not found. *)
Definition notFoundEvents (job : Job) : list Event :=
  [ConsoleError (lit "Could not find placeholder for " ++ fileName job
                 ++ lit " to update. It might have been modified or removed.");
   Notice (lit "Could not update transcription for " ++ fileName job ++ lit ".")].

(** What step 2 leaves of a splice: a replacement in the document, or
    the notice that the placeholder was not found. *)
Definition spliceOutcomes (tr : list Event) : list Event :=
  filter (fun e => match e with
                   | ReplaceRange _ _ _ | Notice _ => true
                   | _ => false
                   end) tr.

Definition isReplaceRange (e : Event) : bool :=
  match e with ReplaceRange _ _ _ => true | _ => false end.

(** *** Placeholders in a document *)

(** [s] with the [n] characters at offset [i] replaced by [r]. *)
Definition replaceAt (s : text) (i n : nat) (r : text) : text :=
  firstn i s ++ r ++ skipn (i + n) s.

(** Number of offsets of [s] at which [q] occurs. *)
Fixpoint occurrences (q s : text) : nat :=
  (if startsWith q s then 1 else 0)
  + match s with
    | [] => 0
    | _ :: s' => occurrences q s'
    end.

(** Occurrences of [q] in [a ++ x] that start inside [a]. *)
Fixpoint occurrencesIn (q a x : text) : nat :=
  match a with
  | [] => 0
  | _ :: a' => (if startsWith q (a ++ x) then 1 else 0) + occurrencesIn q a' x
  end.

Definition tipLine : text := lit "> [!tip] Audio Note".

(** The texts the command uses as placeholders: built from a name
    without line break and the link of that name. *)
Definition shaped (p : Provider) (q : text) : Prop :=
  exists f, noLineBreak f = true
            /\ q = placeholderBlock p f (opener ++ f ++ closer).

(** Number of jobs of [jobs] whose placeholder text is [q]. *)
Definition waiting (q : text) (jobs : list Job) : nat :=
  length (filter (fun j => text_eqb (jobPlaceholder j) q) jobs).

(** Every waiting job finds an occurrence of its placeholder: for each
    placeholder text, the document holds at least as many occurrences as
    there are jobs waiting with it. *)
Definition covered (p : Provider) (content : text) (jobs : list Job) : Prop :=
  forall q, shaped p q -> waiting q jobs <= occurrences q content.

(** *** Settings *)

Definition selectedApiKey (this : Plugin) : text :=
  match provider (settings this) with
  | gemini => geminiApiKey (settings this)
  | openrouter => openrouterApiKey (settings this)
  end.

(** The plugin after [onload] on the stored [data] and the given changes
    in the settings tab. *)
Definition session (data : option StoredData) (changes : list SettingChange)
  : Loaded :=
  fold_left onChange changes (onload data).

(** *** Sample documents, jobs and answers *)

Definition clipLink : text := lit "![[clip.mp3]]".

Definition clipDoc : text :=
  lit "Intro" ++ [NL] ++ clipLink ++ [NL] ++ lit "Outro".

Definition twiceDoc : text := lit "![[a.mp3]] ![[a.mp3]]".

Definition pairDoc : text := lit "![[a.mp3]] ![[b.mp3]]".

Definition threeDoc : text := lit "![[a.mp3]] ![[missing.mp3]] ![[b.mp3]]".

Definition sampleJob : Job :=
  mkJob (lit "/vault/Audio/a.mp3") (mkPos 0 0)
        (placeholderBlock gemini (lit "a.mp3") (lit "![[a.mp3]]"))
        (lit "![[a.mp3]]") (lit "a.mp3").

Definition otherJob : Job :=
  mkJob (lit "/vault/Audio/b.mp3") (mkPos 0 11)
        (placeholderBlock gemini (lit "b.mp3") (lit "![[b.mp3]]"))
        (lit "![[b.mp3]]") (lit "b.mp3").

(** The jobs and the state after step 1 on [content]. *)
Definition afterPlaceholders (content : text) : list Job * St :=
  createPlaceholders (vaultHost (fun _ => Ok (lit "hi"))) (placeholderBlock gemini)
    (Some (lit "Notes/day.md")) (matchAll content) (open content).

Definition rateLimited : text -> Result text :=
  fun _ => Throw (lit "rate limited").

(** A transcript of [a.mp3] that spells out the pending lines of
    [b.mp3]; [b.mp3] is transcribed as [two]. *)
Definition echoTranscript : text :=
  hourglass :: lit " Transcribing b.mp3 with gemini..." ++ [NL] ++ lit "![[b.mp3]]".

Definition echoAnswer (data : text) : Result text :=
  if text_eqb data (lit "/vault/Audio/a.mp3") then Ok echoTranscript
  else Ok (lit "two").

(** ** The rest of the plugin: validation, settings tab, upload name *)

(** *** [GeminiService.validateApi] and the Validate buttons *)

Module GeminiValidation.

Section Validate.

(** [genAI.getGenerativeModel({ model }).generateContent("ping")] for the
    given key and model: done, or the error thrown. *)
Variable ping : text -> text -> Result unit.

Definition validateApi (self : GeminiService.t) (modelName : text) : M bool :=
  if isEmpty (GeminiService.apiKey self) then
    newNotice (lit "Gemini API key is not set.") ;;
    ret false
  else
    match ping (GeminiService.apiKey self) modelName with
    | Ok _ => ret true
    | Throw _ =>
        consoleError (lit "Gemini API validation failed for model " ++ modelName
                      ++ lit ":") ;;
        ret false
    end.

(** The Validate button of the revision with provider selection
    (lines 393-402): no notice of its own when the validation fails. *)
Definition onClickValidate (this : Plugin) : M unit :=
  newNotice (lit "Validating Gemini API key...") ;;
  isValid <- validateApi (geminiService this) (geminiModelName (settings this)) ;;
  if isValid then newNotice (lit "Gemini API key is valid!") else ret tt.

(** The Validate button of the Gemini-only revision ([src/main.ts],
    lines 237-245). *)
Definition onClickValidateGeminiOnly (this : GeminiOnly.Plugin) : M unit :=
  newNotice (lit "Validating API key and model...") ;;
  isValid <- validateApi (GeminiOnly.geminiService this)
               (GeminiOnly.modelName (GeminiOnly.settings this)) ;;
  if isValid then newNotice (lit "API key and model are valid!")
  else newNotice (lit "API validation failed. Check key, model, and console for details.").

End Validate.

End GeminiValidation.

(** *** [OpenRouterService.validateApi] and the upload file name *)

Module OpenRouterValidation.

(** What the code reads of the response: [response.status], and whether
    [response.json && response.json.data] is truthy. *)
Record Response := mkResponse { status : nat; hasData : bool }.

(** What the code reads of a thrown error: [error.message] and
    [error.body] (empty when absent), and whether [error.headers] is set. *)
Record RequestError := mkRequestError {
  message : text;
  headers : bool;
  body : text
}.

(** Of the parsed body: [errorBody.error?.message] (empty when absent)
    and [JSON.stringify(errorBody)]. *)
Record ErrorBody := mkErrorBody { error_message : text; stringified : text }.

(** [a || b] on strings. *)
Definition orElse (a b : text) : text := if isEmpty a then b else a.

Section Validate.

(** [requestUrl] to [/api/v1/auth/key] with the key: a response, or the
    error thrown. *)
Variable requestUrl : text -> Response + RequestError.
(** [JSON.parse(error.body)] and the reading of the result; [None] when
    that throws. *)
Variable parseBody : text -> option ErrorBody.

(** The message of the [catch] blocks (lines 59-70 and 119-130), with its
    console output. *)
Definition describeError (fallback : text) (error : RequestError) : M text :=
  let errorMessage := orElse (message error) fallback in
  (if headers error then consoleError (lit "Response Headers:") else ret tt) ;;
  if isEmpty (body error) then ret errorMessage
  else
    match parseBody (body error) with
    | Some errorBody => ret (orElse (error_message errorBody) (stringified errorBody))
    | None => ret (body error)
    end.

Definition validateApi (self : OpenRouterService.t) : M bool :=
  if isEmpty (OpenRouterService.apiKey self) then
    newNotice (lit "OpenRouter API key is not set.") ;;
    ret false
  else
    match requestUrl (OpenRouterService.apiKey self) with
    | inl response =>
        if Nat.eqb (status response) 200 then
          if hasData response then ret true
          else
            newNotice (lit "API key is valid but response format is unexpected.") ;;
            ret false
        else
          consoleError (lit "OpenRouter API validation failed:") ;;
          newNotice (lit "OpenRouter validation failed: Status "
                     ++ decimal (status response)
                     ++ lit ". Check console for details.") ;;
          ret false
    | inr error =>
        consoleError (lit "OpenRouter API validation request failed:") ;;
        errorMessage <- describeError (lit "Unknown error") error ;;
        newNotice (lit "OpenRouter validation failed: " ++ errorMessage
                   ++ lit ". Check console for details.") ;;
        ret false
    end.

End Validate.

Definition isSeparator (c : cu) : bool := cu_eqb c 47%N || cu_eqb c 92%N.

(** [s.split(/[\\/]/).pop()]: the part of [s] after its last slash or
    backslash. *)
Fixpoint lastSegment (s : text) : text :=
  match s with
  | [] => []
  | c :: s' =>
      if existsb isSeparator s' then lastSegment s'
      else if isSeparator c then s' else s
  end.

(** [audioPath.split(/[\\/]/).pop() || 'audio.dat'] (line 82). *)
Definition uploadFileName (audioPath : text) : text :=
  orElse (lastSegment audioPath) (lit "audio.dat").

End OpenRouterValidation.

(** *** Life cycle of the Gemini-only revision ([src/main.ts], lines 93-116
    and the settings tab) *)

Module GeminiOnlyLifecycle.

Record StoredData := mkStored {
  s_geminiApiKey : option text;
  s_transcriptionPrompt : option text;
  s_modelName : option text
}.

Definition loadSettings (stored : option StoredData) : GeminiOnly.TellaSettings :=
  match stored with
  | None => GeminiOnly.DEFAULT_SETTINGS
  | Some d =>
      GeminiOnly.mkSettings
        (orDefault (s_geminiApiKey d)
           (GeminiOnly.geminiApiKey GeminiOnly.DEFAULT_SETTINGS))
        (orDefault (s_transcriptionPrompt d)
           (GeminiOnly.transcriptionPrompt GeminiOnly.DEFAULT_SETTINGS))
        (orDefault (s_modelName d)
           (GeminiOnly.modelName GeminiOnly.DEFAULT_SETTINGS))
  end.

Definition saveData (s : GeminiOnly.TellaSettings) : option StoredData :=
  Some (mkStored (Some (GeminiOnly.geminiApiKey s))
                 (Some (GeminiOnly.transcriptionPrompt s))
                 (Some (GeminiOnly.modelName s))).

Inductive LifecycleEvent :=
| SaveData (s : GeminiOnly.TellaSettings)
| AddCommand (id : text)
| AddSettingTab.

Record Loaded := mkLoaded {
  plugin : GeminiOnly.Plugin;
  stored : option StoredData;
  lifecycle : list LifecycleEvent
}.

Definition services (s : GeminiOnly.TellaSettings) : GeminiOnly.Plugin :=
  GeminiOnly.mkPlugin s (GeminiService.new (GeminiOnly.geminiApiKey s)).

Definition saveSettings (l : Loaded) : Loaded :=
  let s := GeminiOnly.settings (plugin l) in
  mkLoaded (services s) (saveData s) (lifecycle l ++ [SaveData s]).

Definition onload (data : option StoredData) : Loaded :=
  mkLoaded (services (loadSettings data)) data
    [AddCommand (lit "transcribe-audio-in-note"); AddSettingTab].

Inductive SettingChange :=
| ChangeApiKey (value : text)
| ChangeModelName (value : text)
| ChangePrompt (value : text).

Definition onChange (l : Loaded) (c : SettingChange) : Loaded :=
  let s := GeminiOnly.settings (plugin l) in
  let s' :=
    match c with
    | ChangeApiKey v =>
        GeminiOnly.mkSettings v (GeminiOnly.transcriptionPrompt s)
          (GeminiOnly.modelName s)
    | ChangeModelName v =>
        GeminiOnly.mkSettings (GeminiOnly.geminiApiKey s)
          (GeminiOnly.transcriptionPrompt s) v
    | ChangePrompt v =>
        GeminiOnly.mkSettings (GeminiOnly.geminiApiKey s) v
          (GeminiOnly.modelName s)
    end in
  saveSettings (mkLoaded (GeminiOnly.mkPlugin s' (GeminiOnly.geminiService (plugin l)))
                         (stored l) (lifecycle l)).

Definition session (data : option StoredData) (changes : list SettingChange)
  : Loaded :=
  fold_left onChange changes (onload data).

End GeminiOnlyLifecycle.

(** *** Vocabulary of the further properties *)

(** The lines of a text, as [s.split('\n')] gives them. *)
Fixpoint linesOf (s : text) : list text :=
  match s with
  | [] => [[]]
  | c :: s' =>
      if isNL c then [] :: linesOf s'
      else match linesOf s' with
           | l :: ls => (c :: l) :: ls
           | [] => [[c]]
           end
  end.

(** The text [s], which starts at offset [pos] of the document, with the
    span of every match replaced by its block. *)
Fixpoint substituteFrom (block : RegExpMatch -> text) (s : text) (pos : nat)
    (ms : list RegExpMatch) : text :=
  match ms with
  | [] => s
  | m :: rest =>
      firstn (index m - pos) s ++ block m
      ++ substituteFrom block (skipn (matchEnd m - pos) s) (matchEnd m) rest
  end.

Definition isNotice (e : Event) : bool :=
  match e with Notice _ => true | _ => false end.

(** The in-memory plugin agrees with its settings and with what is
    stored. *)
Definition inSync (l : Loaded) : Prop :=
  loadSettings (stored l) = settings (plugin l)
  /\ GeminiService.apiKey (geminiService (plugin l))
     = geminiApiKey (settings (plugin l))
  /\ OpenRouterService.apiKey (openrouterService (plugin l))
     = openrouterApiKey (settings (plugin l)).

(** *** The note during step 2 *)

Definition hourglassFree (s : text) : bool :=
  negb (existsb (cu_eqb hourglass) s).

(** The note between two splices: text that no splice looks for, and
    placeholders still waiting for their job ([f] is the file name of the
    link; the placeholder is the one of the link [![[f]]]). *)
Inductive Piece :=
| Inert (t : text)
| Pending (f : text).

Definition pieceText (ph : text -> text) (pc : Piece) : text :=
  match pc with
  | Inert t => t
  | Pending f => ph f
  end.

Definition flatten (ph : text -> text) (pieces : list Piece) : text :=
  flat_map (pieceText ph) pieces.

Definition pendingNames (pieces : list Piece) : list text :=
  flat_map (fun pc => match pc with Inert _ => [] | Pending f => [f] end) pieces.

Definition goodPiece (pc : Piece) : Prop :=
  match pc with
  | Inert t => hourglassFree t = true
  | Pending f => noLineBreak f = true /\ hourglassFree f = true
  end.

(** Every pending placeholder replaced by the block [res] gives for its
    file name. *)
Definition resolveAll (res : text -> text) (pieces : list Piece) : list Piece :=
  map (fun pc => match pc with
                 | Inert t => Inert t
                 | Pending f => Inert (res f)
                 end) pieces.

(** The pieces of the note after step 1: the text [s] (which starts at
    offset [pos]) cut at the matches; a match that resolved left its
    placeholder, another one its failure callout. *)
Fixpoint piecesFrom (resolved : RegExpMatch -> bool) (block : RegExpMatch -> text)
    (s : text) (pos : nat) (ms : list RegExpMatch) : list Piece :=
  match ms with
  | [] => [Inert s]
  | m :: rest =>
      Inert (firstn (index m - pos) s)
      :: (if resolved m then Pending (m1 m) else Inert (block m))
      :: piecesFrom resolved block (skipn (matchEnd m - pos) s) (matchEnd m) rest
  end.

(** The callout a settled call leaves: lines 333-339 of the revision
    with provider selection, lines 192-197 of the Gemini-only one. *)
Definition resultBlock (r : Result text) (originalLink : text) : text :=
  match r with
  | Ok transcriptionText => finalBlock transcriptionText originalLink
  | Throw message => errorBlock message originalLink
  end.

Definition geminiOnlyResultBlock (r : Result text) (originalLink : text) : text :=
  match r with
  | Ok transcriptionText => finalBlock transcriptionText originalLink
  | Throw _ => errorBlock (lit "Check console for details.") originalLink
  end.

(** The callout that stands for the link of [m] at the end of a run in
    which the provider call is [call] and a settled call leaves [rb]. *)
Definition outcomeOf (h : Host) (call : text -> Result text)
    (rb : Result text -> text -> text) (viewFile : option text)
    (m : RegExpMatch) : text :=
  match viewFile with
  | None => notAFileBlock (m0 m)
  | Some sourcePath =>
      match getFirstLinkpathDest h (m1 m) sourcePath with
      | Some file => rb (call (getFullPath h file)) (m0 m)
      | None => notFoundBlock (m1 m) (m0 m)
      end
  end.

Definition outcomeFor (h : Host) (this : Plugin) : option text -> RegExpMatch -> text :=
  outcomeOf h (callProvider h this) resultBlock.

Definition geminiOnlyOutcomeFor (h : Host) (this : GeminiOnly.Plugin)
  : option text -> RegExpMatch -> text :=
  outcomeOf h (GeminiOnly.callProvider h this) geminiOnlyResultBlock.

(** The result callout of the job on the file name [f]. *)
Definition resultOfName (h : Host) (call : text -> Result text)
    (rb : Result text -> text -> text) (viewFile : option text) (f : text) : text :=
  outcomeOf h call rb viewFile (mkMatch (opener ++ f ++ closer) f 0).

(** The files a run on the note [content] asks the provider for, one
    per link that resolves, in document order.  The host answers a
    request by its file; where no file is asked for twice, its answers
    stand for independent requests. *)
Definition filesRead (h : Host) (viewFile : option text) (content : text)
  : list text :=
  match viewFile with
  | None => []
  | Some sourcePath =>
      flat_map (fun m => match getFirstLinkpathDest h (m1 m) sourcePath with
                         | Some file => [getFullPath h file]
                         | None => []
                         end) (matchAll content)
  end.

(** ** Properties *)

Example scan_example :
  matchAll (lit "a ![[x.mp3]] b ![[y z.webm]]") =
  [mkMatch (lit "![[x.mp3]]") (lit "x.mp3") 2;
   mkMatch (lit "![[y z.webm]]") (lit "y z.webm") 15].
Proof. reflexivity. Qed.

Example run_example :
  doc_of (transcribeAudioInNote (vaultHost (fun _ => Ok (lit "hello world"))) [] configured
            (open clipDoc)) =
  lit "Intro" ++ [NL] ++ lit "> [!tip] Audio Note" ++ [NL] ++ lit "> hello world"
  ++ [NL] ++ lit "> ![[clip.mp3]]" ++ [NL] ++ [NL] ++ lit "Outro".
Proof. vm_compute. reflexivity. Qed.

(** *** Text search *)

Lemma cu_eqb_eq (a b : cu) : cu_eqb a b = true <-> a = b.
Proof. apply N.eqb_eq. Qed.

Lemma cu_eqb_refl (a : cu) : cu_eqb a a = true.
Proof. apply N.eqb_refl. Qed.

Lemma text_eqb_eq (a b : text) : text_eqb a b = true <-> a = b.
Proof.
  revert b; induction a as [|x a IH]; intros [|y b]; simpl; split;
    try congruence; try reflexivity.
  - rewrite andb_true_iff, cu_eqb_eq, IH. intros [-> ->]; reflexivity.
  - intros E; injection E as -> ->.
    rewrite cu_eqb_refl; simpl. apply IH; reflexivity.
Qed.

Lemma startsWith_app (p t : text) : startsWith p (p ++ t) = true.
Proof.
  induction p as [|x p IH]; simpl; [reflexivity|].
  rewrite cu_eqb_refl; exact IH.
Qed.

Lemma startsWith_inv (p s : text) :
  startsWith p s = true -> s = p ++ skipn (length p) s.
Proof.
  revert s; induction p as [|x p IH]; intros s H; simpl in *; [reflexivity|].
  destruct s as [|y s]; [discriminate|].
  apply andb_true_iff in H as [Hxy Hp].
  apply cu_eqb_eq in Hxy; subst y.
  f_equal. apply IH, Hp.
Qed.

Lemma startsWith_iff (p s : text) :
  startsWith p s = true <-> exists t, s = p ++ t.
Proof.
  split.
  - intros H; eexists; apply startsWith_inv, H.
  - intros [t ->]; apply startsWith_app.
Qed.

Lemma startsWith_length (p s : text) :
  startsWith p s = true -> length p <= length s.
Proof.
  intros H; apply startsWith_inv in H.
  apply (f_equal (@length cu)) in H. rewrite length_app in H. lia.
Qed.

(** A window that fits inside [u] is not affected by what follows [u]. *)
Lemma startsWith_within (p u y : text) :
  length p <= length u -> startsWith p (u ++ y) = startsWith p u.
Proof.
  revert u; induction p as [|x p IH]; intros u H; simpl in *; [reflexivity|].
  destruct u as [|c u]; simpl in *; [lia|].
  rewrite IH by lia. reflexivity.
Qed.

Lemma indexOf_Some_inv (s p : text) (i : nat) :
  indexOf s p = Some i ->
  s = firstn i s ++ p ++ skipn (i + length p) s
  /\ forall j, j < i -> startsWith p (skipn j s) = false.
Proof.
  revert i; induction s as [|c s IH]; intros i; simpl.
  - destruct (startsWith p []) eqn:E; [|discriminate].
    intros [= <-]; split; [|intros; lia].
    apply startsWith_inv in E; simpl. exact E.
  - destruct (startsWith p (c :: s)) eqn:E.
    + intros [= <-]; split; [|intros; lia].
      apply startsWith_inv in E; simpl. exact E.
    + destruct (indexOf s p) as [k|] eqn:Ek; simpl; [|discriminate].
      intros [= <-]. destruct (IH k eq_refl) as [Hs Hmin]. split.
      * simpl. f_equal. exact Hs.
      * intros [|j] Hj; simpl; [exact E|]. apply Hmin; lia.
Qed.

Lemma indexOf_cons (c : cu) (s p : text) :
  indexOf (c :: s) p =
  if startsWith p (c :: s) then Some 0 else option_map S (indexOf s p).
Proof. reflexivity. Qed.

Lemma indexOf_first (a p b : text) :
  (forall j, j < length a -> startsWith p (skipn j (a ++ p ++ b)) = false) ->
  indexOf (a ++ p ++ b) p = Some (length a).
Proof.
  induction a as [|c a IH]; intros Hmin.
  - simpl app. destruct (p ++ b) as [|x r] eqn:E; simpl.
    + destruct p; [reflexivity|discriminate].
    + rewrite <- E, startsWith_app. reflexivity.
  - change ((c :: a) ++ p ++ b) with (c :: (a ++ p ++ b)) in *.
    rewrite indexOf_cons.
    pose proof (Hmin 0 ltac:(simpl; lia)) as H0. simpl skipn in H0.
    rewrite H0, IH; [reflexivity|].
    intros j Hj. apply (Hmin (S j)). simpl; lia.
Qed.

Lemma indexOf_None_inv (s p : text) :
  indexOf s p = None -> forall j, startsWith p (skipn j s) = false.
Proof.
  induction s as [|c s IH]; simpl.
  - destruct (startsWith p []) eqn:E; [discriminate|]. intros _ [|j]; exact E.
  - destruct (startsWith p (c :: s)) eqn:E; [discriminate|].
    destruct (indexOf s p) eqn:Ek; [discriminate|].
    intros _ [|j]; simpl; [exact E|]. apply IH; reflexivity.
Qed.

Lemma indexOf_bound (s p : text) (i : nat) :
  indexOf s p = Some i -> i + length p <= length s.
Proof.
  revert i; induction s as [|c s IH]; intros i; simpl.
  - destruct (startsWith p []) eqn:E; [|discriminate].
    intros [= <-]. apply startsWith_length in E. simpl in *; lia.
  - destruct (startsWith p (c :: s)) eqn:E.
    + intros [= <-]. apply startsWith_length in E. simpl in *; lia.
    + destruct (indexOf s p) as [k|] eqn:Ek; simpl; [|discriminate].
      intros [= <-]. specialize (IH k eq_refl). lia.
Qed.

(** *** The editor: offsets and positions *)

Lemma offsetToPosIn_0 (d : text) : offsetToPosIn d 0 = mkPos 0 0.
Proof. destruct d; reflexivity. Qed.

Lemma posToOffset_after_prefix (pre x y : text) :
  posToOffsetIn (pre ++ x) (offsetToPosIn (pre ++ y) (length pre)) = length pre.
Proof.
  unfold posToOffsetIn.
  induction pre as [|c pre IH]; simpl.
  - rewrite offsetToPosIn_0. destruct x; reflexivity.
  - destruct (isNL c) eqn:Ec; simpl.
    + rewrite ?Ec. f_equal. exact IH.
    + destruct (line (offsetToPosIn (pre ++ y) (length pre))) eqn:El;
        simpl; rewrite ?El, ?Ec; f_equal; rewrite ?El in IH; exact IH.
Qed.

(** A position taken at offset [o] denotes offset [o] again in any text
    that agrees with the original one up to [o]. *)
Lemma posToOffset_stable (d d' : text) (o : nat) :
  o <= length d -> o <= length d' -> firstn o d = firstn o d' ->
  posToOffsetIn d' (offsetToPosIn d o) = o.
Proof.
  intros Hd Hd' E.
  assert (L : length (firstn o d) = o) by (rewrite length_firstn; lia).
  assert (E' : firstn o d ++ skipn o d' = d')
    by (rewrite E; apply firstn_skipn).
  pose proof (posToOffset_after_prefix (firstn o d) (skipn o d') (skipn o d)) as H.
  rewrite firstn_skipn, E', L in H. exact H.
Qed.

Lemma posToOffset_offsetToPos (d : text) (o : nat) :
  o <= length d -> posToOffsetIn d (offsetToPosIn d o) = o.
Proof. intros H; apply posToOffset_stable; auto. Qed.

Lemma replaceRange_offsets (d r : text) (a b : nat) :
  a <= length d -> b <= length d ->
  replaceRangeIn d r (offsetToPosIn d a) (offsetToPosIn d b)
  = firstn a d ++ r ++ skipn b d.
Proof.
  intros Ha Hb. unfold replaceRangeIn.
  rewrite !posToOffset_offsetToPos by assumption. reflexivity.
Qed.

(** *** The result splice *)

Lemma updateCallout_found (job : Job) (block : text) (st : St) (i : nat) :
  indexOf (doc st) (jobPlaceholder job) = Some i ->
  updateCallout job block st =
  (tt, mkSt (firstn i (doc st) ++ block
             ++ skipn (i + length (jobPlaceholder job)) (doc st))
            (trace st ++ [ReplaceRange block (offsetToPosIn (doc st) i)
                            (offsetToPosIn (doc st)
                               (i + length (jobPlaceholder job)))])).
Proof.
  intros Hi. pose proof (indexOf_bound _ _ _ Hi) as Hb.
  unfold updateCallout, bind, getValue. rewrite Hi.
  unfold offsetToPos, replaceRange. simpl.
  rewrite replaceRange_offsets by lia. reflexivity.
Qed.

Lemma updateCallout_not_found (job : Job) (block : text) (st : St) :
  indexOf (doc st) (jobPlaceholder job) = None ->
  updateCallout job block st =
  (tt, mkSt (doc st) (trace st ++ notFoundEvents job)).
Proof.
  intros Hi. unfold updateCallout, bind, getValue. rewrite Hi.
  unfold consoleError, newNotice, emit, notFoundEvents. simpl.
  rewrite <- app_assoc. reflexivity.
Qed.

Lemma firstn_length_app (a b : text) : firstn (length a) (a ++ b) = a.
Proof.
  rewrite firstn_app, Nat.sub_diag, firstn_all. simpl. apply app_nil_r.
Qed.

Lemma skipn_length_app (a b : text) : skipn (length a) (a ++ b) = b.
Proof.
  rewrite skipn_app, Nat.sub_diag, skipn_all. reflexivity.
Qed.

Lemma skipn_past (a p b : text) :
  skipn (length a + length p) (a ++ p ++ b) = b.
Proof.
  rewrite <- length_app, app_assoc. apply skipn_length_app.
Qed.

Lemma firstn_prefix_app (i : nat) (d x : text) :
  i <= length d -> firstn i (firstn i d ++ x) = firstn i d.
Proof.
  intros Hi.
  assert (L : length (firstn i d) = i) by (rewrite length_firstn; lia).
  pose proof (firstn_length_app (firstn i d) x) as H. rewrite L in H. exact H.
Qed.

Lemma skipn_prefix_app (i : nat) (d p x : text) :
  i <= length d -> skipn (i + length p) (firstn i d ++ p ++ x) = x.
Proof.
  intros Hi.
  assert (L : length (firstn i d) = i) by (rewrite length_firstn; lia).
  pose proof (skipn_past (firstn i d) p x) as H. rewrite L in H. exact H.
Qed.

(** Splicing at the occurrence [a ++ p ++ b] found first. *)
Lemma updateCallout_at (job : Job) (block a b : text) (tr : list Event) :
  indexOf (a ++ jobPlaceholder job ++ b) (jobPlaceholder job) = Some (length a) ->
  doc_of (updateCallout job block (mkSt (a ++ jobPlaceholder job ++ b) tr))
  = a ++ block ++ b.
Proof.
  intros Hi.
  rewrite (updateCallout_found job block (mkSt (a ++ jobPlaceholder job ++ b) tr)
             (length a) Hi).
  unfold doc_of; simpl. rewrite firstn_length_app, skipn_past. reflexivity.
Qed.

(** The first occurrence of [p] does not depend on the text after it. *)
Lemma indexOf_tail_irrelevant (a p y y' : text) :
  indexOf (a ++ p ++ y) p = Some (length a) ->
  indexOf (a ++ p ++ y') p = Some (length a).
Proof.
  intros H. apply indexOf_Some_inv in H as [_ Hmin].
  apply indexOf_first. intros j Hj. specialize (Hmin j Hj).
  rewrite skipn_app in *.
  replace (j - length a) with 0 in * by lia. simpl skipn in *.
  rewrite app_assoc in *.
  rewrite startsWith_within in *
    by (rewrite length_app; lia).
  exact Hmin.
Qed.

(** *** The scanner on a document made of gaps and links *)

Lemma includes_cons_false (c : cu) (s p : text) :
  includes (c :: s) p = false ->
  startsWith p (c :: s) = false /\ includes s p = false.
Proof.
  unfold includes. rewrite indexOf_cons.
  destruct (startsWith p (c :: s)); [discriminate|].
  destruct (indexOf s p); [discriminate|]. auto.
Qed.

Lemma includes_nil_false (p : text) :
  includes [] p = false -> startsWith p [] = false.
Proof.
  unfold includes; simpl. destruct (startsWith p []); [discriminate|auto].
Qed.

(** Inside a name, no alternative of the tail can match early: the
    closing brackets would have to lie inside the name. *)
Lemma no_tail_inside (e n x : text) :
  existsb (cu_eqb dot) e = false ->
  includes n closer = false ->
  startsWith (e ++ closer) (n ++ dot :: x) = false.
Proof.
  revert n; induction e as [|a e IH]; intros n He Hn.
  - simpl app at 1. destruct n as [|c1 [|c2 n]]; [reflexivity| |].
    + simpl. apply andb_false_r.
    + apply includes_cons_false in Hn as [Hn _]. exact Hn.
  - cbn [existsb] in He. apply orb_false_iff in He as [Ha He].
    destruct n as [|c n]; cbn [app startsWith].
    + unfold cu_eqb in *. rewrite N.eqb_sym, Ha. reflexivity.
    + apply includes_cons_false in Hn as [_ Hn].
      rewrite (IH n He Hn). apply andb_false_r.
Qed.

Lemma extensions_no_dot (e : text) :
  In e extensions -> existsb (cu_eqb dot) e = false.
Proof.
  unfold extensions; simpl.
  intros [<-|[<-|[<-|[<-|[<-|[<-|[<-|[]]]]]]]]; reflexivity.
Qed.

Lemma matchTail_at_dot (e x : text) :
  In e extensions -> matchTail extensions (dot :: e ++ closer ++ x) = Some e.
Proof.
  unfold extensions; simpl In.
  intros [<-|[<-|[<-|[<-|[<-|[<-|[<-|[]]]]]]]]; reflexivity.
Qed.

Lemma matchTail_inside (exts : list text) (c : cu) (n x : text) :
  (forall e, In e exts -> existsb (cu_eqb dot) e = false) ->
  includes (c :: n) closer = false ->
  matchTail exts (c :: n ++ dot :: x) = None.
Proof.
  intros Hexts Hn. apply includes_cons_false in Hn as [_ Hn].
  induction exts as [|e exts IH]; [reflexivity|].
  simpl. rewrite (no_tail_inside e n x (Hexts e (or_introl eq_refl)) Hn).
  rewrite andb_false_r. apply IH. intros e' He'. apply Hexts. right; exact He'.
Qed.

Lemma matchLazy_eq (s : text) :
  matchLazy s =
  match matchTail extensions s with
  | Some e => Some (dot :: e)
  | None =>
      match s with
      | [] => None
      | c :: s' =>
          if isLineTerminator c then None else option_map (cons c) (matchLazy s')
      end
  end.
Proof. destruct s; reflexivity. Qed.

Lemma matchLazy_link (n e x : text) :
  wellFormedName n = true -> In e extensions ->
  matchLazy (n ++ dot :: e ++ closer ++ x) = Some (n ++ dot :: e).
Proof.
  unfold wellFormedName. intros Hn He.
  apply andb_true_iff in Hn as [Hlt Hcl]. apply negb_true_iff in Hcl.
  induction n as [|c n IH].
  - cbn [app]. rewrite matchLazy_eq, matchTail_at_dot by exact He. reflexivity.
  - simpl in Hlt. apply andb_true_iff in Hlt as [Hc Hlt].
    apply negb_true_iff in Hc.
    change ((c :: n) ++ dot :: e ++ closer ++ x)
      with (c :: n ++ dot :: e ++ closer ++ x).
    rewrite matchLazy_eq.
    rewrite (matchTail_inside extensions c n _ extensions_no_dot Hcl), Hc.
    apply includes_cons_false in Hcl as [_ Hcl].
    rewrite (IH Hlt Hcl). reflexivity.
Qed.

Lemma link_whole (n e : text) :
  link n e = opener ++ (n ++ dot :: e) ++ closer.
Proof. unfold link. rewrite <- app_assoc. reflexivity. Qed.

Lemma matchHere_link (n e x : text) :
  wellFormedName n = true -> In e extensions ->
  matchHere (link n e ++ x) = Some (n ++ dot :: e).
Proof.
  intros Hn He. unfold matchHere, link.
  rewrite <- app_assoc, startsWith_app.
  change (skipn 3 (opener ++ (n ++ dot :: e ++ closer) ++ x))
    with ((n ++ dot :: e ++ closer) ++ x).
  rewrite <- app_assoc. simpl app at 2. rewrite <- app_assoc.
  apply matchLazy_link; assumption.
Qed.

Lemma scanFrom_cons (c : cu) (s : text) (pos : nat) :
  scanFrom (c :: s) pos 0 =
  match matchHere (c :: s) with
  | Some name =>
      mkMatch (opener ++ name ++ closer) name pos
      :: scanFrom s (S pos) (length (opener ++ name ++ closer) - 1)
  | None => scanFrom s (S pos) 0
  end.
Proof. reflexivity. Qed.

(** After a match, the scan resumes right behind it. *)
Lemma scanFrom_skip (s x : text) (pos : nat) :
  scanFrom (s ++ x) pos (length s) = scanFrom x (pos + length s) 0.
Proof.
  revert pos; induction s as [|c s IH]; intros pos; simpl.
  - rewrite Nat.add_0_r. destruct x; reflexivity.
  - rewrite IH. f_equal. lia.
Qed.

Lemma scanFrom_link (n e x : text) (pos : nat) :
  wellFormedName n = true -> In e extensions ->
  scanFrom (link n e ++ x) pos 0 =
  mkMatch (link n e) (n ++ dot :: e) pos
  :: scanFrom x (pos + length (link n e)) 0.
Proof.
  intros Hn He. pose proof (matchHere_link n e x Hn He) as Hm.
  rewrite link_whole in *.
  set (whole := opener ++ (n ++ dot :: e) ++ closer) in *.
  assert (Hw : exists c t, whole = c :: t) by (do 2 eexists; reflexivity).
  destruct Hw as (c & t & Hw). rewrite Hw in *.
  change ((c :: t) ++ x) with (c :: (t ++ x)) in *.
  rewrite scanFrom_cons, Hm. fold whole. rewrite Hw. f_equal.
  replace (length (c :: t) - 1) with (length t) by (simpl; lia).
  rewrite scanFrom_skip. f_equal. simpl; lia.
Qed.

(** No match starts inside a gap, nor across its end. *)
Lemma scanFrom_gap (g x : text) (pos : nat) :
  linkFree g = true -> x = [] \/ startsWith opener x = true ->
  scanFrom (g ++ x) pos 0 = scanFrom x (pos + length g) 0.
Proof.
  unfold linkFree. intros Hg Hx. apply negb_true_iff in Hg.
  revert pos; induction g as [|c g IH]; intros pos.
  - simpl. rewrite Nat.add_0_r. reflexivity.
  - apply includes_cons_false in Hg as [Hc Hg].
    change ((c :: g) ++ x) with (c :: (g ++ x)).
    assert (Hno : matchHere (c :: g ++ x) = None).
    { unfold matchHere.
      replace (startsWith opener (c :: g ++ x)) with false; [reflexivity|].
      symmetry. destruct g as [|y [|z g]].
      - destruct Hx as [->|Hx]; [exact Hc|].
        apply startsWith_inv in Hx. rewrite Hx. simpl.
        rewrite ?andb_false_r; reflexivity.
      - destruct Hx as [->|Hx]; [exact Hc|].
        apply startsWith_inv in Hx. rewrite Hx. simpl.
        rewrite ?andb_false_r; reflexivity.
      - exact Hc. }
    rewrite scanFrom_cons, Hno, (IH Hg). f_equal. simpl; lia.
Qed.

Lemma scanFrom_render (segs : list Segment) (final : text) (pos : nat) :
  Forall wellFormedSegment segs -> linkFree final = true ->
  scanFrom (render segs final) pos 0 = references pos segs.
Proof.
  intros Hsegs Hfinal. revert pos.
  induction Hsegs as [|[[g n] e] segs (Hg & Hn & He) _ IH]; intros pos;
    cbn [render references].
  - rewrite <- (app_nil_r final) at 1.
    rewrite (scanFrom_gap final [] pos Hfinal (or_introl eq_refl)).
    reflexivity.
  - rewrite scanFrom_gap; [|exact Hg|right].
    + rewrite scanFrom_link by assumption. f_equal. apply IH.
    + unfold link. rewrite <- app_assoc. apply startsWith_app.
Qed.

(** *** What every match of the scanner looks like *)

Lemma matchTail_Some (exts : list text) (s e : text) :
  matchTail exts s = Some e ->
  In e exts /\ startsWith (dot :: e ++ closer) s = true.
Proof.
  induction exts as [|e' exts IH]; cbn [matchTail]; [discriminate|].
  destruct (startsWith (dot :: e' ++ closer) s) eqn:E.
  - intros [= <-]. split; [left; reflexivity | exact E].
  - intros H. destruct (IH H). split; [right|]; assumption.
Qed.

Lemma extensions_noLineBreak (e : text) :
  In e extensions -> noLineBreak (dot :: e) = true.
Proof.
  unfold extensions; simpl In.
  intros [<-|[<-|[<-|[<-|[<-|[<-|[<-|[]]]]]]]]; reflexivity.
Qed.

Lemma matchLazy_Some (s name : text) :
  matchLazy s = Some name ->
  startsWith (name ++ closer) s = true /\ noLineBreak name = true.
Proof.
  revert name; induction s as [|c s IH]; intros name; rewrite matchLazy_eq.
  - destruct (matchTail extensions []) as [e|] eqn:E; [|discriminate].
    intros [= <-]. apply matchTail_Some in E as [He E].
    split; [exact E | apply extensions_noLineBreak, He].
  - destruct (matchTail extensions (c :: s)) as [e|] eqn:E.
    + intros [= <-]. apply matchTail_Some in E as [He E].
      split; [exact E | apply extensions_noLineBreak, He].
    + destruct (isLineTerminator c) eqn:Ec; [discriminate|].
      destruct (matchLazy s) as [n|] eqn:En; [|discriminate].
      intros [= <-]. destruct (IH n eq_refl) as [Hs Hn]. split.
      * cbn [app startsWith]. rewrite cu_eqb_refl. exact Hs.
      * cbn [noLineBreak forallb]. rewrite Ec. exact Hn.
Qed.

Lemma matchHere_Some (s name : text) :
  matchHere s = Some name ->
  startsWith (opener ++ name ++ closer) s = true /\ noLineBreak name = true.
Proof.
  unfold matchHere. destruct (startsWith opener s) eqn:E; [|discriminate].
  intros H. apply matchLazy_Some in H as [Hs Hn]. split; [|exact Hn].
  apply startsWith_inv in E. change (length opener) with 3 in E.
  apply startsWith_inv in Hs.
  apply startsWith_iff.
  exists (skipn (length (name ++ closer)) (skipn 3 s)).
  rewrite E at 1. rewrite Hs at 1. rewrite <- !app_assoc. reflexivity.
Qed.

Lemma placed_weaken (lo lo' hi : nat) (ms : list RegExpMatch) :
  lo <= lo' -> placed lo' hi ms -> placed lo hi ms.
Proof. destruct ms; simpl; intros; [lia|intuition lia]. Qed.

Lemma placed_bounds (lo hi : nat) (ms : list RegExpMatch) :
  placed lo hi ms -> lo <= hi.
Proof.
  revert lo; induction ms as [|m ms IH]; simpl; intros lo; [lia|].
  intros [H1 H2]. apply IH in H2. unfold matchEnd in H2. lia.
Qed.

Lemma scanFrom_placed (s : text) (pos skip : nat) :
  skip <= length s ->
  placed (pos + skip) (pos + length s) (scanFrom s pos skip).
Proof.
  revert pos skip; induction s as [|c s IH]; intros pos skip Hskip.
  - simpl in *. lia.
  - destruct skip as [|k].
    + rewrite scanFrom_cons.
      destruct (matchHere (c :: s)) as [name|] eqn:E.
      * apply matchHere_Some in E as [E _].
        apply startsWith_length in E.
        set (whole := opener ++ name ++ closer) in *.
        assert (Hw : 1 <= length whole) by (unfold whole; simpl; lia).
        cbn [placed index]. split; [lia|].
        unfold matchEnd; cbn [index m0].
        specialize (IH (S pos) (length whole - 1)).
        replace (S pos + (length whole - 1)) with (pos + length whole) in IH by lia.
        replace (S pos + length s) with (pos + length (c :: s)) in IH
          by (simpl; lia).
        apply IH. change (length (c :: s)) with (S (length s)) in E. lia.
      * apply placed_weaken with (lo' := S pos + 0); [lia|].
        replace (pos + length (c :: s)) with (S pos + length s) by (simpl; lia).
        apply IH. lia.
    + cbn [scanFrom].
      replace (pos + S k) with (S pos + k) by lia.
      replace (pos + length (c :: s)) with (S pos + length s) by (simpl; lia).
      apply IH. simpl in Hskip. lia.
Qed.

Lemma scanFrom_matchOf (s : text) (pos skip : nat) :
  Forall (matchOf s pos) (scanFrom s pos skip).
Proof.
  revert pos skip; induction s as [|c s IH]; intros pos skip; [constructor|].
  assert (Hshift : forall k, Forall (matchOf (c :: s) pos) (scanFrom s (S pos) k)).
  { intros k. eapply Forall_impl; [|apply IH].
    intros m (H0 & H1 & H2 & H3). repeat split; auto; [lia|].
    replace (index m - pos) with (S (index m - S pos)) by lia. exact H3. }
  destruct skip as [|k]; [|apply Hshift].
  rewrite scanFrom_cons.
  destruct (matchHere (c :: s)) as [name|] eqn:E; [|apply Hshift].
  constructor; [|apply Hshift].
  apply matchHere_Some in E as [E Hn].
  repeat split; cbn [m0 m1 index]; auto.
  rewrite Nat.sub_diag. exact E.
Qed.

Lemma matchAll_placed (content : text) :
  placed 0 (length content) (matchAll content).
Proof. apply (scanFrom_placed content 0 0). lia. Qed.

Lemma matchAll_matchOf (content : text) :
  Forall (matchOf content 0) (matchAll content).
Proof. apply scanFrom_matchOf. Qed.

(** *** Sequencing *)

Lemma forEach_app {A B} (f : B -> A -> M B) (l1 l2 : list A) (acc : B) (st : St) :
  forEach f (l1 ++ l2) acc st =
  forEach f l2 (fst (forEach f l1 acc st)) (snd (forEach f l1 acc st)).
Proof.
  revert acc st; induction l1 as [|a l1 IH]; intros acc st; simpl.
  - reflexivity.
  - unfold bind. destruct (f acc a st) as [acc' st']. apply IH.
Qed.

Lemma forEach_cons {A B} (f : B -> A -> M B) (a : A) (l : list A) (acc : B) (st : St) :
  forEach f (a :: l) acc st =
  forEach f l (fst (f acc a st)) (snd (f acc a st)).
Proof. simpl. unfold bind. destruct (f acc a st); reflexivity. Qed.

(** *** Step 1: one iteration *)

Section PlaceholderLoop.

Variable h : Host.
Variable placeholderText : text -> text -> text.
Variable viewFile : option text.

Local Abbreviation placeholderOf m :=
  (placeholderText (m1 m) (m0 m)) (only parsing).

Lemma insertPlaceholder_spec (m : RegExpMatch) (st : St) :
  matchEnd m <= length (doc st) ->
  insertPlaceholder placeholderText m st =
  (offsetToPosIn (doc st) (index m),
   mkSt (firstn (index m) (doc st) ++ placeholderOf m
         ++ skipn (matchEnd m) (doc st))
        (trace st
         ++ [ReplaceRange (placeholderOf m) (offsetToPosIn (doc st) (index m))
               (offsetToPosIn (doc st) (matchEnd m))])).
Proof.
  intros Hend. unfold insertPlaceholder, bind, offsetToPos, replaceRange, ret.
  cbn [doc trace]. fold (matchEnd m). unfold matchEnd in Hend.
  rewrite replaceRange_offsets by (unfold matchEnd; lia). reflexivity.
Qed.

Lemma overwritePlaceholder_spec (d pl block rest : text) (i : nat)
    (tr : list Event) :
  i <= length d ->
  overwritePlaceholder (offsetToPosIn d i) pl block
    (mkSt (firstn i d ++ pl ++ rest) tr) =
  (tt, mkSt (firstn i d ++ block ++ rest)
         (tr ++ [ReplaceRange block (offsetToPosIn d i)
                   (offsetToPosIn (firstn i d ++ pl ++ rest) (i + length pl))])).
Proof.
  intros Hi.
  assert (L : length (firstn i d) = i) by (rewrite length_firstn; lia).
  unfold overwritePlaceholder, bind, posToOffset, offsetToPos, replaceRange.
  cbn [doc trace].
  set (d' := firstn i d ++ pl ++ rest).
  assert (Hstart : posToOffsetIn d' (offsetToPosIn d i) = i).
  { apply posToOffset_stable; [exact Hi| |].
    - unfold d'. rewrite length_app. lia.
    - unfold d'. rewrite firstn_prefix_app by exact Hi. reflexivity. }
  rewrite Hstart. unfold replaceRangeIn. rewrite Hstart.
  rewrite posToOffset_offsetToPos
    by (unfold d'; rewrite !length_app; lia).
  f_equal. f_equal. unfold d'.
  rewrite firstn_prefix_app, skipn_prefix_app by exact Hi. reflexivity.
Qed.

Lemma processMatch_doc (jobs : list Job) (m : RegExpMatch) (st : St) :
  matchEnd m <= length (doc st) ->
  doc_of (processMatch h placeholderText viewFile jobs m st) =
  firstn (index m) (doc st) ++ blockFor h placeholderText viewFile m
  ++ skipn (matchEnd m) (doc st).
Proof.
  intros Hend.
  assert (Hidx : index m <= length (doc st)) by (unfold matchEnd in Hend; lia).
  unfold processMatch, bind. rewrite insertPlaceholder_spec by exact Hend.
  unfold resolveMatch, blockFor, doc_of.
  destruct viewFile as [src|].
  - destruct (getFirstLinkpathDest h (m1 m) src) as [file|].
    + reflexivity.
    + unfold bind. rewrite overwritePlaceholder_spec by exact Hidx.
      reflexivity.
  - unfold bind. rewrite overwritePlaceholder_spec by exact Hidx.
    reflexivity.
Qed.

(** An unresolved link: placeholder, failure callout over it, notice;
    no job. *)
Lemma processMatch_unresolved (jobs : list Job) (m : RegExpMatch) (st : St)
    (sourcePath : text) :
  viewFile = Some sourcePath ->
  getFirstLinkpathDest h (m1 m) sourcePath = None ->
  matchEnd m <= length (doc st) ->
  processMatch h placeholderText viewFile jobs m st =
  (jobs,
   mkSt (firstn (index m) (doc st) ++ notFoundBlock (m1 m) (m0 m)
         ++ skipn (matchEnd m) (doc st))
        (trace st
         ++ [ReplaceRange (placeholderOf m) (offsetToPosIn (doc st) (index m))
               (offsetToPosIn (doc st) (matchEnd m));
             ReplaceRange (notFoundBlock (m1 m) (m0 m))
               (offsetToPosIn (doc st) (index m))
               (offsetToPosIn
                  (firstn (index m) (doc st) ++ placeholderOf m
                   ++ skipn (matchEnd m) (doc st))
                  (index m + length (placeholderOf m)));
             Notice (lit "Could not find the file: " ++ m1 m)])).
Proof.
  intros Hview Hnone Hend.
  assert (Hidx : index m <= length (doc st)) by (unfold matchEnd in Hend; lia).
  unfold processMatch, bind. rewrite insertPlaceholder_spec by exact Hend.
  unfold resolveMatch. rewrite Hview, Hnone.
  unfold bind. rewrite overwritePlaceholder_spec by exact Hidx.
  unfold newNotice, emit, ret. cbn [doc trace].
  rewrite <- !app_assoc. reflexivity.
Qed.

(** A resolved link: the placeholder stays and a job is queued. *)
Lemma processMatch_resolved (jobs : list Job) (m : RegExpMatch) (st : St)
    (sourcePath file : text) :
  viewFile = Some sourcePath ->
  getFirstLinkpathDest h (m1 m) sourcePath = Some file ->
  matchEnd m <= length (doc st) ->
  processMatch h placeholderText viewFile jobs m st =
  (jobs ++ [mkJob (getFullPath h file) (offsetToPosIn (doc st) (index m))
                  (placeholderOf m) (m0 m) (m1 m)],
   mkSt (firstn (index m) (doc st) ++ placeholderOf m
         ++ skipn (matchEnd m) (doc st))
        (trace st
         ++ [ReplaceRange (placeholderOf m) (offsetToPosIn (doc st) (index m))
               (offsetToPosIn (doc st) (matchEnd m))])).
Proof.
  intros Hview Hsome Hend.
  unfold processMatch, bind. rewrite insertPlaceholder_spec by exact Hend.
  unfold resolveMatch. rewrite Hview, Hsome. reflexivity.
Qed.

(** Processing the matches of [ms], rightmost first, leaves the text
    before them untouched. *)
Lemma forEach_prefix (ms : list RegExpMatch) (lo : nat) (jobs : list Job)
    (st : St) :
  placed lo (length (doc st)) ms ->
  let r := forEach (processMatch h placeholderText viewFile) (rev ms) jobs st in
  firstn lo (doc (snd r)) = firstn lo (doc st) /\ lo <= length (doc (snd r)).
Proof.
  revert lo jobs st; induction ms as [|m ms IH]; intros lo jobs st Hpl.
  - simpl in *. auto.
  - destruct Hpl as [Hlo Hpl]. cbn [rev]. rewrite forEach_app.
    destruct (IH (matchEnd m) jobs st Hpl) as [Hpre Hlen].
    set (r := forEach _ (rev ms) jobs st) in *.
    rewrite forEach_cons. cbn [forEach ret snd].
    pose proof (processMatch_doc (fst r) m (snd r) Hlen) as Hdoc.
    unfold doc_of in Hdoc. rewrite Hdoc.
    assert (Hidx : index m <= matchEnd m) by (unfold matchEnd; lia).
    split.
    + rewrite firstn_app, length_firstn.
      replace (lo - Nat.min (index m) (length (doc (snd r)))) with 0 by lia.
      rewrite firstn_firstn, firstn_0, app_nil_r.
      replace (Nat.min lo (index m)) with (Nat.min lo (matchEnd m)) by lia.
      rewrite <- firstn_firstn, Hpre, firstn_firstn. f_equal. lia.
    + rewrite length_app, length_firstn. lia.
Qed.

End PlaceholderLoop.

(** *** Provider calls in a trace *)

Lemma transcribeCalls_app (t1 t2 : list Event) :
  transcribeCalls (t1 ++ t2) = transcribeCalls t1 ++ transcribeCalls t2.
Proof. apply flat_map_app. Qed.

Lemma quiet_ret {A} (a : A) : quiet (ret a).
Proof. intros st; reflexivity. Qed.

Lemma quiet_bind {A B} (m : M A) (k : A -> M B) :
  quiet m -> (forall a, quiet (k a)) -> quiet (bind m k).
Proof.
  intros Hm Hk st. unfold bind. specialize (Hm st).
  destruct (m st) as [a st']. rewrite Hk. exact Hm.
Qed.

Lemma quiet_getValue : quiet getValue.
Proof. intros st; reflexivity. Qed.

Lemma quiet_offsetToPos (o : nat) : quiet (offsetToPos o).
Proof. intros st; reflexivity. Qed.

Lemma quiet_posToOffset (p : EditorPosition) : quiet (posToOffset p).
Proof. intros st; reflexivity. Qed.

Lemma quiet_replaceRange (r : text) (a b : EditorPosition) :
  quiet (replaceRange r a b).
Proof.
  intros st. simpl. rewrite transcribeCalls_app. simpl. apply app_nil_r.
Qed.

Lemma quiet_newNotice (msg : text) : quiet (newNotice msg).
Proof.
  intros st. simpl. rewrite transcribeCalls_app. simpl. apply app_nil_r.
Qed.

Lemma quiet_consoleError (msg : text) : quiet (consoleError msg).
Proof.
  intros st. simpl. rewrite transcribeCalls_app. simpl. apply app_nil_r.
Qed.

Lemma quiet_forEach {A B} (f : B -> A -> M B) (l : list A) :
  (forall acc a, quiet (f acc a)) -> forall acc, quiet (forEach f l acc).
Proof.
  intros Hf. induction l as [|a l IH]; intros acc; simpl.
  - apply quiet_ret.
  - apply quiet_bind; [apply Hf | exact IH].
Qed.

Create HintDb quiet.
#[local] Hint Resolve quiet_ret quiet_getValue quiet_offsetToPos
  quiet_posToOffset quiet_replaceRange quiet_newNotice quiet_consoleError
  : quiet.

Ltac quiet_step :=
  repeat first
    [ apply quiet_bind; [|intros ?]
    | solve [auto with quiet] ].

Lemma quiet_processMatch h placeholderText viewFile jobs m :
  quiet (processMatch h placeholderText viewFile jobs m).
Proof.
  unfold processMatch, insertPlaceholder, resolveMatch, overwritePlaceholder.
  destruct viewFile as [src|];
    [destruct (getFirstLinkpathDest h (m1 m) src)|]; quiet_step.
Qed.

Lemma quiet_updateCallout job block : quiet (updateCallout job block).
Proof.
  unfold updateCallout. apply quiet_bind; [auto with quiet|].
  intros content. destruct (indexOf content (jobPlaceholder job)); quiet_step.
Qed.

(** *** Completion orders *)

Lemma remove_nth_perm {A} (k : nat) (l : list A) (d : A) :
  k < length l ->
  Permutation (nth k l d :: firstn k l ++ skipn (S k) l) l.
Proof.
  revert k; induction l as [|a l IH]; intros k Hk; simpl in Hk; [lia|].
  destruct k as [|k]; simpl.
  - reflexivity.
  - rewrite perm_swap. constructor. apply IH. lia.
Qed.

Lemma completionOrder_perm {A} (fuel : nat) (sched : list nat) (l : list A) :
  length l <= fuel -> Permutation (completionOrder fuel sched l) l.
Proof.
  revert sched l; induction fuel as [|fuel IH]; intros sched l Hl.
  - destruct l; simpl in *; [constructor|lia].
  - destruct l as [|a l]; [constructor|].
    cbn [completionOrder].
    set (k := hd 0 sched mod length (a :: l)).
    assert (Hk : k < length (a :: l)) by (apply Nat.mod_upper_bound; discriminate).
    eapply Permutation_trans; [|apply (remove_nth_perm k (a :: l) a Hk)].
    constructor. apply IH.
    rewrite length_app, length_firstn, length_skipn. simpl in *. lia.
Qed.

Lemma settleOrder_perm {A} (sched : list nat) (l : list A) :
  Permutation (settleOrder sched l) l.
Proof. apply completionOrder_perm. lia. Qed.

(** *** Step 1: the jobs created *)

Section JobsCreated.

Variable h : Host.
Variable placeholderText : text -> text -> text.
Variable viewFile : option text.

Lemma processMatch_jobs (jobs : list Job) (m : RegExpMatch) (st : St) :
  exists created,
    fst (processMatch h placeholderText viewFile jobs m st) = jobs ++ created
    /\ Forall2 (jobFor h placeholderText viewFile)
         (filter (resolves h viewFile) [m]) created.
Proof.
  unfold processMatch, bind.
  destruct (insertPlaceholder placeholderText m st) as [pos st'].
  unfold resolveMatch, resolves. cbn [filter].
  destruct viewFile as [src|] eqn:Hv.
  - destruct (getFirstLinkpathDest h (m1 m) src) as [file|] eqn:Hf.
    + eexists; split; [reflexivity|]. constructor; [|constructor].
      repeat split; cbn. exists src, file. auto.
    + exists []. rewrite app_nil_r. split; [|constructor].
      unfold bind. destruct (overwritePlaceholder _ _ _ _) as [u st2].
      destruct (newNotice _ _). reflexivity.
  - exists []. rewrite app_nil_r. split; [|constructor].
    unfold bind. destruct (overwritePlaceholder _ _ _ _) as [u st2].
    reflexivity.
Qed.

Lemma forEach_jobs (l : list RegExpMatch) (jobs : list Job) (st : St) :
  exists created,
    fst (forEach (processMatch h placeholderText viewFile) l jobs st)
    = jobs ++ created
    /\ Forall2 (jobFor h placeholderText viewFile)
         (filter (resolves h viewFile) l) created.
Proof.
  revert jobs st; induction l as [|m l IH]; intros jobs st.
  - exists []. rewrite app_nil_r. split; [reflexivity|constructor].
  - rewrite forEach_cons.
    destruct (processMatch_jobs jobs m st) as (c1 & E1 & F1).
    destruct (IH (fst (processMatch h placeholderText viewFile jobs m st))
                 (snd (processMatch h placeholderText viewFile jobs m st)))
      as (c2 & E2 & F2).
    exists (c1 ++ c2). rewrite E2, E1, app_assoc. split; [reflexivity|].
    change (m :: l) with ([m] ++ l). rewrite filter_app.
    apply Forall2_app; assumption.
Qed.

Lemma createPlaceholders_jobs (ms : list RegExpMatch) (st : St) :
  Forall2 (jobFor h placeholderText viewFile) (filter (resolves h viewFile) (rev ms))
    (fst (createPlaceholders h placeholderText viewFile ms st)).
Proof.
  unfold createPlaceholders.
  destruct (forEach_jobs (rev ms) [] st) as (c & E & F).
  rewrite E. exact F.
Qed.

Lemma createPlaceholders_count (ms : list RegExpMatch) (st : St) :
  length (fst (createPlaceholders h placeholderText viewFile ms st))
  = length (filter (resolves h viewFile) ms).
Proof.
  pose proof (createPlaceholders_jobs ms st) as F.
  apply Forall2_length in F. rewrite <- F.
  rewrite filter_rev, length_rev. reflexivity.
Qed.

Lemma quiet_createPlaceholders (ms : list RegExpMatch) :
  quiet (createPlaceholders h placeholderText viewFile ms).
Proof.
  unfold createPlaceholders. apply quiet_forEach.
  intros; apply quiet_processMatch.
Qed.

End JobsCreated.

(** *** Step 2 and the whole command *)

Section Run.

Variable h : Host.
Variable sched : list nat.
Variable this : Plugin.

Lemma mapM_launch (jobs : list Job) (st : St) :
  mapM (launch h this) jobs st =
  (map (fun j => (j, callProvider h this (filePath j))) jobs,
   mkSt (doc st)
        (trace st ++ map (fun j => Transcribe (provider (settings this))
                                     (filePath j)) jobs)).
Proof.
  revert st; induction jobs as [|j jobs IH]; intros st; simpl.
  - unfold ret. rewrite app_nil_r. destruct st; reflexivity.
  - unfold bind, launch, bind, emit, ret. rewrite IH. cbn [doc trace].
    rewrite <- app_assoc. reflexivity.
Qed.

Lemma quiet_settle (jr : Job * Result text) : quiet (settle jr).
Proof.
  unfold settle. destruct (snd jr).
  - apply quiet_updateCallout.
  - apply quiet_bind; [auto with quiet|]. intros _. apply quiet_updateCallout.
Qed.

Lemma transcribeCalls_launches (jobs : list Job) :
  transcribeCalls (map (fun j => Transcribe (provider (settings this))
                                   (filePath j)) jobs)
  = map (callOf this) jobs.
Proof. induction jobs as [|j jobs IH]; simpl; [|rewrite IH]; reflexivity. Qed.

Lemma runJobs_calls (jobs : list Job) (st : St) :
  transcribeCalls (trace_of (runJobs h sched this jobs st))
  = transcribeCalls (trace st) ++ map (callOf this) jobs.
Proof.
  unfold runJobs, bind, trace_of. rewrite mapM_launch.
  rewrite (quiet_forEach (fun _ jr => settle jr) _ (fun _ => quiet_settle) tt).
  cbn [trace]. rewrite transcribeCalls_app, transcribeCalls_launches.
  reflexivity.
Qed.

(** The command once its guards are passed. *)
Lemma transcribeAudioInNote_run (st : St) (viewFile : option text) :
  ready this -> activeView h = Some viewFile -> matchAll (doc st) <> [] ->
  transcribeAudioInNote h sched this st =
  let st0 := snd (newNotice (foundNotice this (length (matchAll (doc st)))) st) in
  let r1 := createPlaceholders h (placeholderBlock (provider (settings this)))
              viewFile (matchAll (doc st)) st0 in
  let r2 := runJobs h sched this (fst r1) (snd r1) in
  newNotice (lit "All transcriptions complete!") (snd r2).
Proof.
  unfold ready, transcribeAudioInNote. intros Hready Hview Hms.
  replace (Provider_eqb (provider (settings this)) gemini
           && isEmpty (geminiApiKey (settings this))) with false
    by (destruct (provider (settings this)); cbn; [|reflexivity];
        destruct (geminiApiKey (settings this)); [contradiction|reflexivity]).
  replace (Provider_eqb (provider (settings this)) openrouter
           && isEmpty (openrouterApiKey (settings this))) with false
    by (destruct (provider (settings this)); cbn; [reflexivity|];
        destruct (openrouterApiKey (settings this)); [contradiction|reflexivity]).
  rewrite Hview. unfold bind at 1, getValue at 1.
  destruct (matchAll (doc st)) as [|m ms] eqn:E; [contradiction|].
  cbn [length Nat.eqb]. unfold bind. fold (foundNotice this (length (m :: ms))).
  cbn zeta.
  destruct (newNotice _ st) as [u st0]. cbn [snd].
  destruct (createPlaceholders _ _ _ _ st0) as [jobs st1]. cbn [fst snd].
  destruct (runJobs h sched this jobs st1) as [u2 st2]. reflexivity.
Qed.

End Run.

Section RunCalls.

Variable h : Host.
Variable sched : list nat.
Variable this : Plugin.

Lemma transcribeAudioInNote_calls_ready (st : St) (viewFile : option text) :
  ready this -> activeView h = Some viewFile ->
  transcribeCalls (trace_of (transcribeAudioInNote h sched this st))
  = transcribeCalls (trace st) ++ map (callOf this) (jobsOfRun h this viewFile st).
Proof.
  intros Hready Hview.
  destruct (matchAll (doc st)) as [|m ms] eqn:E.
  - unfold jobsOfRun. rewrite E. cbn [createPlaceholders rev forEach ret fst map].
    rewrite app_nil_r.
    unfold transcribeAudioInNote, ready in *.
    destruct (provider (settings this));
      [destruct (geminiApiKey (settings this)); [contradiction|]
      |destruct (openrouterApiKey (settings this)); [contradiction|]];
      cbn [Provider_eqb isEmpty andb]; rewrite Hview;
      unfold bind, getValue; rewrite E; cbn [length Nat.eqb];
      apply quiet_newNotice.
  - rewrite (transcribeAudioInNote_run h sched this st viewFile Hready Hview)
      by (rewrite E; discriminate).
    cbv zeta. unfold trace_of. rewrite quiet_newNotice.
    fold (trace_of (runJobs h sched this
                      (fst (createPlaceholders h
                              (placeholderBlock (provider (settings this)))
                              viewFile (matchAll (doc st))
                              (snd (newNotice (foundNotice this
                                      (length (matchAll (doc st)))) st))))
                      (snd (createPlaceholders h
                              (placeholderBlock (provider (settings this)))
                              viewFile (matchAll (doc st))
                              (snd (newNotice (foundNotice this
                                      (length (matchAll (doc st)))) st)))))).
    rewrite runJobs_calls, quiet_createPlaceholders, quiet_newNotice.
    reflexivity.
Qed.

(** Whatever the guards decide, every call of a run goes to the
    selected provider's client. *)
Lemma transcribeAudioInNote_calls (st : St) :
  exists jobs,
    transcribeCalls (trace_of (transcribeAudioInNote h sched this st))
    = transcribeCalls (trace st) ++ map (callOf this) jobs.
Proof.
  assert (Hquiet : forall msg,
             transcribeCalls (trace_of (newNotice msg st))
             = transcribeCalls (trace st) ++ map (callOf this) [])
    by (intros msg; rewrite app_nil_r; apply quiet_newNotice).
  destruct (activeView h) as [viewFile|] eqn:Hview.
  - destruct (provider (settings this)) eqn:Hp.
    + destruct (geminiApiKey (settings this)) eqn:Hk.
      * exists []. unfold transcribeAudioInNote. rewrite Hp, Hk.
        cbn [Provider_eqb isEmpty andb]. apply Hquiet.
      * exists (jobsOfRun h this viewFile st).
        apply transcribeAudioInNote_calls_ready; [|exact Hview].
        unfold ready. rewrite Hp, Hk. discriminate.
    + destruct (openrouterApiKey (settings this)) eqn:Hk.
      * exists []. unfold transcribeAudioInNote. rewrite Hp, Hk.
        cbn [Provider_eqb isEmpty andb]. apply Hquiet.
      * exists (jobsOfRun h this viewFile st).
        apply transcribeAudioInNote_calls_ready; [|exact Hview].
        unfold ready. rewrite Hp, Hk. discriminate.
  - exists []. unfold transcribeAudioInNote. rewrite Hview.
    destruct (Provider_eqb _ _ && _); [apply Hquiet|].
    destruct (Provider_eqb _ _ && _); apply Hquiet.
Qed.

End RunCalls.

(** ** The audio-link scanner (C1) *)

(** Where the extensions are written in lower case the scanner does
    what is expected of it: for every document made of [N] links
    [![[name.ext]]] whose extension is one of mp3, wav, m4a, flac, ogg,
    aac, webm in lower case and whose name holds no line break and no
    closing bracket pair, separated by text without the embed opener,
    the scanner returns exactly the [N] references, in document order,
    each with its start offset, and hence its end offset, in the
    original text. *)
Theorem scanner_finds_every_link (segs : list Segment) (final : text) :
  Forall wellFormedSegment segs -> linkFree final = true ->
  let content := render segs final in
  matchAll content = references 0 segs
  /\ length (matchAll content) = length segs
  /\ Forall (fun m => startsWith (m0 m) (skipn (index m) content) = true
                      /\ matchEnd m <= length content)
       (matchAll content).
Proof.
  intros Hsegs Hfinal content.
  assert (E : matchAll content = references 0 segs)
    by (apply scanFrom_render; assumption).
  split; [exact E|]. split.
  - rewrite E. generalize 0. clear.
    induction segs as [|[[g n] e] segs IH]; intros pos; [reflexivity|].
    cbn [references length]. rewrite IH. reflexivity.
  - pose proof (matchAll_matchOf content) as Hshape.
    pose proof (matchAll_placed content) as Hplaced.
    revert Hshape Hplaced. generalize 0 at 2. generalize (matchAll content).
    intros ms. induction ms as [|m ms IH]; intros lo Hshape Hplaced;
      [constructor|].
    inversion Hshape as [|m' ms' (_ & _ & _ & Hm) Hrest]; subst.
    destruct Hplaced as [_ Hplaced].
    constructor; [|apply (IH (matchEnd m)); assumption].
    rewrite Nat.sub_0_r in Hm. split; [exact Hm|].
    apply placed_bounds in Hplaced. exact Hplaced.
Qed.

Lemma scanner_finds_every_link_witness :
  matchAll (lit "a ![[x.mp3]] b ![[y z.webm]]!") =
  [mkMatch (lit "![[x.mp3]]") (lit "x.mp3") 2;
   mkMatch (lit "![[y z.webm]]") (lit "y z.webm") 15].
Proof.
  pose proof (scanner_finds_every_link
                [(lit "a ", lit "x", lit "mp3"); (lit " b ", lit "y z", lit "webm")]
                (lit "!")) as H.
  destruct H as [H _].
  - constructor; [|constructor; [|constructor]];
      (split; [reflexivity | split; [reflexivity | simpl; auto 10]]).
  - reflexivity.
  - exact H.
Defined.

(** A link whose extension is one of the seven up to case ([MP3]) is
    well formed, and the scanner returns no reference for it. *)
Lemma scanner_misses_uppercase_extension :
  let segs := [([], lit "a", lit "MP3")] in
  audioExtensionAnyCase (lit "MP3") = true
  /\ wellFormedName (lit "a") = true
  /\ render segs [] = lit "![[a.MP3]]"
  /\ matchAll (render segs []) = []
  /\ references 0 segs = [mkMatch (lit "![[a.MP3]]") (lit "a.MP3") 0].
Proof. repeat split. Qed.

(** Besides: an embed opened before an audio link on the same line is
    taken into the match, since the lazy [.*?] runs over the first closing
    brackets. *)
Example scanner_swallows_preceding_embed :
  matchAll (lit "![[pic.png]] ![[a.mp3]]")
  = [mkMatch (lit "![[pic.png]] ![[a.mp3]]") (lit "pic.png]] ![[a.mp3") 0].
Proof. reflexivity. Qed.

(** ** Configuration errors (C7) *)

(** C7.  When the selected provider's API key is the empty string, the
    command emits one notice and stops: the document is unchanged, no
    placeholder is inserted and no provider call is made. *)
Theorem missing_key_aborts (h : Host) (sched : list nat) (this : Plugin) (st : St) :
  selectedApiKey this = [] ->
  exists message,
    transcribeAudioInNote h sched this st
    = (tt, mkSt (doc st) (trace st ++ [Notice message])).
Proof.
  unfold selectedApiKey, transcribeAudioInNote. intros Hkey.
  destruct (provider (settings this)); rewrite Hkey;
    cbn [Provider_eqb isEmpty andb]; eexists; reflexivity.
Qed.

Lemma missing_key_aborts_witness :
  exists message,
    transcribeAudioInNote (vaultHost (fun _ => Ok (lit "hello world"))) []
      (services DEFAULT_SETTINGS) (open clipDoc)
    = (tt, mkSt clipDoc [Notice message]).
Proof.
  apply (missing_key_aborts (vaultHost (fun _ => Ok (lit "hello world"))) []
           (services DEFAULT_SETTINGS) (open clipDoc)).
  reflexivity.
Defined.

(** The Gemini-only revision has the same guard. *)
Lemma geminiOnly_missing_key_aborts (h : Host) (sched : list nat)
    (this : GeminiOnly.Plugin) (st : St) :
  GeminiOnly.geminiApiKey (GeminiOnly.settings this) = [] ->
  exists message,
    GeminiOnly.transcribeAudioInNote h sched this st
    = (tt, mkSt (doc st) (trace st ++ [Notice message])).
Proof.
  unfold GeminiOnly.transcribeAudioInNote. intros ->.
  eexists; reflexivity.
Qed.

(** ** Provider migration (C10) *)

Lemma loadSettings_saveData (s : TellaSettings) : loadSettings (saveData s) = s.
Proof. destruct s; reflexivity. Qed.

Lemma onload_provider (data : option StoredData) :
  provider (settings (plugin (onload data))) = gemini
  /\ provider (loadSettings (stored (onload data))) = gemini.
Proof.
  unfold onload. destruct (provider (loadSettings data)) eqn:E; cbn; auto.
Qed.

Lemma onChange_provider (l : Loaded) (c : SettingChange) :
  provider (settings (plugin (onChange l c))) = provider (settings (plugin l))
  /\ provider (loadSettings (stored (onChange l c)))
     = provider (settings (plugin l)).
Proof. destruct c; cbn; auto. Qed.

Lemma session_provider (data : option StoredData) (changes : list SettingChange) :
  provider (settings (plugin (session data changes))) = gemini
  /\ provider (loadSettings (stored (session data changes))) = gemini.
Proof.
  unfold session. generalize (onload_provider data).
  generalize (onload data). induction changes as [|c changes IH]; intros l Hl.
  - exact Hl.
  - cbn [fold_left]. apply IH.
    destruct (onChange_provider l c) as [H1 H2]. destruct Hl as [Hl _].
    rewrite H1, H2. auto.
Qed.

(** C10.  After [onload], and after any later changes made through the
    settings tab, the provider in memory and the provider a reload would
    read from the stored data are both [gemini]; when the stored data
    named [openrouter], [onload] stores the rewritten settings before it
    registers the command; and every call a transcription run makes goes
    to the Gemini client. *)
Theorem provider_is_gemini_after_load
    (data : option StoredData) (changes : list SettingChange)
    (h : Host) (sched : list nat) (st : St) :
  let l := session data changes in
  provider (settings (plugin l)) = gemini
  /\ provider (loadSettings (stored l)) = gemini
  /\ match provider (loadSettings data) with
     | openrouter =>
         lifecycle (onload data)
         = [SaveData (withProvider (loadSettings data) gemini);
            ConsoleLog (lit "Tella: Migrated provider setting from OpenRouter to Gemini.");
            AddCommand (lit "transcribe-audio-in-note"); AddSettingTab]
         /\ stored (onload data)
            = saveData (withProvider (loadSettings data) gemini)
     | gemini =>
         lifecycle (onload data)
         = [AddCommand (lit "transcribe-audio-in-note"); AddSettingTab]
         /\ stored (onload data) = data
     end
  /\ (forall audioPath,
        callProvider h (plugin l) audioPath
        = GeminiService.transcribeAudio h (geminiService (plugin l)) audioPath
            (transcriptionPrompt (settings (plugin l)))
            (geminiModelName (settings (plugin l))))
  /\ exists jobs,
       transcribeCalls (trace_of (transcribeAudioInNote h sched (plugin l) st))
       = transcribeCalls (trace st) ++ map (fun j => (gemini, filePath j)) jobs.
Proof.
  intros l. destruct (session_provider data changes) as [Hp Hs]. fold l in Hp, Hs.
  split; [exact Hp|]. split; [exact Hs|]. split; [|split].
  - unfold onload. destruct (provider (loadSettings data)); cbn; auto.
  - intros audioPath. unfold callProvider. rewrite Hp. reflexivity.
  - destruct (transcribeAudioInNote_calls h sched (plugin l) st) as [jobs Hj].
    exists jobs. rewrite Hj. unfold callOf. rewrite Hp. reflexivity.
Qed.

(** ** The result splice (C4, C9) *)

Ltac text_neq :=
  let H := fresh in
  intro H; apply text_eqb_eq in H; vm_compute in H; discriminate H.

(** C4, as amended.  When the document holds the placeholder (first at
    [a ++ p ++ b]) and the text after the replacement, [a ++ block ++ b],
    holds it no more, the first application replaces that span and the
    second one finds nothing, reports the condition (console error and
    notice) and leaves the document as it is. *)
Theorem splice_twice_updates_once (job : Job) (block a b : text)
    (tr : list Event) :
  let p := jobPlaceholder job in
  indexOf (a ++ p ++ b) p = Some (length a) ->
  indexOf (a ++ block ++ b) p = None ->
  let once := updateCallout job block (mkSt (a ++ p ++ b) tr) in
  let twice := updateCallout job block (snd once) in
  doc_of once = a ++ block ++ b
  /\ doc_of twice = doc_of once
  /\ trace_of twice = trace_of once ++ notFoundEvents job.
Proof.
  intros p Hfound Hgone once twice.
  assert (Honce : doc_of once = a ++ block ++ b)
    by (apply updateCallout_at; exact Hfound).
  unfold doc_of in Honce.
  assert (Htwice : twice = (tt, mkSt (doc (snd once))
                                  (trace (snd once) ++ notFoundEvents job))).
  { apply updateCallout_not_found. rewrite Honce. exact Hgone. }
  unfold doc_of, trace_of. rewrite Htwice. auto.
Qed.

Lemma splice_twice_updates_once_witness :
  let block := finalBlock (lit "hi") (lit "![[a.mp3]]") in
  let once := updateCallout sampleJob block
                (mkSt (lit "x" ++ jobPlaceholder sampleJob ++ lit "y") []) in
  let twice := updateCallout sampleJob block (snd once) in
  doc_of once = lit "x" ++ block ++ lit "y"
  /\ doc_of twice = doc_of once
  /\ trace_of twice = trace_of once ++ notFoundEvents sampleJob.
Proof.
  apply (splice_twice_updates_once sampleJob
           (finalBlock (lit "hi") (lit "![[a.mp3]]")) (lit "x") (lit "y") []);
    vm_compute; reflexivity.
Defined.

(** C4 as stated fails: in the document the command itself produces for
    [![[a.mp3]] ![[a.mp3]]], the placeholder text stands twice, and the
    second application of the same splice changes the document again. *)
Lemma splice_twice_changes_twice :
  let st1 := snd (afterPlaceholders twiceDoc) in
  let job := hd sampleJob (fst (afterPlaceholders twiceDoc)) in
  let block := finalBlock (lit "hi") (originalLink job) in
  let once := updateCallout job block st1 in
  let twice := updateCallout job block (snd once) in
  doc_of once <> doc st1
  /\ doc_of twice <> doc_of once
  /\ doc_of twice = block ++ lit " " ++ block.
Proof.
  cbv zeta. split; [text_neq|]. split; [text_neq|].
  vm_compute. reflexivity.
Qed.

(** Two placeholders standing one after the other, each found first at
    its place, the result of the earlier one not bringing the later
    placeholder forward: the two splices commute. *)
Lemma adjacent_splices_commute (j1 j2 : Job) (r1 r2 a b c : text) (tr : list Event) :
  let p1 := jobPlaceholder j1 in
  let p2 := jobPlaceholder j2 in
  let st := mkSt (a ++ p1 ++ b ++ p2 ++ c) tr in
  indexOf (a ++ p1 ++ b ++ p2 ++ c) p1 = Some (length a) ->
  indexOf (a ++ p1 ++ b ++ p2 ++ c) p2 = Some (length (a ++ p1 ++ b)) ->
  indexOf (a ++ r1 ++ b ++ p2 ++ c) p2 = Some (length (a ++ r1 ++ b)) ->
  doc_of (updateCallout j2 r2 (snd (updateCallout j1 r1 st)))
  = a ++ r1 ++ b ++ r2 ++ c
  /\ doc_of (updateCallout j1 r1 (snd (updateCallout j2 r2 st)))
     = a ++ r1 ++ b ++ r2 ++ c.
Proof.
  intros p1 p2 st H1 H2 H3.
  assert (E12 : forall x y z w : text, x ++ y ++ z ++ w = (x ++ y ++ z) ++ w)
    by (intros; rewrite <- !app_assoc; reflexivity).
  split.
  - assert (D1 : doc_of (updateCallout j1 r1 st) = a ++ r1 ++ b ++ p2 ++ c)
      by (apply (updateCallout_at j1 r1 a (b ++ p2 ++ c) tr); exact H1).
    destruct (updateCallout j1 r1 st) as [u [d1 t1]]. unfold doc_of in D1.
    cbn [snd doc] in *. subst d1.
    rewrite E12 in H3 |- *. rewrite (E12 a r1 b (r2 ++ c)).
    apply (updateCallout_at j2 r2 (a ++ r1 ++ b) c t1). exact H3.
  - assert (D2 : doc_of (updateCallout j2 r2 st) = a ++ p1 ++ b ++ r2 ++ c).
    { unfold st. rewrite E12 in H2 |- *. rewrite (E12 a p1 b (r2 ++ c)).
      apply (updateCallout_at j2 r2 (a ++ p1 ++ b) c tr). exact H2. }
    destruct (updateCallout j2 r2 st) as [u [d2 t2]]. unfold doc_of in D2.
    cbn [snd doc] in *. subst d2.
    apply (updateCallout_at j1 r1 a (b ++ r2 ++ c) t2).
    apply (indexOf_tail_irrelevant a p1 (b ++ p2 ++ c)). exact H1.
Qed.


(** *** A run on a document with a single, resolved link *)

Lemma settleOrder_single {A} (sched : list nat) (x : A) :
  settleOrder sched [x] = [x].
Proof.
  unfold settleOrder. cbn [length completionOrder].
  rewrite Nat.mod_1_r. reflexivity.
Qed.

Lemma single_link_run (h : Host) (sched : list nat) (this : Plugin)
    (content : text) (tr : list Event) (sourcePath file : text)
    (m : RegExpMatch) :
  ready this -> activeView h = Some (Some sourcePath) ->
  matchAll content = [m] ->
  getFirstLinkpathDest h (m1 m) sourcePath = Some file ->
  let p := placeholderBlock (provider (settings this)) (m1 m) (m0 m) in
  let job := mkJob (getFullPath h file) (offsetToPosIn content (index m)) p
                   (m0 m) (m1 m) in
  let st1 :=
    mkSt (firstn (index m) content ++ p ++ skipn (matchEnd m) content)
         (tr ++ [Notice (foundNotice this 1);
                 ReplaceRange p (offsetToPosIn content (index m))
                   (offsetToPosIn content (matchEnd m));
                 Transcribe (provider (settings this)) (getFullPath h file)]) in
  transcribeAudioInNote h sched this (mkSt content tr)
  = newNotice (lit "All transcriptions complete!")
      (snd (settle (job, callProvider h this (getFullPath h file)) st1)).
Proof.
  intros Hready Hview Hms Hfile p job st1.
  assert (Hend : matchEnd m <= length content).
  { pose proof (matchAll_placed content) as Hp. rewrite Hms in Hp.
    destruct Hp as [_ Hp]. exact Hp. }
  rewrite (transcribeAudioInNote_run h sched this (mkSt content tr)
             (Some sourcePath) Hready Hview)
    by (cbn [doc]; rewrite Hms; discriminate).
  cbv zeta. cbn [doc]. rewrite Hms. cbn [length].
  unfold createPlaceholders. cbn [rev app]. rewrite forEach_cons.
  cbn [forEach ret fst snd newNotice emit].
  rewrite (processMatch_resolved h _ (Some sourcePath) [] m _ sourcePath file
             eq_refl Hfile) by exact Hend.
  cbn [fst snd doc trace app].
  unfold runJobs, bind. rewrite mapM_launch. cbn [map doc trace].
  rewrite settleOrder_single, forEach_cons. cbn [forEach ret fst snd].
  fold p. fold job. rewrite <- !app_assoc. reflexivity.
Qed.

(** ** End-to-end scenarios (C5, C6) *)

(** C5.  For the document [Intro\n![[clip.mp3]]\nOutro], with
    [clip.mp3] resolving to a file for which the selected provider's
    client returns the transcript [hello world], the document after the
    command is
    [Intro\n> [!tip] Audio Note\n> hello world\n> ![[clip.mp3]]\n\nOutro]. *)
Theorem success_end_to_end (h : Host) (sched : list nat) (this : Plugin)
    (tr : list Event) (sourcePath file : text) :
  ready this -> activeView h = Some (Some sourcePath) ->
  getFirstLinkpathDest h (lit "clip.mp3") sourcePath = Some file ->
  callProvider h this (getFullPath h file) = Ok (lit "hello world") ->
  doc_of (transcribeAudioInNote h sched this (mkSt clipDoc tr))
  = lit "Intro" ++ [NL] ++ lit "> [!tip] Audio Note" ++ [NL]
    ++ lit "> hello world" ++ [NL] ++ lit "> ![[clip.mp3]]" ++ [NL]
    ++ [NL] ++ lit "Outro".
Proof.
  intros Hready Hview Hfile Hcall.
  rewrite (single_link_run h sched this clipDoc tr sourcePath file
             (mkMatch clipLink (lit "clip.mp3") 6) Hready Hview eq_refl Hfile).
  cbv zeta. unfold doc_of. cbn [newNotice emit snd doc].
  rewrite Hcall. unfold settle. cbn [fst snd originalLink m0 m1 index].
  set (p := placeholderBlock _ _ _).
  set (job := mkJob _ _ p _ _).
  change (firstn 6 clipDoc) with (lit "Intro" ++ [NL]).
  change (skipn (matchEnd (mkMatch clipLink (lit "clip.mp3") 6)) clipDoc)
    with ([NL] ++ lit "Outro").
  change p with (jobPlaceholder job).
  match goal with
  | |- doc (snd (updateCallout job ?block (mkSt (?a ++ _ ++ ?b) ?t))) = _ =>
      pose proof (updateCallout_at job block a b t) as Hsplice
  end.
  unfold doc_of in Hsplice. rewrite Hsplice.
  - reflexivity.
  - unfold job, p. cbn [jobPlaceholder].
    destruct (provider (settings this)); vm_compute; reflexivity.
Qed.

Lemma success_end_to_end_witness :
  doc_of (transcribeAudioInNote (vaultHost (fun _ => Ok (lit "hello world"))) [3]
            configured (open clipDoc))
  = lit "Intro" ++ [NL] ++ lit "> [!tip] Audio Note" ++ [NL]
    ++ lit "> hello world" ++ [NL] ++ lit "> ![[clip.mp3]]" ++ [NL]
    ++ [NL] ++ lit "Outro".
Proof.
  apply (success_end_to_end (vaultHost (fun _ => Ok (lit "hello world"))) [3]
           configured [] (lit "Notes/day.md") (lit "Audio/clip.mp3")).
  - cbn. discriminate.
  - reflexivity.
  - reflexivity.
  - vm_compute. reflexivity.
Defined.

(** The Gemini-only revision reaches the same document. *)
Lemma geminiOnly_success_end_to_end :
  doc_of (GeminiOnly.transcribeAudioInNote
            (vaultHost (fun _ => Ok (lit "hello world"))) []
            configuredGeminiOnly (open clipDoc))
  = lit "Intro" ++ [NL] ++ lit "> [!tip] Audio Note" ++ [NL]
    ++ lit "> hello world" ++ [NL] ++ lit "> ![[clip.mp3]]" ++ [NL]
    ++ [NL] ++ lit "Outro".
Proof. vm_compute. reflexivity. Qed.

(** In the revision with provider selection the failure callout carries
    the message of the error: for every message thrown by the provider
    call, the document ends as
    [Intro\n> [!warning] Transcription Failed\n> message\n> ![[clip.mp3]]\n\nOutro]. *)
Lemma failure_end_to_end (h : Host) (sched : list nat) (this : Plugin)
    (tr : list Event) (sourcePath file message : text) :
  ready this -> activeView h = Some (Some sourcePath) ->
  getFirstLinkpathDest h (lit "clip.mp3") sourcePath = Some file ->
  callProvider h this (getFullPath h file) = Throw message ->
  doc_of (transcribeAudioInNote h sched this (mkSt clipDoc tr))
  = lit "Intro" ++ [NL] ++ errorBlock message clipLink ++ [NL] ++ lit "Outro".
Proof.
  intros Hready Hview Hfile Hcall.
  rewrite (single_link_run h sched this clipDoc tr sourcePath file
             (mkMatch clipLink (lit "clip.mp3") 6) Hready Hview eq_refl Hfile).
  cbv zeta. unfold doc_of. cbn [newNotice emit snd doc].
  rewrite Hcall. unfold settle, bind.
  cbn [fst snd originalLink fileName m0 m1 index consoleError emit doc trace].
  set (p := placeholderBlock _ _ _).
  set (job := mkJob _ _ p _ _).
  change (firstn 6 clipDoc) with (lit "Intro" ++ [NL]).
  change (skipn (matchEnd (mkMatch clipLink (lit "clip.mp3") 6)) clipDoc)
    with ([NL] ++ lit "Outro").
  change p with (jobPlaceholder job).
  match goal with
  | |- doc (snd (updateCallout job ?block (mkSt (?a ++ _ ++ ?b) ?t))) = _ =>
      pose proof (updateCallout_at job block a b t) as Hsplice
  end.
  unfold doc_of in Hsplice. rewrite Hsplice.
  - rewrite <- !app_assoc. reflexivity.
  - unfold job, p. cbn [jobPlaceholder].
    destruct (provider (settings this)); vm_compute; reflexivity.
Qed.

Example failure_end_to_end_rate_limited :
  doc_of (transcribeAudioInNote (vaultHost rateLimited) [] configured
            (open clipDoc))
  = lit "Intro" ++ [NL] ++ lit "> [!warning] Transcription Failed" ++ [NL]
    ++ lit "> rate limited" ++ [NL] ++ lit "> ![[clip.mp3]]" ++ [NL]
    ++ [NL] ++ lit "Outro".
Proof.
  unfold open.
  rewrite (failure_end_to_end (vaultHost rateLimited) [] configured []
             (lit "Notes/day.md") (lit "Audio/clip.mp3") (lit "rate limited")).
  - reflexivity.
  - cbn. discriminate.
  - reflexivity.
  - reflexivity.
  - vm_compute. reflexivity.
Qed.

(** C6 on the Gemini-only revision ([src/main.ts]): the provider call
    fails with the message [rate limited]; the callout written holds the
    fixed line [Check console for details.] and the message appears
    nowhere in the document. *)
Theorem geminiOnly_failure_callout_is_fixed :
  let final := doc_of (GeminiOnly.transcribeAudioInNote (vaultHost rateLimited) []
                         configuredGeminiOnly (open clipDoc)) in
  final = lit "Intro" ++ [NL] ++ lit "> [!warning] Transcription Failed" ++ [NL]
          ++ lit "> Check console for details." ++ [NL]
          ++ lit "> ![[clip.mp3]]" ++ [NL] ++ [NL] ++ lit "Outro"
  /\ includes final (errorBlock (lit "rate limited") clipLink) = false
  /\ includes final (lit "rate limited") = false.
Proof. vm_compute. auto. Qed.

(** *** Out-of-order completion on a run (C9 as stated) *)

(** C9 as stated fails.  After step 1 on [![[a.mp3]] ![[b.mp3]]] the
    two jobs' placeholders are distinct and both in the document; yet the
    final document depends on which call settles first.  When the job of
    [a.mp3] settles first, the result of [b.mp3] lands inside the block
    of [a.mp3] and the placeholder of [b.mp3] stays. *)
Lemma completion_order_matters :
  let jobs := fst (afterPlaceholders pairDoc) in
  let st1 := snd (afterPlaceholders pairDoc) in
  let pa := jobPlaceholder sampleJob in
  let pb := jobPlaceholder otherJob in
  let bFirst := doc_of (transcribeAudioInNote (vaultHost echoAnswer) []
                          configured (open pairDoc)) in
  let aFirst := doc_of (transcribeAudioInNote (vaultHost echoAnswer) [1]
                          configured (open pairDoc)) in
  map jobPlaceholder jobs = [pb; pa]
  /\ pa <> pb
  /\ includes (doc st1) pa = true /\ includes (doc st1) pb = true
  /\ bFirst <> aFirst
  /\ bFirst = finalBlock echoTranscript (lit "![[a.mp3]]") ++ lit " "
              ++ finalBlock (lit "two") (lit "![[b.mp3]]")
  /\ aFirst = finalBlock (lit "two") (lit "![[b.mp3]]")
              ++ quoted (lit "![[a.mp3]]") ++ lit " " ++ pb.
Proof.
  cbv zeta. split; [vm_compute; reflexivity|]. split; [text_neq|].
  split; [vm_compute; reflexivity|]. split; [vm_compute; reflexivity|].
  split; [text_neq|]. split; vm_compute; reflexivity.
Qed.

(** ** Unresolved links (C3) *)

Lemma placed_split (lo hi : nat) (l1 l2 : list RegExpMatch) (m : RegExpMatch) :
  placed lo hi (l1 ++ m :: l2) ->
  lo <= index m /\ placed (matchEnd m) hi l2.
Proof.
  revert lo; induction l1 as [|x l1 IH]; intros lo; cbn [app placed].
  - auto.
  - intros [Hx H]. apply IH in H as [H1 H2]. split; [|exact H2].
    unfold matchEnd in H1. lia.
Qed.

(** When the turn of [m] comes, the document still holds the original
    text up to the end of [m]. *)
Lemma before_turn (h : Host) (p : text -> text -> text) (viewFile : option text)
    (content : text) (st0 : St) (jobs : list Job)
    (before after : list RegExpMatch) (m : RegExpMatch) :
  doc st0 = content ->
  rev (matchAll content) = before ++ m :: after ->
  let r := forEach (processMatch h p viewFile) before jobs st0 in
  firstn (matchEnd m) (doc (snd r)) = firstn (matchEnd m) content
  /\ matchEnd m <= length (doc (snd r)).
Proof.
  intros Hdoc Hrev r.
  assert (Hms : matchAll content = rev after ++ m :: rev before).
  { rewrite <- (rev_involutive (matchAll content)), Hrev, rev_app_distr.
    cbn [rev]. rewrite <- app_assoc. reflexivity. }
  pose proof (matchAll_placed content) as Hpl. rewrite Hms in Hpl.
  apply placed_split in Hpl as [_ Hpl]. rewrite <- Hdoc in Hpl.
  pose proof (forEach_prefix h p viewFile (rev before) (matchEnd m) jobs st0 Hpl)
    as H.
  cbv zeta in H. rewrite rev_involutive in H. fold r in H.
  rewrite Hdoc in H. exact H.
Qed.

(** ** Order of the placeholder insertions (C2) *)

Lemma grows_ret {A} (a : A) : grows (ret a).
Proof. intros st; exists []. symmetry; apply app_nil_r. Qed.

Lemma grows_bind {A B} (m : M A) (k : A -> M B) :
  grows m -> (forall a, grows (k a)) -> grows (bind m k).
Proof.
  intros Hm Hk st. unfold bind. destruct (Hm st) as [e1 H1].
  destruct (m st) as [a st']. destruct (Hk a st') as [e2 H2].
  exists (e1 ++ e2). rewrite H2. cbn [snd] in H1. rewrite H1.
  symmetry; apply app_assoc.
Qed.

Lemma grows_read {A} (f : St -> A) : grows (fun st => (f st, st)).
Proof. intros st; exists []. symmetry; apply app_nil_r. Qed.

Lemma grows_replaceRange (r : text) (a b : EditorPosition) :
  grows (replaceRange r a b).
Proof. intros st; eexists; reflexivity. Qed.

Lemma grows_emit (e : Event) : grows (emit e).
Proof. intros st; eexists; reflexivity. Qed.

Lemma grows_forEach {A B} (f : B -> A -> M B) (l : list A) :
  (forall acc a, grows (f acc a)) -> forall acc, grows (forEach f l acc).
Proof.
  intros Hf. induction l as [|a l IH]; intros acc; simpl.
  - apply grows_ret.
  - apply grows_bind; [apply Hf | exact IH].
Qed.

Ltac grows_step :=
  repeat first
    [ apply grows_bind; [|intros ?]
    | apply grows_ret
    | apply grows_replaceRange
    | apply grows_emit
    | apply (grows_read (fun st => offsetToPosIn (doc st) _))
    | apply (grows_read (fun st => posToOffsetIn (doc st) _))
    | apply (grows_read doc) ].

Lemma grows_resolveMatch h p viewFile jobs m pos :
  grows (resolveMatch h p viewFile jobs m pos).
Proof.
  unfold resolveMatch, overwritePlaceholder, newNotice.
  destruct viewFile as [src|];
    [destruct (getFirstLinkpathDest h (m1 m) src)|];
    unfold offsetToPos, posToOffset; grows_step.
Qed.

Lemma grows_processMatch h p viewFile jobs m :
  grows (processMatch h p viewFile jobs m).
Proof.
  unfold processMatch, insertPlaceholder, offsetToPos.
  grows_step. apply grows_resolveMatch.
Qed.

Lemma processMatch_eq h p viewFile jobs m st :
  processMatch h p viewFile jobs m st
  = resolveMatch h p viewFile jobs m (fst (insertPlaceholder p m st))
      (snd (insertPlaceholder p m st)).
Proof.
  unfold processMatch, bind. destruct (insertPlaceholder p m st); reflexivity.
Qed.

Lemma matchOf_nonempty (s : text) (pos : nat) (m : RegExpMatch) :
  matchOf s pos m -> index m < matchEnd m.
Proof.
  intros (H0 & _). unfold matchEnd. rewrite H0, length_app. simpl. lia.
Qed.

(** C2.  For two links of a document, [left] at offset [P1] before
    [right] at offset [P2], and a placeholder wording of any length: the
    loop first handles the matches right of [right], then inserts the
    placeholder of [right], then handles the matches in between, and
    only then inserts the placeholder of [left]; in the document right
    after that insertion the placeholder of [left] begins at offset [P1],
    after the original text before it. *)
Theorem placeholders_right_to_left (h : Host) (p : text -> text -> text)
    (viewFile : option text) (content : text) (tr : list Event)
    (l mid r : list RegExpMatch) (left right : RegExpMatch) :
  matchAll content = l ++ left :: mid ++ right :: r ->
  let loop := processMatch h p viewFile in
  let s2 := forEach loop (rev r) [] (mkSt content tr) in
  let i2 := insertPlaceholder p right (snd s2) in
  let s2' := resolveMatch h p viewFile (fst s2) right (fst i2) (snd i2) in
  let s1 := forEach loop (rev mid) (fst s2') (snd s2') in
  let i1 := insertPlaceholder p left (snd s1) in
  let s1' := resolveMatch h p viewFile (fst s1) left (fst i1) (snd i1) in
  index left < index right
  /\ createPlaceholders h p viewFile (matchAll content) (mkSt content tr)
     = forEach loop (rev l) (fst s1') (snd s1')
  /\ doc (snd i2)
     = firstn (index right) content ++ p (m1 right) (m0 right)
       ++ skipn (matchEnd right) (doc (snd s2))
  /\ doc (snd i1)
     = firstn (index left) content ++ p (m1 left) (m0 left)
       ++ skipn (matchEnd left) (doc (snd s1))
  /\ length (firstn (index left) content) = index left
  /\ exists t2 t1 from2 to2 from1 to1,
       trace (snd i1)
       = tr ++ t2 ++ ReplaceRange (p (m1 right) (m0 right)) from2 to2
            :: t1 ++ [ReplaceRange (p (m1 left) (m0 left)) from1 to1].
Proof.
  intros Hms loop s2 i2 s2' s1 i1 s1'.
  assert (Hrev : rev (matchAll content)
                 = rev r ++ right :: rev mid ++ left :: rev l).
  { rewrite Hms, rev_app_distr. cbn [rev]. rewrite rev_app_distr. cbn [rev].
    rewrite <- !app_assoc. reflexivity. }
  assert (Hrev' : rev (matchAll content)
                  = (rev r ++ right :: rev mid) ++ left :: rev l)
    by (rewrite Hrev, <- app_assoc; reflexivity).
  (* the loop, unrolled around the two matches *)
  assert (Hs2' : loop (fst s2) right (snd s2) = s2')
    by (unfold loop; rewrite processMatch_eq; reflexivity).
  assert (Hs1 : forEach loop (rev r ++ right :: rev mid) [] (mkSt content tr) = s1).
  { rewrite forEach_app. fold s2. rewrite forEach_cons, Hs2'. reflexivity. }
  assert (Hs1' : loop (fst s1) left (snd s1) = s1')
    by (unfold loop; rewrite processMatch_eq; reflexivity).
  (* the documents when the two turns come *)
  destruct (before_turn h p viewFile content (mkSt content tr) [] (rev r)
              (rev mid ++ left :: rev l) right eq_refl Hrev) as [Hpre2 Hlen2].
  fold loop in Hpre2, Hlen2. fold s2 in Hpre2, Hlen2.
  destruct (before_turn h p viewFile content (mkSt content tr) []
              (rev r ++ right :: rev mid) (rev l) left eq_refl Hrev')
    as [Hpre1 Hlen1].
  fold loop in Hpre1, Hlen1. rewrite Hs1 in Hpre1, Hlen1.
  assert (Hcut : forall m d, firstn (matchEnd m) d = firstn (matchEnd m) content ->
                             firstn (index m) d = firstn (index m) content).
  { intros m d H. apply (f_equal (firstn (index m))) in H.
    rewrite !firstn_firstn in H.
    replace (Nat.min (index m) (matchEnd m)) with (index m) in H
      by (unfold matchEnd; lia).
    exact H. }
  pose proof (insertPlaceholder_spec p right (snd s2) Hlen2) as Hi2.
  pose proof (insertPlaceholder_spec p left (snd s1) Hlen1) as Hi1.
  fold i2 in Hi2. fold i1 in Hi1.
  (* the order of the two links *)
  pose proof (matchAll_placed content) as Hpl. rewrite Hms in Hpl.
  apply placed_split in Hpl as [_ Hpl]. apply placed_split in Hpl as [Hlr _].
  assert (Hin : In left (matchAll content))
    by (rewrite Hms; apply in_or_app; right; left; reflexivity).
  pose proof (matchAll_matchOf content) as Hall.
  rewrite Forall_forall in Hall. apply Hall, matchOf_nonempty in Hin.
  split; [lia|]. split; [|split; [|split; [|split]]].
  - unfold createPlaceholders. rewrite Hrev', forEach_app. fold loop.
    rewrite Hs1, forEach_cons, Hs1'. reflexivity.
  - rewrite Hi2. cbn [snd doc]. rewrite (Hcut right _ Hpre2). reflexivity.
  - rewrite Hi1. cbn [snd doc]. rewrite (Hcut left _ Hpre1). reflexivity.
  - rewrite length_firstn. unfold matchEnd in *.
    assert (matchEnd left <= length content).
    { pose proof (matchAll_placed content) as Hpl'. rewrite Hms in Hpl'.
      apply placed_split in Hpl' as [_ Hpl'].
      apply placed_bounds in Hpl'. exact Hpl'. }
    unfold matchEnd in *. lia.
  - destruct (grows_forEach loop (rev r)
                (fun acc a => grows_processMatch h p viewFile acc a) []
                (mkSt content tr)) as [t2 Ht2].
    fold s2 in Ht2. cbn [trace] in Ht2.
    destruct (grows_resolveMatch h p viewFile (fst s2) right (fst i2) (snd i2))
      as [ta Hta].
    fold s2' in Hta.
    destruct (grows_forEach loop (rev mid)
                (fun acc a => grows_processMatch h p viewFile acc a) (fst s2')
                (snd s2')) as [tb Htb].
    fold s1 in Htb.
    exists t2, (ta ++ tb).
    exists (offsetToPosIn (doc (snd s2)) (index right)),
           (offsetToPosIn (doc (snd s2)) (matchEnd right)),
           (offsetToPosIn (doc (snd s1)) (index left)),
           (offsetToPosIn (doc (snd s1)) (matchEnd left)).
    rewrite Hi1. cbn [snd trace]. rewrite Htb, Hta, Hi2. cbn [snd trace].
    rewrite Ht2, <- !app_assoc. reflexivity.
Qed.

(** ** Jobs, placeholders and splices (C8) *)

Lemma split_at_newline (a a' b b' : text) :
  existsb isNL a = false -> existsb isNL a' = false ->
  a ++ NL :: b = a' ++ NL :: b' -> a = a' /\ b = b'.
Proof.
  revert a'; induction a as [|x a IH]; intros [|y a'] Ha Ha' E;
    cbn [app existsb] in *.
  - injection E as E. auto.
  - injection E as E1 E2. subst y. discriminate Ha'.
  - injection E as E1 E2. subst x. discriminate Ha.
  - injection E as E1 E2. subst y.
    apply orb_false_iff in Ha as [_ Ha]. apply orb_false_iff in Ha' as [_ Ha'].
    destruct (IH a' Ha Ha' E2) as [-> ->]. auto.
Qed.

Lemma noLineBreak_noNL (s : text) :
  noLineBreak s = true -> existsb isNL s = false.
Proof.
  induction s as [|c s IH]; cbn [noLineBreak forallb existsb]; [reflexivity|].
  intros H. apply andb_true_iff in H as [Hc Hs].
  rewrite (IH Hs), orb_false_r.
  unfold isLineTerminator in Hc. unfold isNL, NL.
  destruct (cu_eqb c 10%N); [discriminate|reflexivity].
Qed.

Lemma existsb_app_false {A} (f : A -> bool) (l1 l2 : list A) :
  existsb f l1 = false -> existsb f l2 = false -> existsb f (l1 ++ l2) = false.
Proof. intros H1 H2. rewrite existsb_app, H1, H2. reflexivity. Qed.

(** The placeholder determines the file name and the link it was built
    from. *)
Lemma placeholderBlock_inj (p : Provider) (f f' l l' : text) :
  noLineBreak f = true -> noLineBreak f' = true ->
  placeholderBlock p f l = placeholderBlock p f' l' -> f = f' /\ l = l'.
Proof.
  intros Hf Hf' E. unfold placeholderBlock, quoted in E.
  apply app_inv_head in E.
  set (w := lit " with " ++ providerName p ++ lit "...") in *.
  assert (Hw : existsb isNL w = false) by (destruct p; reflexivity).
  assert (Hshape : forall g k : text,
             (lit "> " ++ (hourglass :: lit " Transcribing " ++ g ++ w) ++ [NL])
             ++ lit "> " ++ k ++ [NL]
             = (lit "> " ++ hourglass :: lit " Transcribing ")
               ++ (g ++ w) ++ NL :: lit "> " ++ k ++ [NL]).
  { intros g k. cbn [lit map list_ascii_of_string app].
    rewrite <- !app_assoc. reflexivity. }
  rewrite !Hshape in E. apply app_inv_head in E.
  apply split_at_newline in E as [E1 E2];
    try (apply existsb_app_false; [apply noLineBreak_noNL; assumption|exact Hw]).
  apply app_inv_tail in E1. apply app_inv_head in E2.
  apply app_inv_tail in E2. auto.
Qed.

Lemma Forall2_In_right {A B} (R : A -> B -> Prop) (l : list A) (l' : list B) (y : B) :
  Forall2 R l l' -> In y l' -> exists x, In x l /\ R x y.
Proof.
  induction 1 as [|x y' l l' Hxy _ IH]; intros Hin; [contradiction|].
  destruct Hin as [->|Hin].
  - exists x. split; [left; reflexivity|exact Hxy].
  - destruct (IH Hin) as (x' & Hx' & HR). exists x'. split; [right|]; assumption.
Qed.

Lemma spliceOutcomes_app (t1 t2 : list Event) :
  spliceOutcomes (t1 ++ t2) = spliceOutcomes t1 ++ spliceOutcomes t2.
Proof. apply filter_app. Qed.

Lemma updateCallout_outcome (job : Job) (block : text) (st : St) :
  exists evs,
    trace (snd (updateCallout job block st)) = trace st ++ evs
    /\ length (spliceOutcomes evs) = 1.
Proof.
  destruct (indexOf (doc st) (jobPlaceholder job)) as [i|] eqn:E.
  - rewrite (updateCallout_found job block st i E). eexists; split; reflexivity.
  - rewrite (updateCallout_not_found job block st E).
    eexists; split; reflexivity.
Qed.

Lemma settle_outcome (jr : Job * Result text) (st : St) :
  exists evs,
    trace (snd (settle jr st)) = trace st ++ evs
    /\ length (spliceOutcomes evs) = 1.
Proof.
  unfold settle. destruct (snd jr) as [t|msg].
  - apply updateCallout_outcome.
  - unfold bind, consoleError, emit.
    match goal with
    | |- context [updateCallout ?j ?b ?s] =>
        destruct (updateCallout_outcome j b s) as (evs & E & L)
    end.
    cbn [trace] in E. eexists. split.
    + rewrite E, <- app_assoc. reflexivity.
    + cbn [app]. exact L.
Qed.

Lemma settle_all_outcomes (l : list (Job * Result text)) (st : St) :
  exists evs,
    trace (snd (forEach (fun _ jr => settle jr) l tt st)) = trace st ++ evs
    /\ length (spliceOutcomes evs) = length l.
Proof.
  revert st; induction l as [|jr l IH]; intros st.
  - exists []. split; [symmetry; apply app_nil_r|reflexivity].
  - rewrite forEach_cons.
    destruct (settle_outcome jr st) as (e1 & E1 & L1).
    destruct (settle jr st) as [[] st']. cbn [fst snd] in *.
    destruct (IH st') as (e2 & E2 & L2).
    exists (e1 ++ e2). split.
    + rewrite E2, E1, app_assoc. reflexivity.
    + rewrite spliceOutcomes_app, length_app, L1, L2. reflexivity.
Qed.

Section JobsOfARun.

Variable h : Host.
Variable sched : list nat.
Variable this : Plugin.

Lemma jobsOfRun_origin (viewFile : option text) (st : St) (j : Job) :
  In j (jobsOfRun h this viewFile st) ->
  exists m,
    matchOf (doc st) 0 m
    /\ jobPlaceholder j
       = placeholderBlock (provider (settings this)) (m1 m) (m0 m)
    /\ originalLink j = m0 m.
Proof.
  intros Hj.
  destruct (Forall2_In_right _ _ _ j
              (createPlaceholders_jobs h
                 (placeholderBlock (provider (settings this))) viewFile
                 (matchAll (doc st))
                 (snd (newNotice (foundNotice this
                         (length (matchAll (doc st)))) st)))
              Hj) as (m & Hm & Hp & Hl & _).
  exists m. split; [|auto].
  apply filter_In in Hm as [Hm _]. apply in_rev in Hm.
  pose proof (matchAll_matchOf (doc st)) as Hall.
  rewrite Forall_forall in Hall. apply Hall, Hm.
Qed.

Lemma runJobs_outcomes (jobs : list Job) (st : St) :
  exists evs,
    trace_of (runJobs h sched this jobs st)
    = trace st
      ++ map (fun j => Transcribe (provider (settings this)) (filePath j)) jobs
      ++ evs
    /\ length (spliceOutcomes evs) = length jobs.
Proof.
  unfold runJobs, bind, trace_of. rewrite mapM_launch.
  match goal with
  | |- context [forEach _ ?l tt ?s] =>
      destruct (settle_all_outcomes l s) as (evs & E & L)
  end.
  exists evs. split.
  - rewrite E. cbn [trace]. rewrite <- app_assoc. reflexivity.
  - rewrite L.
    rewrite (Permutation_length (settleOrder_perm sched _)).
    apply length_map.
Qed.

End JobsOfARun.

(** *** An instance of C2 on a concrete document *)

Lemma placeholders_right_to_left_witness :
  let content := lit "x ![[a.mp3]] y ![[b.mp3]] z" in
  let h := vaultHost (fun _ => Ok (lit "hi")) in
  let p := placeholderBlock gemini in
  let s2' := processMatch h p (Some (lit "Notes/day.md")) []
               (mkMatch (lit "![[b.mp3]]") (lit "b.mp3") 15) (open content) in
  2 < 15
  /\ doc (snd (insertPlaceholder p (mkMatch (lit "![[a.mp3]]") (lit "a.mp3") 2)
                 (snd s2')))
     = lit "x " ++ jobPlaceholder sampleJob ++ lit " y " ++ jobPlaceholder otherJob
       ++ lit " z".
Proof.
  destruct (placeholders_right_to_left (vaultHost (fun _ => Ok (lit "hi")))
              (placeholderBlock gemini) (Some (lit "Notes/day.md"))
              (lit "x ![[a.mp3]] y ![[b.mp3]] z") [] [] [] []
              (mkMatch (lit "![[a.mp3]]") (lit "a.mp3") 2)
              (mkMatch (lit "![[b.mp3]]") (lit "b.mp3") 15) eq_refl)
    as (Hlt & _ & _ & Hdoc & _).
  split; [exact Hlt|]. exact Hdoc.
Defined.

(** ** Placeholders never overlap *)

Lemma startsWith_header_line (s rest : text) :
  existsb isNL s = false ->
  startsWith tipHeader (s ++ NL :: rest) = true -> s = tipLine.
Proof.
  intros Hs H. apply startsWith_inv in H.
  change tipHeader with (tipLine ++ [NL]) in H.
  rewrite <- app_assoc in H. cbn [app] in H.
  apply split_at_newline in H as [H _]; [exact H|exact Hs|reflexivity].
Qed.

Lemma existsb_skipn_false {A} (f : A -> bool) (k : nat) (l : list A) :
  existsb f l = false -> existsb f (skipn k l) = false.
Proof.
  revert k; induction l as [|a l IH]; intros [|k] H; cbn [skipn]; auto.
  cbn [existsb] in H. apply orb_false_iff in H as [_ H]. apply IH, H.
Qed.

Lemma last_skipn (k : nat) (l : text) (d : cu) :
  k < length l -> last (skipn k l) d = last l d.
Proof.
  revert k; induction l as [|a l IH]; intros k Hk; [simpl in Hk; lia|].
  destruct k as [|k]; [reflexivity|].
  cbn [skipn]. rewrite IH by (simpl in Hk; lia).
  destruct l; [simpl in Hk; lia|reflexivity].
Qed.

(** The header line followed by a line break does not start inside a
    line that ends otherwise. *)
Lemma no_header_in_line (L rest : text) (k : nat) :
  existsb isNL L = false -> last L 0%N <> 101%N -> k <= length L ->
  startsWith tipHeader (skipn k (L ++ NL :: rest)) = false.
Proof.
  intros HL Hlast Hk.
  destruct (startsWith tipHeader (skipn k (L ++ NL :: rest))) eqn:E; [|reflexivity].
  exfalso. rewrite skipn_app in E.
  replace (k - length L) with 0 in E by lia. cbn [skipn] in E.
  apply startsWith_header_line in E; [|apply existsb_skipn_false, HL].
  assert (Hlen : k < length L).
  { apply (f_equal (@length cu)) in E. rewrite length_skipn in E.
    change (length tipLine) with 19 in E. lia. }
  apply Hlast. rewrite <- (last_skipn k L 0%N Hlen), E. reflexivity.
Qed.

Lemma skipn_past_line (L rest : text) (k : nat) :
  length L < k ->
  skipn k (L ++ NL :: rest) = skipn (k - length L - 1) rest.
Proof.
  intros Hk. rewrite skipn_app, skipn_all2 by lia. cbn [app].
  destruct (k - length L) as [|n] eqn:E; [lia|].
  cbn [skipn]. f_equal. lia.
Qed.

(** The lines of a placeholder. *)
Lemma shaped_lines (p : Provider) (q : text) :
  shaped p q ->
  exists A B,
    q = tipLine ++ NL :: A ++ NL :: B ++ [NL]
    /\ existsb isNL A = false /\ existsb isNL B = false
    /\ last A 0%N <> 101%N /\ last B 0%N <> 101%N.
Proof.
  intros (f & Hf & ->). apply noLineBreak_noNL in Hf.
  exists (lit "> " ++ hourglass :: lit " Transcribing " ++ f ++ lit " with "
          ++ providerName p ++ lit "..."),
         (lit "> " ++ opener ++ f ++ closer).
  split; [|split; [|split; [|split]]].
  - unfold placeholderBlock, quoted, tipHeader.
    rewrite <- !app_assoc. reflexivity.
  - change (lit "> " ++ hourglass :: lit " Transcribing " ++ f ++ lit " with "
            ++ providerName p ++ lit "...")
      with ((lit "> " ++ hourglass :: lit " Transcribing ") ++ f
            ++ lit " with " ++ providerName p ++ lit "...").
    rewrite !existsb_app, Hf. destruct p; reflexivity.
  - rewrite !existsb_app, Hf. reflexivity.
  - replace (lit "> " ++ hourglass :: lit " Transcribing " ++ f ++ lit " with "
             ++ providerName p ++ lit "...")
      with ((lit "> " ++ hourglass :: lit " Transcribing " ++ f ++ lit " with "
             ++ providerName p ++ lit "..") ++ [46%N]).
    + rewrite last_last. discriminate.
    + destruct p; simpl; rewrite <- app_assoc; reflexivity.
  - replace (lit "> " ++ opener ++ f ++ closer)
      with ((lit "> " ++ opener ++ f ++ [93%N]) ++ [93%N])
      by (simpl; rewrite <- app_assoc; reflexivity).
    rewrite last_last. discriminate.
Qed.

Lemma no_header_in_header (rest : text) (k : nat) :
  0 < k -> k <= length tipLine ->
  startsWith tipHeader (skipn k (tipLine ++ NL :: rest)) = false.
Proof.
  intros Hk0 Hk.
  destruct (startsWith tipHeader (skipn k (tipLine ++ NL :: rest))) eqn:E;
    [|reflexivity].
  exfalso. rewrite skipn_app in E.
  replace (k - length tipLine) with 0 in E by lia. cbn [skipn] in E.
  apply startsWith_header_line in E; [|apply existsb_skipn_false; reflexivity].
  apply (f_equal (@length cu)) in E. rewrite length_skipn in E. lia.
Qed.

(** Inside a placeholder, and across its end, the header line starts
    nowhere but at the placeholder's first character. *)
Lemma header_only_at_start (p : Provider) (q b : text) (k : nat) :
  shaped p q -> 0 < k -> k < length q ->
  startsWith tipHeader (skipn k (q ++ b)) = false.
Proof.
  intros Hq Hk0 Hk.
  destruct (shaped_lines p q Hq) as (A & B & -> & HA & HB & HlA & HlB).
  assert (E : (tipLine ++ NL :: A ++ NL :: B ++ [NL]) ++ b
              = tipLine ++ NL :: (A ++ NL :: (B ++ NL :: b))).
  { rewrite <- app_assoc. cbn [app]. rewrite <- app_assoc. cbn [app].
    rewrite <- app_assoc. reflexivity. }
  rewrite E. clear E.
  rewrite !length_app in Hk. cbn [length] in Hk.
  rewrite !length_app in Hk. cbn [length] in Hk.
  rewrite !length_app in Hk. cbn [length] in Hk.
  destruct (Nat.le_gt_cases k (length tipLine)) as [H1|H1].
  - apply no_header_in_header; assumption.
  - rewrite skipn_past_line by exact H1.
    destruct (Nat.le_gt_cases (k - length tipLine - 1) (length A)) as [H2|H2].
    + apply no_header_in_line; assumption.
    + rewrite skipn_past_line by exact H2.
      apply no_header_in_line; [assumption|assumption|lia].
Qed.

Lemma startsWith_app_l (u v s : text) :
  startsWith (u ++ v) s = true -> startsWith u s = true.
Proof.
  intros H. apply startsWith_inv in H. rewrite H, <- app_assoc.
  apply startsWith_app.
Qed.

Lemma shaped_header (p : Provider) (q s : text) :
  shaped p q -> startsWith q s = true -> startsWith tipHeader s = true.
Proof.
  intros (f & _ & ->) H. unfold placeholderBlock in H.
  apply startsWith_app_l in H. exact H.
Qed.

Lemma skipn_skipn_add (i k : nat) (s : text) :
  skipn (i + k) s = skipn k (skipn i s).
Proof.
  revert s; induction i as [|i IH]; intros s; [reflexivity|].
  destruct s as [|c s]; cbn [Nat.add skipn]; [destruct k; reflexivity|apply IH].
Qed.

(** Two placeholders standing in a text at different offsets do not
    overlap. *)
Lemma placeholders_disjoint (p : Provider) (q q' s : text) (i j : nat) :
  shaped p q -> shaped p q' ->
  startsWith q (skipn i s) = true -> startsWith q' (skipn j s) = true ->
  i < j -> i + length q <= j.
Proof.
  intros Hq Hq' Hi Hj Hlt.
  destruct (Nat.le_gt_cases (i + length q) j) as [H|H]; [exact H|exfalso].
  apply startsWith_inv in Hi.
  replace j with (i + (j - i)) in Hj by lia.
  rewrite skipn_skipn_add, Hi in Hj.
  apply (shaped_header p q' _ Hq') in Hj.
  rewrite (header_only_at_start p q _ (j - i) Hq) in Hj by lia.
  discriminate.
Qed.

Lemma placeholderBlock_app (p : Provider) (g k d : text) :
  placeholderBlock p g k ++ d
  = (tipHeader ++ lit "> " ++ hourglass :: lit " Transcribing ")
    ++ (g ++ lit " with " ++ providerName p ++ lit "...")
    ++ NL :: lit "> " ++ k ++ NL :: d.
Proof.
  unfold placeholderBlock, quoted. destruct p; simpl;
    repeat (rewrite <- app_assoc; simpl); reflexivity.
Qed.

Lemma placeholderBlock_prefix_inj (p : Provider) (f f' l l' c c' : text) :
  noLineBreak f = true -> noLineBreak f' = true ->
  placeholderBlock p f l ++ c = placeholderBlock p f' l' ++ c' -> f = f'.
Proof.
  intros Hf Hf' E. rewrite !placeholderBlock_app in E.
  apply app_inv_head in E.
  assert (Hw : existsb isNL (lit " with " ++ providerName p ++ lit "...") = false)
    by (destruct p; reflexivity).
  apply split_at_newline in E as [E1 _];
    try (apply existsb_app_false; [apply noLineBreak_noNL; assumption|exact Hw]).
  apply app_inv_tail in E1. exact E1.
Qed.

(** Two placeholders standing at the same offset are the same text. *)
Lemma placeholders_same_start (p : Provider) (q q' s : text) :
  shaped p q -> shaped p q' ->
  startsWith q s = true -> startsWith q' s = true -> q = q'.
Proof.
  intros (f & Hf & ->) (f' & Hf' & ->) H H'.
  apply startsWith_inv in H. apply startsWith_inv in H'.
  rewrite H in H' at 1.
  apply placeholderBlock_prefix_inj in H'; [|assumption|assumption].
  subst f'. reflexivity.
Qed.

(** *** Counting occurrences *)

Lemma occurrences_split (q a x : text) :
  occurrences q (a ++ x) = occurrencesIn q a x + occurrences q x.
Proof.
  induction a as [|c a IH]; [reflexivity|].
  cbn [app occurrences occurrencesIn]. rewrite IH.
  change (c :: a ++ x) with ((c :: a) ++ x). lia.
Qed.

Lemma occurrences_found (q s : text) :
  0 < occurrences q s -> exists i, indexOf s q = Some i.
Proof.
  induction s as [|c s IH]; intros H.
  - cbn [occurrences] in H. simpl indexOf.
    destruct (startsWith q []); [eauto|simpl in H; lia].
  - rewrite indexOf_cons. cbn [occurrences] in H.
    destruct (startsWith q (c :: s)); [eauto|].
    destruct (IH ltac:(simpl in H; lia)) as [i Hi]. rewrite Hi. simpl. eauto.
Qed.

Lemma occurrencesIn_le (q a x y : text) :
  (forall k, k < length a -> startsWith q (skipn k (a ++ x)) = true ->
             k + length q <= length a) ->
  occurrencesIn q a x <= occurrencesIn q a y.
Proof.
  induction a as [|c a IH]; intros H; [reflexivity|].
  cbn [occurrencesIn].
  assert (IH' : occurrencesIn q a x <= occurrencesIn q a y).
  { apply IH. intros k Hk Hs.
    specialize (H (S k) ltac:(simpl; lia) Hs). simpl in H. lia. }
  destruct (startsWith q ((c :: a) ++ x)) eqn:E; [|lia].
  specialize (H 0 ltac:(simpl; lia) E). cbn [Nat.add] in H.
  rewrite startsWith_within in E by exact H.
  rewrite startsWith_within by exact H. rewrite E. lia.
Qed.

Lemma occurrencesIn_none (q a x : text) :
  (forall k, k < length a -> startsWith q (skipn k (a ++ x)) = false) ->
  occurrencesIn q a x = 0.
Proof.
  induction a as [|c a IH]; intros H; [reflexivity|].
  cbn [occurrencesIn].
  pose proof (H 0 ltac:(simpl; lia)) as H0. cbn [skipn] in H0. rewrite H0.
  rewrite IH; [reflexivity|].
  intros k Hk. apply (H (S k)). simpl; lia.
Qed.

Lemma occurrencesIn_placeholder (p : Provider) (q P b : text) :
  shaped p q -> shaped p P ->
  occurrencesIn q P b <= (if text_eqb q P then 1 else 0).
Proof.
  intros Hq HP. destruct P as [|c P']; [simpl; lia|].
  cbn [occurrencesIn].
  assert (Hrest : occurrencesIn q P' b = 0).
  { apply occurrencesIn_none. intros k Hk.
    destruct (startsWith q (skipn k (P' ++ b))) eqn:E; [|reflexivity].
    apply (shaped_header p q _ Hq) in E.
    change (skipn k (P' ++ b)) with (skipn (S k) ((c :: P') ++ b)) in E.
    rewrite (header_only_at_start p (c :: P') b (S k) HP) in E;
      [discriminate|lia|simpl; lia]. }
  rewrite Hrest.
  destruct (startsWith q ((c :: P') ++ b)) eqn:E; [|lia].
  assert (Heq : q = c :: P').
  { apply (placeholders_same_start p q (c :: P') ((c :: P') ++ b)); auto.
    apply startsWith_app. }
  rewrite Heq. replace (text_eqb (c :: P') (c :: P')) with true; [lia|].
  symmetry. apply text_eqb_eq. reflexivity.
Qed.

(** Replacing the first occurrence of a placeholder removes at most that
    one occurrence of it, and none of any other placeholder. *)
Lemma occurrences_after_splice (p : Provider) (q P r s : text) (i : nat) :
  shaped p q -> shaped p P -> indexOf s P = Some i ->
  occurrences q s
  <= occurrences q (firstn i s ++ r ++ skipn (i + length P) s)
     + (if text_eqb q P then 1 else 0).
Proof.
  intros Hq HP Hi.
  pose proof (indexOf_bound _ _ _ Hi) as Hb.
  apply indexOf_Some_inv in Hi as [Hs _].
  set (a := firstn i s) in *. set (b := skipn (i + length P) s) in *.
  assert (La : length a = i) by (unfold a; rewrite length_firstn; lia).
  rewrite Hs.
  rewrite (occurrences_split q a (P ++ b)), (occurrences_split q P b).
  rewrite (occurrences_split q a (r ++ b)), (occurrences_split q r b).
  pose proof (occurrencesIn_placeholder p q P b Hq HP) as H1.
  assert (H2 : occurrencesIn q a (P ++ b) <= occurrencesIn q a (r ++ b)).
  { apply occurrencesIn_le. intros k Hk Hocc.
    rewrite La in *.
    apply (placeholders_disjoint p q P (a ++ P ++ b) k i Hq HP Hocc); [|lia].
    rewrite <- La. rewrite skipn_length_app. apply startsWith_app. }
  lia.
Qed.

(** *** Every job finds its placeholder *)

Lemma text_eqb_refl (a : text) : text_eqb a a = true.
Proof. apply text_eqb_eq. reflexivity. Qed.

Lemma text_eqb_sym (a b : text) : text_eqb a b = text_eqb b a.
Proof.
  destruct (text_eqb a b) eqn:E, (text_eqb b a) eqn:E'; try reflexivity.
  - apply text_eqb_eq in E. subst. rewrite text_eqb_refl in E'. discriminate.
  - apply text_eqb_eq in E'. subst. rewrite text_eqb_refl in E. discriminate.
Qed.

Lemma waiting_app (q : text) (l1 l2 : list Job) :
  waiting q (l1 ++ l2) = waiting q l1 + waiting q l2.
Proof. unfold waiting. rewrite filter_app, length_app. reflexivity. Qed.

Lemma waiting_perm (q : text) (l l' : list Job) :
  Permutation l l' -> waiting q l = waiting q l'.
Proof.
  unfold waiting. induction 1 as [|x l l' _ IH|x y l|l l' l'' _ IH1 _ IH2];
    cbn [filter].
  - reflexivity.
  - destruct (text_eqb _ _); cbn [length]; rewrite IH; reflexivity.
  - destruct (text_eqb (jobPlaceholder y) q), (text_eqb (jobPlaceholder x) q);
      reflexivity.
  - rewrite IH1. exact IH2.
Qed.

Lemma occurrences_suffix (q s : text) (k : nat) :
  occurrences q (skipn k s) <= occurrences q s.
Proof.
  revert k; induction s as [|c s IH]; intros [|k]; cbn [skipn]; try lia.
  specialize (IH k). cbn [occurrences]. lia.
Qed.

Lemma occurrences_head (q x : text) :
  q <> [] -> 1 + occurrences q x <= occurrences q (q ++ x).
Proof.
  intros Hq. rewrite occurrences_split.
  destruct q as [|c q]; [contradiction|].
  cbn [occurrencesIn]. rewrite startsWith_app. lia.
Qed.

Lemma shaped_nonempty (p : Provider) (q : text) : shaped p q -> q <> [].
Proof. intros (f & _ & ->). discriminate. Qed.

Lemma scanned_shaped (p : Provider) (m : RegExpMatch) :
  scanned m -> shaped p (placeholderBlock p (m1 m) (m0 m)).
Proof. intros [H0 Hn]. exists (m1 m). rewrite H0. auto. Qed.

Section Covered.

Variable h : Host.
Variable p : Provider.
Variable viewFile : option text.

(** The jobs of an iteration, by their placeholder texts. *)
Lemma processMatch_waiting (q : text) (jobs : list Job) (m : RegExpMatch) (st : St) :
  waiting q (fst (processMatch h (placeholderBlock p) viewFile jobs m st))
  = waiting q jobs
    + (if resolves h viewFile m
       then if text_eqb (placeholderBlock p (m1 m) (m0 m)) q then 1 else 0
       else 0).
Proof.
  unfold processMatch, bind.
  destruct (insertPlaceholder (placeholderBlock p) m st) as [pos st'].
  unfold resolveMatch, resolves.
  destruct viewFile as [src|].
  - destruct (getFirstLinkpathDest h (m1 m) src) as [file|].
    + cbn [ret fst]. rewrite waiting_app. unfold waiting at 2.
      cbn [filter jobPlaceholder].
      destruct (text_eqb _ q); reflexivity.
    + unfold bind. destruct (overwritePlaceholder _ _ _ _) as [u st2].
      destruct (newNotice _ _). cbn [ret fst]. lia.
  - unfold bind. destruct (overwritePlaceholder _ _ _ _) as [u st2].
    cbn [ret fst]. lia.
Qed.

Lemma blockFor_resolved (m : RegExpMatch) :
  resolves h viewFile m = true ->
  blockFor h (placeholderBlock p) viewFile m = placeholderBlock p (m1 m) (m0 m).
Proof.
  unfold resolves, blockFor. destruct viewFile as [src|]; [|discriminate].
  destruct (getFirstLinkpathDest h (m1 m) src); [reflexivity|discriminate].
Qed.

(** After the loop over [ms], rightmost first, the text from [lo] on
    holds an occurrence for every job created. *)
Lemma forEach_covered (ms : list RegExpMatch) (lo : nat) (jobs : list Job)
    (st : St) (q : text) :
  placed lo (length (doc st)) ms -> Forall scanned ms -> shaped p q ->
  let r := forEach (processMatch h (placeholderBlock p) viewFile) (rev ms) jobs st in
  waiting q (fst r) <= waiting q jobs + occurrences q (skipn lo (doc (snd r))).
Proof.
  revert lo jobs st; induction ms as [|m ms IH]; intros lo jobs st Hpl Hsc Hq.
  - cbn [rev forEach ret fst snd]. cbv zeta. cbn [fst]. lia.
  - destruct Hpl as [Hlo Hpl]. inversion Hsc as [|m' ms' Hm Hms]; subst.
    cbn [rev]. cbv zeta. rewrite forEach_app.
    specialize (IH (matchEnd m) jobs st Hpl Hms Hq). cbv zeta in IH.
    destruct (forEach_prefix h (placeholderBlock p) viewFile ms (matchEnd m)
                jobs st Hpl) as [_ Hlen].
    set (r := forEach _ (rev ms) jobs st) in *.
    rewrite forEach_cons. cbn [forEach ret fst snd].
    rewrite processMatch_waiting.
    pose proof (processMatch_doc h (placeholderBlock p) viewFile (fst r) m
                  (snd r) Hlen) as Hdoc.
    unfold doc_of in Hdoc. rewrite Hdoc.
    assert (Hidx : index m <= length (doc (snd r)))
      by (unfold matchEnd in Hlen; lia).
    set (d := doc (snd r)) in *.
    set (B := blockFor h (placeholderBlock p) viewFile m).
    assert (Htail : occurrences q (B ++ skipn (matchEnd m) d)
                    <= occurrences q (skipn lo (firstn (index m) d ++ B
                                                ++ skipn (matchEnd m) d))).
    { assert (E : B ++ skipn (matchEnd m) d
                  = skipn (index m - lo)
                      (skipn lo (firstn (index m) d ++ B ++ skipn (matchEnd m) d))).
      { rewrite <- skipn_skipn_add.
        replace (lo + (index m - lo)) with (index m) by lia.
        assert (La : length (firstn (index m) d) = index m)
          by (rewrite length_firstn; lia).
        pose proof (skipn_length_app (firstn (index m) d)
                      (B ++ skipn (matchEnd m) d)) as Hx.
        rewrite La in Hx. symmetry. exact Hx. }
      pose proof (occurrences_suffix q
                    (skipn lo (firstn (index m) d ++ B ++ skipn (matchEnd m) d))
                    (index m - lo)) as Hs.
      rewrite <- E in Hs. exact Hs. }
    destruct (resolves h viewFile m) eqn:Hres.
    + destruct (text_eqb (placeholderBlock p (m1 m) (m0 m)) q) eqn:Heq.
      * apply text_eqb_eq in Heq.
        assert (HB : B = q)
          by (unfold B; rewrite blockFor_resolved by exact Hres; exact Heq).
        rewrite HB in Htail |- *.
        pose proof (occurrences_head q (skipn (matchEnd m) d)
                      (shaped_nonempty p q Hq)).
        lia.
      * pose proof (occurrences_split q B (skipn (matchEnd m) d)). lia.
    + pose proof (occurrences_split q B (skipn (matchEnd m) d)). lia.
Qed.

End Covered.

Lemma settle_spliced (p : Provider) (jr : Job * Result text) (rest : list Job)
    (st : St) :
  shaped p (jobPlaceholder (fst jr)) ->
  covered p (doc st) (fst jr :: rest) ->
  covered p (doc (snd (settle jr st))) rest
  /\ exists evs block from to,
       trace (snd (settle jr st)) = trace st ++ evs
       /\ spliceOutcomes evs = [ReplaceRange block from to].
Proof.
  intros Hsh Hcov. set (P := jobPlaceholder (fst jr)) in *.
  assert (Hocc : 0 < occurrences P (doc st)).
  { specialize (Hcov P Hsh). unfold waiting in Hcov. cbn [filter] in Hcov.
    fold P in Hcov. rewrite text_eqb_refl in Hcov. cbn [length] in Hcov. lia. }
  destruct (occurrences_found P (doc st) Hocc) as [i Hi].
  assert (Hnext : forall block,
             covered p (firstn i (doc st) ++ block ++ skipn (i + length P) (doc st))
               rest).
  { intros block q Hq.
    pose proof (occurrences_after_splice p q P block (doc st) i Hq Hsh Hi) as H1.
    specialize (Hcov q Hq). unfold waiting in Hcov. cbn [filter] in Hcov.
    fold P in Hcov. rewrite (text_eqb_sym q P) in H1.
    unfold waiting. destruct (text_eqb P q); cbn [length] in Hcov; lia. }
  unfold settle. destruct (snd jr) as [t|msg].
  - rewrite (updateCallout_found _ _ st i Hi). cbn [snd doc trace]. split.
    + apply Hnext.
    + do 4 eexists. split; reflexivity.
  - unfold bind, consoleError, emit.
    match goal with
    | |- context [updateCallout ?j ?b ?s] =>
        rewrite (updateCallout_found j b s i Hi)
    end.
    cbn [snd doc trace]. split.
    + apply Hnext.
    + do 4 eexists. split; [rewrite <- app_assoc; reflexivity|reflexivity].
Qed.

Lemma settle_all_spliced (p : Provider) (order : list (Job * Result text))
    (st : St) :
  Forall (fun jr => shaped p (jobPlaceholder (fst jr))) order ->
  covered p (doc st) (map fst order) ->
  exists evs,
    trace (snd (forEach (fun _ jr => settle jr) order tt st)) = trace st ++ evs
    /\ length (spliceOutcomes evs) = length order
    /\ Forall (fun e => isReplaceRange e = true) (spliceOutcomes evs).
Proof.
  revert st; induction order as [|jr order IH]; intros st Hsh Hcov.
  - exists []. split; [symmetry; apply app_nil_r|]. split; [reflexivity|constructor].
  - inversion Hsh as [|x l Hjr Hrest]; subst.
    cbn [map] in Hcov.
    destruct (settle_spliced p jr (map fst order) st Hjr Hcov)
      as (Hcov' & e1 & block & from & to & E1 & O1).
    rewrite forEach_cons.
    destruct (settle jr st) as [[] st']. cbn [fst snd] in *.
    destruct (IH st' Hrest Hcov') as (e2 & E2 & L2 & F2).
    exists (e1 ++ e2). split; [|split].
    + rewrite E2, E1, app_assoc. reflexivity.
    + rewrite spliceOutcomes_app, length_app, O1, L2. reflexivity.
    + rewrite spliceOutcomes_app, O1. constructor; [reflexivity|exact F2].
Qed.

Section EveryJobSplices.

Variable h : Host.
Variable sched : list nat.
Variable this : Plugin.

Lemma jobsOfRun_shaped (viewFile : option text) (st : St) :
  Forall (fun j => shaped (provider (settings this)) (jobPlaceholder j))
    (jobsOfRun h this viewFile st).
Proof.
  apply Forall_forall. intros j Hj.
  destruct (jobsOfRun_origin h this viewFile st j Hj)
    as (m & (H0 & Hn & _) & Hp & _).
  rewrite Hp. apply scanned_shaped. split; assumption.
Qed.

Lemma jobsOfRun_covered (viewFile : option text) (st : St) :
  covered (provider (settings this))
    (doc (stateAfterPlaceholders h this viewFile st))
    (jobsOfRun h this viewFile st).
Proof.
  intros q Hq.
  assert (Hsc : Forall scanned (matchAll (doc st))).
  { eapply Forall_impl; [|apply matchAll_matchOf].
    intros m (H0 & Hn & _). split; assumption. }
  pose proof (forEach_covered h (provider (settings this)) viewFile
                (matchAll (doc st)) 0 []
                (snd (newNotice (foundNotice this (length (matchAll (doc st)))) st))
                q (matchAll_placed (doc st)) Hsc Hq) as H.
  cbv zeta in H. cbn [skipn] in H. exact H.
Qed.

Lemma runJobs_spliced (jobs : list Job) (st : St) :
  Forall (fun j => shaped (provider (settings this)) (jobPlaceholder j)) jobs ->
  covered (provider (settings this)) (doc st) jobs ->
  exists evs,
    trace_of (runJobs h sched this jobs st)
    = trace st
      ++ map (fun j => Transcribe (provider (settings this)) (filePath j)) jobs
      ++ evs
    /\ length (spliceOutcomes evs) = length jobs
    /\ Forall (fun e => isReplaceRange e = true) (spliceOutcomes evs).
Proof.
  intros Hsh Hcov. unfold runJobs, bind, trace_of. rewrite mapM_launch.
  set (running := map (fun j => (j, callProvider h this (filePath j))) jobs).
  assert (Hperm : Permutation (map fst (settleOrder sched running)) jobs).
  { eapply Permutation_trans;
      [apply Permutation_map, settleOrder_perm|].
    unfold running. rewrite map_map. cbn [fst]. rewrite map_id. reflexivity. }
  match goal with
  | |- context [forEach _ ?l tt ?s] =>
      destruct (settle_all_spliced (provider (settings this)) l s)
        as (evs & E & L & F)
  end.
  - apply Forall_forall. intros jr Hjr.
    rewrite Forall_forall in Hsh. apply Hsh.
    apply (Permutation_in _ Hperm). apply in_map. exact Hjr.
  - cbn [doc]. intros q Hq.
    rewrite (waiting_perm q _ _ Hperm). apply Hcov, Hq.
  - exists evs. split; [|split].
    + rewrite E. cbn [trace]. rewrite <- app_assoc. reflexivity.
    + rewrite L. rewrite <- (Permutation_length Hperm).
      symmetry. apply length_map.
    + exact F.
Qed.

End EveryJobSplices.

(** C8, as amended.  In every run past its guards: two jobs have the same
    placeholder text exactly when they have the same link text (so jobs
    made from repeated occurrences of one link share one placeholder
    text); the provider client is called exactly once per job; and every
    job performs exactly one splice, a replacement at the first occurrence
    of its placeholder text: step 2 leaves one replacement per job and no
    not-found notice. *)
Theorem jobs_calls_and_splices (h : Host) (sched : list nat) (this : Plugin)
    (st : St) (viewFile : option text) :
  ready this -> activeView h = Some viewFile ->
  let jobs := jobsOfRun h this viewFile st in
  let st1 := stateAfterPlaceholders h this viewFile st in
  (forall j j', In j jobs -> In j' jobs ->
     (jobPlaceholder j = jobPlaceholder j' <-> originalLink j = originalLink j'))
  /\ transcribeCalls (trace_of (transcribeAudioInNote h sched this st))
     = transcribeCalls (trace st) ++ map (callOf this) jobs
  /\ exists evs,
       trace_of (runJobs h sched this jobs st1)
       = trace st1
         ++ map (fun j => Transcribe (provider (settings this)) (filePath j)) jobs
         ++ evs
       /\ length (spliceOutcomes evs) = length jobs
       /\ Forall (fun e => isReplaceRange e = true) (spliceOutcomes evs).
Proof.
  intros Hready Hview jobs st1. split; [|split].
  - intros j j' Hj Hj'.
    destruct (jobsOfRun_origin h this viewFile st j Hj)
      as (m & (Hm0 & Hn & _) & Hp & Hl).
    destruct (jobsOfRun_origin h this viewFile st j' Hj')
      as (m' & (Hm0' & Hn' & _) & Hp' & Hl').
    rewrite Hp, Hp', Hl, Hl'. split.
    + intros E. apply placeholderBlock_inj in E as [_ E]; assumption.
    + intros E. rewrite E. f_equal.
      rewrite Hm0, Hm0' in E. apply app_inv_head in E.
      apply app_inv_tail in E. exact E.
  - apply transcribeAudioInNote_calls_ready; assumption.
  - apply runJobs_spliced.
    + apply jobsOfRun_shaped.
    + apply jobsOfRun_covered.
Qed.

Lemma jobs_calls_and_splices_witness :
  transcribeCalls (trace_of (transcribeAudioInNote
                               (vaultHost (fun _ => Ok (lit "hi"))) [1]
                               configured (open twiceDoc)))
  = [(gemini, lit "/vault/Audio/a.mp3"); (gemini, lit "/vault/Audio/a.mp3")].
Proof.
  destruct (jobs_calls_and_splices (vaultHost (fun _ => Ok (lit "hi"))) [1]
              configured (open twiceDoc) (Some (lit "Notes/day.md")))
    as (_ & H & _).
  - cbn. discriminate.
  - reflexivity.
  - exact H.
Defined.

(** C8 as stated fails: for [![[a.mp3]] ![[a.mp3]]] the run creates two
    jobs (one per occurrence, at different positions) with one and the
    same placeholder text, and the job of the second occurrence, which
    settles first under the schedule [[]], splices its result over the
    first occurrence's placeholder. *)
Lemma repeated_link_shares_placeholder :
  let jobs := fst (afterPlaceholders twiceDoc) in
  let st1 := snd (afterPlaceholders twiceDoc) in
  let pa := jobPlaceholder sampleJob in
  map index (matchAll twiceDoc) = [0; 11]
  /\ map startPos jobs = [mkPos 0 11; mkPos 0 0]
  /\ map jobPlaceholder jobs = [pa; pa]
  /\ doc st1 = pa ++ lit " " ++ pa
  /\ doc_of (updateCallout (hd sampleJob jobs)
               (finalBlock (lit "second") (lit "![[a.mp3]]")) st1)
     = finalBlock (lit "second") (lit "![[a.mp3]]") ++ lit " " ++ pa.
Proof. vm_compute. auto 10. Qed.

(** ** Out-of-order completion (C9) *)

Lemma replaceAt_at (a q b r : text) :
  replaceAt (a ++ q ++ b) (length a) (length q) r = a ++ r ++ b.
Proof.
  unfold replaceAt. rewrite firstn_length_app, skipn_past. reflexivity.
Qed.

Lemma indexOf_occurs (s q : text) (i : nat) :
  indexOf s q = Some i -> startsWith q (skipn i s) = true.
Proof.
  intros E. pose proof (indexOf_bound _ _ _ E) as B.
  apply indexOf_Some_inv in E as [S _].
  assert (L : length (firstn i s) = i) by (rewrite length_firstn; lia).
  pose proof (skipn_length_app (firstn i s) (q ++ skipn (i + length q) s)) as H.
  rewrite L, <- S in H. rewrite H. apply startsWith_app.
Qed.

(** Two different placeholders found in a text stand one after the other. *)
Lemma two_placeholders_layout (p : Provider) (p1 p2 s : text) (i1 i2 : nat) :
  shaped p p1 -> shaped p p2 ->
  indexOf s p1 = Some i1 -> indexOf s p2 = Some i2 -> i1 < i2 ->
  exists a b c,
    s = a ++ p1 ++ b ++ p2 ++ c
    /\ length a = i1 /\ length (a ++ p1 ++ b) = i2.
Proof.
  intros H1 H2 E1 E2 Hlt.
  pose proof (indexOf_bound _ _ _ E1) as B1.
  pose proof (indexOf_bound _ _ _ E2) as B2.
  pose proof (indexOf_occurs _ _ _ E1) as O1.
  pose proof (indexOf_occurs _ _ _ E2) as O2.
  apply indexOf_Some_inv in E1 as [S1 _]. apply indexOf_Some_inv in E2 as [S2 _].
  pose proof (placeholders_disjoint p p1 p2 s i1 i2 H1 H2 O1 O2 Hlt) as Hd.
  set (t := skipn (i1 + length p1) s) in *.
  set (k := i2 - (i1 + length p1)).
  assert (Ht : skipn i2 s = skipn k t).
  { unfold t, k. rewrite <- skipn_skipn_add. f_equal. lia. }
  rewrite Ht in O2. apply startsWith_inv in O2.
  exists (firstn i1 s), (firstn k t), (skipn (length p2) (skipn k t)).
  assert (La : length (firstn i1 s) = i1) by (rewrite length_firstn; lia).
  assert (Lt : length t = length s - (i1 + length p1))
    by (unfold t; apply length_skipn).
  split; [|split].
  - rewrite <- O2, firstn_skipn. exact S1.
  - exact La.
  - rewrite !length_app, La, length_firstn. unfold k. lia.
Qed.

(** C9, as amended.  For two jobs whose placeholder texts are distinct
    and both present in the document, provided the result spliced over
    the placeholder standing first does not bring an occurrence of the
    other placeholder before that placeholder's own place: splicing the
    two results in either order gives the same document, in which each
    placeholder is replaced by its own job's block and the rest is
    untouched. *)
Theorem splices_commute (p : Provider) (j1 j2 : Job) (r1 r2 : text) (st : St)
    (i1 i2 : nat) :
  let p1 := jobPlaceholder j1 in
  let p2 := jobPlaceholder j2 in
  shaped p p1 -> shaped p p2 -> p1 <> p2 ->
  indexOf (doc st) p1 = Some i1 -> indexOf (doc st) p2 = Some i2 ->
  (i1 < i2 ->
   indexOf (replaceAt (doc st) i1 (length p1) r1) p2
   = Some (i2 - length p1 + length r1)) ->
  (i2 < i1 ->
   indexOf (replaceAt (doc st) i2 (length p2) r2) p1
   = Some (i1 - length p2 + length r2)) ->
  doc_of (updateCallout j2 r2 (snd (updateCallout j1 r1 st)))
  = doc_of (updateCallout j1 r1 (snd (updateCallout j2 r2 st)))
  /\ doc_of (updateCallout j2 r2 (snd (updateCallout j1 r1 st)))
     = if i1 <? i2
       then replaceAt (replaceAt (doc st) i2 (length p2) r2) i1 (length p1) r1
       else replaceAt (replaceAt (doc st) i1 (length p1) r1) i2 (length p2) r2.
Proof.
  intros p1 p2 H1 H2 Hne E1 E2 K1 K2. destruct st as [d tr]. cbn [doc] in *.
  assert (Hr : forall a q b c r r',
             replaceAt (a ++ q ++ b ++ r' ++ c) (length a) (length q) r
             = a ++ r ++ b ++ r' ++ c)
    by (intros; apply replaceAt_at).
  assert (Hr' : forall a q b q' c r',
             replaceAt (a ++ q ++ b ++ q' ++ c) (length (a ++ q ++ b)) (length q') r'
             = a ++ q ++ b ++ r' ++ c).
  { intros a q b q' c r'.
    replace (a ++ q ++ b ++ q' ++ c) with ((a ++ q ++ b) ++ q' ++ c)
      by (rewrite <- !app_assoc; reflexivity).
    rewrite replaceAt_at, <- !app_assoc. reflexivity. }
  destruct (Nat.lt_trichotomy i1 i2) as [Hlt|[Heq|Hgt]].
  - destruct (two_placeholders_layout p p1 p2 d i1 i2 H1 H2 E1 E2 Hlt)
      as (a & b & c & -> & La & Lb).
    specialize (K1 Hlt). rewrite <- La, Hr in K1.
    rewrite <- La in E1. rewrite <- Lb in E2.
    assert (K1' : indexOf (a ++ r1 ++ b ++ p2 ++ c) p2
                  = Some (length (a ++ r1 ++ b))).
    { rewrite K1. f_equal. rewrite !length_app in *. lia. }
    destruct (adjacent_splices_commute j1 j2 r1 r2 a b c tr E1 E2 K1') as [A B].
    unfold p1, p2 in *. rewrite A, B. split; [reflexivity|].
    replace (i1 <? i2) with true by (symmetry; apply Nat.ltb_lt; exact Hlt).
    rewrite <- Lb, Hr', <- La, Hr. reflexivity.
  - exfalso. subst i2. apply Hne.
    apply (placeholders_same_start p p1 p2 (skipn i1 d) H1 H2);
      apply indexOf_occurs; assumption.
  - destruct (two_placeholders_layout p p2 p1 d i2 i1 H2 H1 E2 E1 Hgt)
      as (a & b & c & -> & La & Lb).
    specialize (K2 Hgt). rewrite <- La, Hr in K2.
    rewrite <- La in E2. rewrite <- Lb in E1.
    assert (K2' : indexOf (a ++ r2 ++ b ++ p1 ++ c) p1
                  = Some (length (a ++ r2 ++ b))).
    { rewrite K2. f_equal. rewrite !length_app in *. lia. }
    destruct (adjacent_splices_commute j2 j1 r2 r1 a b c tr E2 E1 K2') as [A B].
    unfold p1, p2 in *. rewrite A, B. split; [reflexivity|].
    replace (i1 <? i2) with false by (symmetry; apply Nat.ltb_ge; lia).
    rewrite <- Lb, Hr', <- La, Hr. reflexivity.
Qed.

Lemma splices_commute_witness :
  let r1 := finalBlock (lit "one") (lit "![[a.mp3]]") in
  let r2 := errorBlock (lit "rate limited") (lit "![[b.mp3]]") in
  let st := mkSt (lit "x" ++ jobPlaceholder sampleJob ++ lit " "
                  ++ jobPlaceholder otherJob ++ lit "y") [] in
  doc_of (updateCallout otherJob r2 (snd (updateCallout sampleJob r1 st)))
  = doc_of (updateCallout sampleJob r1 (snd (updateCallout otherJob r2 st)))
  /\ doc_of (updateCallout otherJob r2 (snd (updateCallout sampleJob r1 st)))
     = lit "x" ++ r1 ++ lit " " ++ r2 ++ lit "y".
Proof.
  apply (splices_commute gemini sampleJob otherJob
           (finalBlock (lit "one") (lit "![[a.mp3]]"))
           (errorBlock (lit "rate limited") (lit "![[b.mp3]]"))
           (mkSt (lit "x" ++ jobPlaceholder sampleJob ++ lit " "
                  ++ jobPlaceholder otherJob ++ lit "y") [])
           1 (1 + length (jobPlaceholder sampleJob) + 1)).
  - exists (lit "a.mp3"). split; reflexivity.
  - exists (lit "b.mp3"). split; reflexivity.
  - text_neq.
  - vm_compute. reflexivity.
  - vm_compute. reflexivity.
  - intros _. vm_compute. reflexivity.
  - intros H. vm_compute in H. lia.
Defined.

(** ** Further properties *)

(** *** The scanner on arbitrary text *)

Lemma matchHere_nil : matchHere [] = None.
Proof. reflexivity. Qed.

(** Every element of the scan comes from a successful anchored match at
    its index. *)
Lemma scanFrom_matchHere (s : text) (pos skip : nat) :
  Forall (fun m => pos <= index m
                   /\ matchHere (skipn (index m - pos) s) = Some (m1 m)
                   /\ m0 m = opener ++ m1 m ++ closer)
         (scanFrom s pos skip).
Proof.
  revert pos skip. induction s as [|c s IH]; intros pos skip.
  - constructor.
  - assert (Hrest : forall k,
             Forall (fun m => pos <= index m
                              /\ matchHere (skipn (index m - pos) (c :: s)) = Some (m1 m)
                              /\ m0 m = opener ++ m1 m ++ closer)
                    (scanFrom s (S pos) k)).
    { intros k. eapply Forall_impl; [|apply (IH (S pos) k)].
      intros m (Hle & Hm & H0). split; [lia|]. split; [|exact H0].
      replace (index m - pos) with (S (index m - S pos)) by lia. exact Hm. }
    destruct skip as [|k].
    + rewrite scanFrom_cons. destruct (matchHere (c :: s)) as [name|] eqn:E.
      * constructor; [|apply Hrest].
        cbn [index m1 m0]. split; [lia|]. split; [|reflexivity].
        rewrite Nat.sub_diag. exact E.
      * apply Hrest.
    + cbn [scanFrom]. apply Hrest.
Qed.

Lemma matchLazy_stem (s name : text) :
  matchLazy s = Some name ->
  exists stem e,
    name = stem ++ dot :: e
    /\ matchTail extensions (skipn (length stem) s) = Some e
    /\ forall k, k < length stem -> matchTail extensions (skipn k s) = None.
Proof.
  revert name. induction s as [|c s IH]; intros name H; rewrite matchLazy_eq in H.
  - destruct (matchTail extensions []) as [e|] eqn:E; [|discriminate].
    injection H as <-. exists [], e. split; [reflexivity|]. split; [exact E|].
    intros k Hk. cbn in Hk. lia.
  - destruct (matchTail extensions (c :: s)) as [e|] eqn:E.
    + injection H as <-. exists [], e. split; [reflexivity|]. split; [exact E|].
      intros k Hk. cbn in Hk. lia.
    + destruct (isLineTerminator c); [discriminate|].
      destruct (matchLazy s) as [name'|] eqn:E'; [|discriminate].
      cbn [option_map] in H. injection H as <-.
      destruct (IH name' eq_refl) as (stem & e & -> & Ht & Hmin).
      exists (c :: stem), e. split; [reflexivity|]. split; [exact Ht|].
      intros [|k] Hk; [exact E|]. cbn [length] in Hk. cbn [skipn].
      apply Hmin. lia.
Qed.

Lemma matchHere_inv (s name : text) :
  matchHere s = Some name ->
  startsWith opener s = true /\ matchLazy (skipn 3 s) = Some name.
Proof.
  unfold matchHere. destruct (startsWith opener s); [|discriminate].
  intros H. split; [reflexivity|exact H].
Qed.

Lemma scanFrom_complete (s : text) (pos skip k : nat) (name : text) :
  skip <= k -> matchHere (skipn k s) = Some name ->
  exists m, In m (scanFrom s pos skip) /\ index m <= pos + k < matchEnd m.
Proof.
  revert pos skip k. induction s as [|c s IH]; intros pos skip k Hk H.
  - rewrite skipn_nil in H. discriminate.
  - destruct skip as [|sk].
    + rewrite scanFrom_cons. destruct (matchHere (c :: s)) as [nm|] eqn:E.
      * destruct (Nat.lt_ge_cases k (length (opener ++ nm ++ closer))) as [Hlt|Hge].
        -- eexists. split; [left; reflexivity|].
           unfold matchEnd. cbn [index m0]. lia.
        -- destruct k as [|k'].
           { rewrite length_app in Hge. cbn in Hge. lia. }
           cbn [skipn] in H.
           destruct (IH (S pos) (length (opener ++ nm ++ closer) - 1) k' ltac:(lia) H)
             as (m & Hin & Hr).
           exists m. split; [right; exact Hin|lia].
      * destruct k as [|k'].
        { cbn [skipn] in H. rewrite H in E. discriminate. }
        cbn [skipn] in H.
        destruct (IH (S pos) 0 k' ltac:(lia) H) as (m & Hin & Hr).
        exists m. split; [exact Hin|lia].
    + destruct k as [|k']; [lia|]. cbn [skipn] in H. cbn [scanFrom].
      destruct (IH (S pos) sk k' ltac:(lia) H) as (m & Hin & Hr).
      exists m. split; [exact Hin|lia].
Qed.

Lemma matchAll_In_inv (content : text) (m : RegExpMatch) :
  In m (matchAll content) ->
  matchHere (skipn (index m) content) = Some (m1 m)
  /\ m0 m = opener ++ m1 m ++ closer.
Proof.
  intros Hin. pose proof (scanFrom_matchHere content 0 0) as F.
  rewrite Forall_forall in F. destruct (F m Hin) as (_ & H & H0).
  rewrite Nat.sub_0_r in H. split; assumption.
Qed.

Lemma matchAll_In_end (content : text) (m : RegExpMatch) :
  In m (matchAll content) -> matchEnd m <= length content.
Proof.
  intros Hin. destruct (in_split _ _ Hin) as (l1 & l2 & E).
  pose proof (matchAll_placed content) as P. rewrite E in P.
  apply placed_split in P. destruct P as [_ P].
  apply placed_bounds in P. exact P.
Qed.

Lemma matchAll_In_stem (content : text) (m : RegExpMatch) :
  In m (matchAll content) ->
  exists stem e,
    m1 m = stem ++ dot :: e /\ In e extensions
    /\ forall k, k < length stem ->
         matchTail extensions (skipn (index m + 3 + k) content) = None.
Proof.
  intros Hin. destruct (matchAll_In_inv content m Hin) as [H _].
  apply matchHere_inv in H. destruct H as [_ H].
  destruct (matchLazy_stem _ _ H) as (stem & e & E & Ht & Hmin).
  exists stem, e. split; [exact E|]. split.
  - apply matchTail_Some in Ht. apply Ht.
  - intros k Hk. specialize (Hmin k Hk).
    rewrite <- skipn_skipn_add in Hmin. rewrite <- skipn_skipn_add in Hmin.
    rewrite Nat.add_assoc in Hmin. exact Hmin.
Qed.

Lemma matchTail_None (exts : list text) (t e : text) :
  matchTail exts t = None -> In e exts ->
  startsWith (dot :: e ++ closer) t = false.
Proof.
  induction exts as [|e0 exts IH]; intros Hmin Hine.
  - destruct Hine.
  - cbn [matchTail] in Hmin.
    destruct (startsWith (dot :: e0 ++ closer) t) eqn:E0; [discriminate|].
    destruct Hine as [<-|Hine]; [exact E0|]. apply IH; assumption.
Qed.

(** X1. Whatever the note holds, every reference the scanner returns is a
    link [![[stem.ext]]] that stands in the note at the reported offset:
    the extension is one of the seven, the name holds no line break, and
    the link ends within the note. *)
Theorem matchAll_sound (content : text) (m : RegExpMatch) :
  In m (matchAll content) ->
  m0 m = opener ++ m1 m ++ closer
  /\ (exists stem ext, m1 m = stem ++ dot :: ext /\ In ext extensions)
  /\ noLineBreak (m1 m) = true
  /\ firstn (length (m0 m)) (skipn (index m) content) = m0 m
  /\ matchEnd m <= length content.
Proof.
  intros Hin.
  destruct (matchAll_In_inv content m Hin) as [H H0].
  destruct (matchAll_In_stem content m Hin) as (stem & e & E & He & _).
  apply matchHere_Some in H. destruct H as [Hs Hn].
  split; [exact H0|]. split; [exists stem, e; split; assumption|].
  split; [exact Hn|]. split; [|apply matchAll_In_end; exact Hin].
  rewrite <- H0 in Hs. apply startsWith_inv in Hs.
  rewrite Hs at 1. apply firstn_length_app.
Qed.

Lemma matchAll_sound_witness :
  let m := mkMatch clipLink (lit "clip.mp3") 6 in
  firstn (length (m0 m)) (skipn (index m) clipDoc) = m0 m
  /\ matchEnd m <= length clipDoc.
Proof.
  intros m.
  destruct (matchAll_sound clipDoc m) as (_ & _ & _ & H & H').
  - vm_compute. left. reflexivity.
  - split; assumption.
Defined.

(** X2. The references come in document order and do not overlap: each
    is non-empty and ends before the next one starts. *)
Theorem matchAll_ordered (content : text) (l1 l2 l3 : list RegExpMatch)
    (m m' : RegExpMatch) :
  matchAll content = l1 ++ m :: l2 ++ m' :: l3 ->
  index m < matchEnd m /\ matchEnd m <= index m'.
Proof.
  intros E. split.
  - assert (Hin : In m (matchAll content)).
    { rewrite E. apply in_or_app. right. left. reflexivity. }
    destruct (matchAll_In_inv content m Hin) as [_ H0].
    unfold matchEnd. rewrite H0, length_app. cbn. lia.
  - pose proof (matchAll_placed content) as P. rewrite E in P.
    apply placed_split in P. destruct P as [_ P].
    apply placed_split in P. apply P.
Qed.

Lemma matchAll_ordered_witness :
  matchEnd (mkMatch (lit "![[a.mp3]]") (lit "a.mp3") 0)
  <= index (mkMatch (lit "![[b.mp3]]") (lit "b.mp3") 11).
Proof.
  apply (matchAll_ordered pairDoc [] [] []
           (mkMatch (lit "![[a.mp3]]") (lit "a.mp3") 0)
           (mkMatch (lit "![[b.mp3]]") (lit "b.mp3") 11)).
  vm_compute. reflexivity.
Defined.

(** X3. The scanner skips no link: every offset of the note at which the
    pattern matches lies inside a returned reference (it is that
    reference's start, or it is swallowed by a reference that started
    earlier). *)
Theorem matchAll_complete (content : text) (i : nat) (name : text) :
  matchHere (skipn i content) = Some name ->
  exists m, In m (matchAll content) /\ index m <= i < matchEnd m.
Proof.
  intros H. apply (scanFrom_complete content 0 0 i name); [lia|exact H].
Qed.

Lemma matchAll_complete_witness :
  exists m, In m (matchAll clipDoc) /\ index m <= 6 < matchEnd m.
Proof.
  apply (matchAll_complete clipDoc 6 (lit "clip.mp3")).
  vm_compute. reflexivity.
Defined.

(** X4. The name is taken lazily: a reference ends at the first
    [.ext]]] after its opening brackets; no earlier offset of its name
    starts an extension followed by the closing brackets. *)
Theorem matchAll_lazy (content : text) (m : RegExpMatch) :
  In m (matchAll content) ->
  exists stem ext,
    m1 m = stem ++ dot :: ext /\ In ext extensions
    /\ forall k e, k < length stem -> In e extensions ->
         startsWith (dot :: e ++ closer) (skipn (index m + 3 + k) content) = false.
Proof.
  intros Hin.
  destruct (matchAll_In_stem content m Hin) as (stem & ext & E & He & Hmin).
  exists stem, ext. split; [exact E|]. split; [exact He|].
  intros k e Hk Hine. apply (matchTail_None extensions); [|exact Hine].
  apply Hmin. exact Hk.
Qed.

Lemma matchAll_lazy_witness :
  exists stem ext,
    lit "a.mp3.wav" = stem ++ dot :: ext /\ In ext extensions
    /\ forall k e, k < length stem -> In e extensions ->
         startsWith (dot :: e ++ closer) (skipn (0 + 3 + k) (lit "![[a.mp3.wav]]"))
         = false.
Proof.
  apply (matchAll_lazy (lit "![[a.mp3.wav]]")
           (mkMatch (lit "![[a.mp3.wav]]") (lit "a.mp3.wav") 0)).
  vm_compute. left. reflexivity.
Defined.

(** *** Mime types and file names *)

Lemma splitPop_last (sep : cu) (stem E : text) :
  existsb (cu_eqb sep) E = false -> splitPop sep (stem ++ sep :: E) = E.
Proof.
  intros HE. induction stem as [|c stem IH].
  - cbn [app splitPop]. rewrite HE, cu_eqb_refl. reflexivity.
  - cbn [app splitPop]. rewrite existsb_app. cbn [existsb].
    rewrite cu_eqb_refl, orb_true_r. exact IH.
Qed.

Lemma splitPop_whole (sep : cu) (s : text) :
  existsb (cu_eqb sep) s = false -> splitPop sep s = s.
Proof.
  destruct s as [|c s]; [reflexivity|]. cbn [existsb splitPop]. intros H.
  apply orb_false_elim in H. destruct H as [Hc Hs]. rewrite Hs.
  destruct (cu_eqb c sep) eqn:E; [|reflexivity].
  apply cu_eqb_eq in E. subst c. rewrite cu_eqb_refl in Hc. discriminate.
Qed.

Lemma toLowerCase_dot (E : text) :
  existsb (cu_eqb dot) (toLowerCase E) = existsb (cu_eqb dot) E.
Proof.
  induction E as [|c E IH]; [reflexivity|].
  unfold toLowerCase in *. cbn [map existsb]. rewrite IH. f_equal.
  destruct (N.leb 65 c && N.leb c 90)%bool eqn:R; [|reflexivity].
  apply andb_prop in R. destruct R as [R1 R2].
  apply N.leb_le in R1. apply N.leb_le in R2.
  transitivity false.
  - apply not_true_is_false. intros H. apply cu_eqb_eq in H. unfold dot in H. lia.
  - symmetry. apply not_true_is_false. intros H. apply cu_eqb_eq in H.
    unfold dot in H. lia.
Qed.

Lemma getMimeType_of_extension (p e : text) :
  In e extensions -> toLowerCase (splitPop dot p) = e ->
  getMimeType p = Some (lit "audio/" ++ e).
Proof.
  intros He Hl. unfold getMimeType. rewrite Hl.
  cbn in He.
  repeat (destruct He as [<-|He]; [reflexivity|]). destruct He.
Qed.

Lemma extensions_lower (e : text) : In e extensions -> toLowerCase e = e.
Proof.
  intros He. cbn in He.
  repeat (destruct He as [<-|He]; [reflexivity|]). destruct He.
Qed.

(** X5. The mime type goes by the letters after the last dot of the
    path, whatever their case and whatever comes before: a path ending in
    a dot and one of the seven extensions, in any mix of upper and lower
    case, has the mime type [audio/] followed by the extension in lower
    case. *)
Theorem getMimeType_by_extension (stem E e : text) :
  In e extensions -> toLowerCase E = e ->
  getMimeType (stem ++ dot :: E) = Some (lit "audio/" ++ e).
Proof.
  intros He Hl. apply getMimeType_of_extension; [exact He|].
  rewrite splitPop_last; [exact Hl|].
  rewrite <- toLowerCase_dot, Hl. apply extensions_no_dot. exact He.
Qed.

Lemma getMimeType_by_extension_witness :
  getMimeType (lit "/vault/Audio/Memo.2024.WAV") = Some (lit "audio/wav").
Proof.
  apply (getMimeType_by_extension (lit "/vault/Audio/Memo.2024") (lit "WAV")
           (lit "wav")).
  - vm_compute. tauto.
  - reflexivity.
Defined.

(** X6. Scanner and client agree on the formats: the file name of every
    reference found in a note, under any directory, has a mime type, the
    one of the reference's own extension. *)
Theorem scanned_name_has_mime_type (content dir : text) (m : RegExpMatch) :
  In m (matchAll content) ->
  exists ext, In ext extensions
              /\ getMimeType (dir ++ m1 m) = Some (lit "audio/" ++ ext).
Proof.
  intros Hin.
  destruct (matchAll_In_stem content m Hin) as (stem & e & E & He & _).
  exists e. split; [exact He|]. rewrite E, app_assoc.
  apply getMimeType_of_extension; [exact He|].
  rewrite splitPop_last; [apply extensions_lower; exact He|].
  apply extensions_no_dot. exact He.
Qed.

Lemma scanned_name_has_mime_type_witness :
  exists ext, In ext extensions
              /\ getMimeType (lit "/vault/Audio/" ++ lit "clip.mp3")
                 = Some (lit "audio/" ++ ext).
Proof.
  apply (scanned_name_has_mime_type clipDoc (lit "/vault/Audio/")
           (mkMatch clipLink (lit "clip.mp3") 6)).
  vm_compute. left. reflexivity.
Defined.

(** X7. The Gemini client refuses before it touches the file or the
    service: with an empty key, or a path without mime type, the call
    throws whatever the host would have answered; the missing key is
    reported first. *)
Theorem gemini_refuses_before_any_io (h h' : Host) (self : GeminiService.t)
    (audioPath prompt modelName : text) :
  GeminiService.apiKey self = [] \/ getMimeType audioPath = None ->
  GeminiService.transcribeAudio h self audioPath prompt modelName
  = GeminiService.transcribeAudio h' self audioPath prompt modelName
  /\ GeminiService.transcribeAudio h self audioPath prompt modelName
     = Throw (if isEmpty (GeminiService.apiKey self)
              then lit "Gemini API key is not configured."
              else lit "Unsupported audio format for file: " ++ audioPath).
Proof.
  unfold GeminiService.transcribeAudio. intros [H|H].
  - rewrite H. cbn [isEmpty]. split; reflexivity.
  - rewrite H. destruct (isEmpty (GeminiService.apiKey self)); split; reflexivity.
Qed.

Lemma gemini_refuses_before_any_io_witness :
  GeminiService.transcribeAudio (vaultHost echoAnswer) (GeminiService.new (lit "key"))
    (lit "/vault/Audio/notes.txt") (lit "Transcribe.") (lit "gemini-1.5-flash")
  = Throw (lit "Unsupported audio format for file: /vault/Audio/notes.txt").
Proof.
  apply (gemini_refuses_before_any_io (vaultHost echoAnswer) (vaultHost rateLimited)
           (GeminiService.new (lit "key")) (lit "/vault/Audio/notes.txt")
           (lit "Transcribe.") (lit "gemini-1.5-flash")).
  right. reflexivity.
Defined.

Lemma lastSegment_suffix (p : text) :
  existsb OpenRouterValidation.isSeparator (OpenRouterValidation.lastSegment p) = false
  /\ exists dir, p = dir ++ OpenRouterValidation.lastSegment p.
Proof.
  induction p as [|c p [IH1 [dir IH2]]].
  - split; [reflexivity|]. exists []. reflexivity.
  - cbn [OpenRouterValidation.lastSegment].
    destruct (existsb OpenRouterValidation.isSeparator p) eqn:E.
    + split; [exact IH1|]. exists (c :: dir). cbn [app]. f_equal. exact IH2.
    + destruct (OpenRouterValidation.isSeparator c) eqn:Ec.
      * split; [exact E|]. exists [c]. reflexivity.
      * split; [cbn [existsb]; rewrite Ec, E; reflexivity|]. exists []. reflexivity.
Qed.

(** X8. The file name sent with an upload is never empty and holds
    neither slash nor backslash: it is the end of the path from after its
    last separator, or [audio.dat]. *)
Theorem uploadFileName_is_a_name (audioPath : text) :
  let name := OpenRouterValidation.uploadFileName audioPath in
  name <> []
  /\ existsb OpenRouterValidation.isSeparator name = false
  /\ (name = lit "audio.dat" \/ exists dir, audioPath = dir ++ name).
Proof.
  destruct (lastSegment_suffix audioPath) as [H1 H2].
  unfold OpenRouterValidation.uploadFileName, OpenRouterValidation.orElse.
  destruct (OpenRouterValidation.lastSegment audioPath) as [|c l] eqn:E;
    cbn [isEmpty].
  - split; [discriminate|]. split; [reflexivity|]. left. reflexivity.
  - split; [discriminate|]. split; [exact H1|]. right. exact H2.
Qed.

(** X9. The name sent for a file in a directory is the file's own name:
    for a path made of any directory part, a separator and a non-empty
    name without separator, the upload carries that name. *)
Theorem uploadFileName_of_path (dir name : text) (sep : cu) :
  OpenRouterValidation.isSeparator sep = true ->
  existsb OpenRouterValidation.isSeparator name = false -> name <> [] ->
  OpenRouterValidation.uploadFileName (dir ++ sep :: name) = name.
Proof.
  intros Hs Hn Hne.
  assert (L : OpenRouterValidation.lastSegment (dir ++ sep :: name) = name).
  { induction dir as [|c dir IH].
    - cbn [app OpenRouterValidation.lastSegment]. rewrite Hn, Hs. reflexivity.
    - cbn [app OpenRouterValidation.lastSegment]. rewrite existsb_app.
      cbn [existsb]. rewrite Hs, orb_true_r. exact IH. }
  unfold OpenRouterValidation.uploadFileName, OpenRouterValidation.orElse.
  rewrite L. destruct name; [contradiction|reflexivity].
Qed.

Lemma uploadFileName_of_path_witness :
  OpenRouterValidation.uploadFileName (lit "C:\vault/Audio" ++ 92%N :: lit "a.mp3")
  = lit "a.mp3".
Proof.
  apply (uploadFileName_of_path (lit "C:\vault/Audio") (lit "a.mp3") 92%N).
  - reflexivity.
  - reflexivity.
  - discriminate.
Defined.

(** *** Settings, storage and clients *)

Lemma saveSettings_inSync (l : Loaded) : inSync (saveSettings l).
Proof.
  unfold inSync, saveSettings. cbn [stored plugin]. rewrite loadSettings_saveData.
  unfold services. cbn. repeat split.
Qed.

Lemma onload_inSync (data : option StoredData) : inSync (onload data).
Proof.
  unfold inSync, onload.
  destruct (provider (loadSettings data)) eqn:E.
  - cbn. repeat split.
  - cbn [saveSettings plugin stored settings services lifecycle].
    rewrite loadSettings_saveData. cbn. repeat split.
Qed.

Lemma session_inSync_from (changes : list SettingChange) (l : Loaded) :
  inSync l -> inSync (fold_left onChange changes l).
Proof.
  revert l. induction changes as [|c changes IH]; intros l H; [exact H|].
  cbn [fold_left]. apply IH. unfold onChange. apply saveSettings_inSync.
Qed.

Lemma plugin_of_inSync (l : Loaded) :
  inSync l -> plugin l = services (settings (plugin l)).
Proof.
  intros (_ & Hg & Ho). destruct (plugin l) as [s [gk] [ok]].
  cbn in Hg, Ho. subst. reflexivity.
Qed.

Lemma session_inSync (data : option StoredData) (changes : list SettingChange) :
  inSync (session data changes).
Proof.
  unfold session. apply session_inSync_from. apply onload_inSync.
Qed.

(** X10. Throughout a session (load, then any changes in the settings
    tab) the stored data read back gives the settings in memory, and both
    clients hold the keys of those settings. *)
Theorem session_in_sync (data : option StoredData) (changes : list SettingChange) :
  loadSettings (stored (session data changes))
  = settings (plugin (session data changes))
  /\ GeminiService.apiKey (geminiService (plugin (session data changes)))
     = geminiApiKey (settings (plugin (session data changes)))
  /\ OpenRouterService.apiKey (openrouterService (plugin (session data changes)))
     = openrouterApiKey (settings (plugin (session data changes))).
Proof. exact (session_inSync data changes). Qed.

(** X11. The settings survive a restart: loading again from what a
    session left in storage gives the same plugin (settings and clients)
    and writes nothing. *)
Theorem restart_restores_session (data : option StoredData)
    (changes : list SettingChange) :
  let l := session data changes in
  plugin (onload (stored l)) = plugin l
  /\ stored (onload (stored l)) = stored l
  /\ lifecycle (onload (stored l))
     = [AddCommand (lit "transcribe-audio-in-note"); AddSettingTab].
Proof.
  intros l.
  pose proof (session_inSync data changes) as S. fold l in S.
  pose proof (plugin_of_inSync l S) as P.
  destruct S as (Hs & _).
  destruct (session_provider data changes) as [Hp _]. fold l in Hp.
  unfold onload. rewrite Hs, Hp. cbn [plugin stored lifecycle settings services app].
  repeat split. symmetry. exact P.
Qed.


(** X13. After a session the command's guard and the client agree: when
    the command finds the key set, the client of a job's call does not
    refuse for a missing key; the call goes by the mime type of the
    path, then the file, then the service with the current model and
    prompt. *)
Theorem ready_session_reaches_the_service (h : Host) (data : option StoredData)
    (changes : list SettingChange) (audioPath : text) :
  let this := plugin (session data changes) in
  ready this ->
  callProvider h this audioPath
  = match getMimeType audioPath with
    | None => Throw (lit "Unsupported audio format for file: " ++ audioPath)
    | Some audioMimeType =>
        match readFileSync h audioPath with
        | Throw e => Throw e
        | Ok audioData =>
            generateContent h (geminiModelName (settings this))
              (transcriptionPrompt (settings this)) audioData audioMimeType
        end
    end.
Proof.
  intros this R.
  destruct (session_provider data changes) as [Hp _]. fold this in Hp.
  destruct (session_inSync data changes) as (_ & Hg & _). fold this in Hg.
  unfold ready in R. rewrite Hp in R.
  unfold callProvider. rewrite Hp.
  unfold GeminiService.transcribeAudio, GeminiService.generativePart. rewrite Hg.
  destruct (geminiApiKey (settings this)); [contradiction|]. reflexivity.
Qed.

Lemma ready_session_reaches_the_service_witness :
  callProvider (vaultHost echoAnswer)
    (plugin (session None [ChangeGeminiApiKey (lit "key")]))
    (lit "/vault/Audio/b.mp3")
  = Ok (lit "two").
Proof.
  rewrite (ready_session_reaches_the_service (vaultHost echoAnswer) None
             [ChangeGeminiApiKey (lit "key")] (lit "/vault/Audio/b.mp3")).
  - reflexivity.
  - vm_compute. discriminate.
Defined.

(** *** Validation of the keys *)

Ltac run_monad :=
  cbv [GeminiValidation.validateApi GeminiValidation.onClickValidate
       GeminiValidation.onClickValidateGeminiOnly
       OpenRouterValidation.validateApi OpenRouterValidation.describeError
       bind ret newNotice consoleError emit doc_of trace_of fst snd doc trace].

Section GeminiButtons.

Variable ping : text -> text -> Result unit.

(** X14. The Validate button of the revision with provider selection
    never changes the note and announces success exactly when the key is
    set and the test request went through.  With an empty key no request
    is made and the user is told that the key is not set; when the
    request fails, the console gets the error but the user gets no
    notice after the opening one. *)
Theorem validate_button_is_silent_on_failure (this : Plugin) (st : St) :
  let key := GeminiService.apiKey (geminiService this) in
  let model := geminiModelName (settings this) in
  let r := GeminiValidation.onClickValidate ping this st in
  doc_of r = doc st
  /\ exists evs,
       trace_of r = trace st ++ Notice (lit "Validating Gemini API key...") :: evs
       /\ (In (Notice (lit "Gemini API key is valid!")) evs
           <-> key <> [] /\ exists u, ping key model = Ok u)
       /\ (key = [] -> evs = [Notice (lit "Gemini API key is not set.")])
       /\ (forall e, key <> [] -> ping key model = Throw e ->
           filter isNotice evs = [] /\ filter isNotice evs <> evs).
Proof.
  intros key model r. subst r. run_monad. fold key. fold model.
  destruct key as [|c k] eqn:Ek; cbn [isEmpty].
  - cbn [doc trace fst snd]. split; [reflexivity|]. eexists.
    split; [rewrite <- app_assoc; reflexivity|]. split; [|split].
    + split.
      * intros [H|[]]. discriminate.
      * intros [H _]. contradiction.
    + reflexivity.
    + intros e H. contradiction.
  - destruct (ping (c :: k) model) as [u|e] eqn:Ep; cbn [doc trace fst snd].
    + split; [reflexivity|]. eexists.
      split; [rewrite <- app_assoc; reflexivity|]. split; [|split].
      * split; [|intros _; left; reflexivity].
        intros _. split; [discriminate|]. exists u. reflexivity.
      * discriminate.
      * intros e _ H. discriminate.
    + split; [reflexivity|]. eexists.
      split; [rewrite <- app_assoc; reflexivity|]. split; [|split].
      * split.
        -- intros [H|[]]. discriminate.
        -- intros [_ [u H]]. discriminate.
      * discriminate.
      * intros e' _ _. cbn. split; [reflexivity|discriminate].
Qed.

(** X15. The Validate button of the Gemini-only revision never changes
    the note and always ends with a verdict: its last notice announces
    success when the key is set and the test request went through, and
    the failure otherwise. *)
Theorem geminiOnly_validate_button_gives_a_verdict (this : GeminiOnly.Plugin)
    (st : St) :
  let key := GeminiService.apiKey (GeminiOnly.geminiService this) in
  let model := GeminiOnly.modelName (GeminiOnly.settings this) in
  let r := GeminiValidation.onClickValidateGeminiOnly ping this st in
  doc_of r = doc st
  /\ exists evs verdict,
       trace_of r
       = trace st ++ Notice (lit "Validating API key and model...") :: evs
         ++ [Notice verdict]
       /\ (verdict = lit "API key and model are valid!"
           \/ verdict = lit "API validation failed. Check key, model, and console for details.")
       /\ (verdict = lit "API key and model are valid!"
           <-> key <> [] /\ exists u, ping key model = Ok u).
Proof.
  intros key model r. subst r. run_monad. fold key. fold model.
  destruct key as [|c k] eqn:Ek; cbn [isEmpty].
  - cbn [doc trace fst snd]. split; [reflexivity|].
    exists [Notice (lit "Gemini API key is not set.")]. eexists.
    split; [repeat rewrite <- app_assoc; reflexivity|]. split; [right; reflexivity|].
    split; [discriminate|]. intros [H _]. contradiction.
  - destruct (ping (c :: k) model) as [u|e] eqn:Ep; cbn [doc trace fst snd].
    + split; [reflexivity|]. exists []. eexists.
      split; [repeat rewrite <- app_assoc; reflexivity|]. split; [left; reflexivity|].
      split; [|reflexivity]. intros _. split; [discriminate|]. exists u. reflexivity.
    + split; [reflexivity|]. eexists [_]. eexists.
      split; [repeat rewrite <- app_assoc; reflexivity|]. split; [right; reflexivity|].
      split; [discriminate|]. intros [_ [u H]]. discriminate.
Qed.

End GeminiButtons.

Section OpenRouterValidate.

Variable requestUrl : text -> OpenRouterValidation.Response + OpenRouterValidation.RequestError.
Variable parseBody : text -> option OpenRouterValidation.ErrorBody.

Lemma describeError_trace (fallback : text) (error : OpenRouterValidation.RequestError)
    (st : St) :
  let r := OpenRouterValidation.describeError parseBody fallback error st in
  doc (snd r) = doc st
  /\ exists evs, trace (snd r) = trace st ++ evs /\ filter isNotice evs = [].
Proof.
  run_monad.
  destruct (OpenRouterValidation.headers error);
    destruct (isEmpty (OpenRouterValidation.body error));
    try destruct (parseBody (OpenRouterValidation.body error));
    cbn [doc trace fst snd]; (split; [reflexivity|]);
    first [ exists []; rewrite app_nil_r; split; reflexivity
          | eexists; split; reflexivity ].
Qed.

(** X16. The OpenRouter key check succeeds exactly when the key is set
    and the service answers with status 200 and a [data] field.  It never
    changes the note; a success is silent, and every failure shows
    exactly one notice. *)
Theorem openrouter_validateApi_verdict (self : OpenRouterService.t) (st : St) :
  let key := OpenRouterService.apiKey self in
  let r := OpenRouterValidation.validateApi requestUrl parseBody self st in
  doc_of r = doc st
  /\ (fst r = true
      <-> key <> []
          /\ exists response,
               requestUrl key = inl response
               /\ OpenRouterValidation.status response = 200
               /\ OpenRouterValidation.hasData response = true)
  /\ (fst r = true -> trace_of r = trace st)
  /\ (fst r = false ->
      exists evs message,
        trace_of r = trace st ++ evs /\ filter isNotice evs = [Notice message]).
Proof.
  intros key r. subst r. unfold OpenRouterValidation.validateApi. fold key.
  destruct key as [|c k] eqn:Ek; cbn [isEmpty].
  - run_monad. cbn [doc trace fst snd]. split; [reflexivity|]. split; [|split].
    + split; [discriminate|]. intros [H _]. contradiction.
    + discriminate.
    + intros _. eexists. eexists. split; reflexivity.
  - destruct (requestUrl (c :: k)) as [response|error] eqn:Er.
    + destruct (Nat.eqb (OpenRouterValidation.status response) 200) eqn:Es.
      * apply Nat.eqb_eq in Es.
        destruct (OpenRouterValidation.hasData response) eqn:Ed.
        -- run_monad. split; [reflexivity|]. split; [|split].
           ++ split; [|reflexivity]. intros _. split; [discriminate|].
              exists response. repeat split; assumption.
           ++ reflexivity.
           ++ discriminate.
        -- run_monad. cbn [doc trace fst snd]. split; [reflexivity|]. split; [|split].
           ++ split; [discriminate|]. intros (_ & resp & H & _ & Hd).
              injection H as <-. rewrite Hd in Ed. discriminate.
           ++ discriminate.
           ++ intros _. eexists. eexists. split; reflexivity.
      * apply Nat.eqb_neq in Es.
        run_monad. cbn [doc trace fst snd]. split; [reflexivity|]. split; [|split].
        -- split; [discriminate|]. intros (_ & resp & H & Hs & _).
           injection H as <-. contradiction.
        -- discriminate.
        -- intros _. eexists. eexists. rewrite <- app_assoc.
           split; reflexivity.
    + match goal with |- doc_of ?t = _ /\ _ => remember t as r eqn:Hr end.
      unfold bind, consoleError, emit in Hr. cbv beta iota zeta in Hr.
      match type of Hr with
      | context [OpenRouterValidation.describeError _ _ _ ?s] =>
          pose proof (describeError_trace (lit "Unknown error") error s) as D;
          cbv zeta in D; destruct D as (Dd & evs & Dt & Dn);
          destruct (OpenRouterValidation.describeError parseBody
                      (lit "Unknown error") error s) as [msg st2] eqn:E2
      end.
      cbn [snd doc trace] in Dd, Dt.
      unfold newNotice, emit, ret in Hr. subst r.
      unfold doc_of, trace_of. cbn [doc trace fst snd]. rewrite Dd, Dt.
      split; [reflexivity|]. split; [|split].
      * split; [discriminate|]. intros (_ & resp & H & _). discriminate.
      * discriminate.
      * intros _. eexists. eexists. split.
        -- repeat rewrite <- app_assoc. reflexivity.
        -- cbn [app filter isNotice]. rewrite filter_app, Dn. reflexivity.
Qed.

(** X17. A failed request always gets a reason: when the fallback text
    is not empty (and the JSON text of a parsed body is not), the message
    derived from the error is not empty, and deriving it shows no notice
    and leaves the note alone. *)
Theorem describeError_gives_a_reason (fallback : text)
    (error : OpenRouterValidation.RequestError) (st : St) :
  fallback <> [] ->
  (forall b eb, parseBody b = Some eb -> OpenRouterValidation.stringified eb <> []) ->
  let r := OpenRouterValidation.describeError parseBody fallback error st in
  fst r <> []
  /\ doc (snd r) = doc st
  /\ exists evs, trace (snd r) = trace st ++ evs /\ filter isNotice evs = [].
Proof.
  intros Hf Hs r. split; [|exact (describeError_trace fallback error st)].
  subst r. run_monad. unfold OpenRouterValidation.orElse.
  destruct (OpenRouterValidation.headers error);
    destruct (OpenRouterValidation.body error) as [|c b] eqn:Eb; cbn [isEmpty fst];
    try (destruct (OpenRouterValidation.message error); cbn [isEmpty];
         [exact Hf|discriminate]);
    (destruct (parseBody (c :: b)) as [eb|] eqn:Ep; cbn [fst]; [|discriminate];
     destruct (OpenRouterValidation.error_message eb); cbn [isEmpty];
     [exact (Hs _ _ Ep)|discriminate]).
Qed.

End OpenRouterValidate.

Lemma describeError_gives_a_reason_witness :
  fst (OpenRouterValidation.describeError
         (fun _ => Some (OpenRouterValidation.mkErrorBody [] (lit "{}")))
         (lit "Unknown error")
         (OpenRouterValidation.mkRequestError [] true (lit "{}"))
         (open [])) <> [].
Proof.
  apply (describeError_gives_a_reason
           (fun _ => Some (OpenRouterValidation.mkErrorBody [] (lit "{}")))
           (lit "Unknown error")
           (OpenRouterValidation.mkRequestError [] true (lit "{}"))
           (open [])).
  - discriminate.
  - intros b eb H. injection H as <-. discriminate.
Defined.

(** *** The command as a whole *)

Lemma firstn_firstn_skipn (a b : nat) (d : text) :
  firstn a d ++ firstn b (skipn a d) = firstn (a + b) d.
Proof.
  revert d. induction a as [|a IH]; intros d; [reflexivity|].
  destruct d as [|c d]; [cbn; rewrite firstn_nil; reflexivity|].
  cbn [Nat.add firstn skipn app]. f_equal. apply IH.
Qed.

Lemma substituteFrom_ext (b1 b2 : RegExpMatch -> text) (s : text) (pos : nat)
    (ms : list RegExpMatch) :
  (forall m, In m ms -> b1 m = b2 m) ->
  substituteFrom b1 s pos ms = substituteFrom b2 s pos ms.
Proof.
  revert s pos. induction ms as [|m ms IH]; intros s pos H; [reflexivity|].
  cbn [substituteFrom]. rewrite (H m) by (left; reflexivity).
  rewrite IH; [reflexivity|]. intros m' Hm'. apply H. right. exact Hm'.
Qed.

Lemma notAFileBlock_text (originalLink : text) :
  notAFileBlock originalLink
  = lit "> [!warning] Transcription Failed" ++ [NL]
    ++ lit "> Active note is not a file." ++ [NL]
    ++ lit "> " ++ originalLink ++ [NL].
Proof.
  unfold notAFileBlock, errorBlock, warningHeader, quoted.
  repeat rewrite <- app_assoc. reflexivity.
Qed.

Lemma notFoundBlock_text (fileName originalLink : text) :
  notFoundBlock fileName originalLink
  = lit "> [!warning] Transcription Failed" ++ [NL]
    ++ lit "> Could not find file: " ++ fileName ++ [NL]
    ++ lit "> " ++ originalLink ++ [NL].
Proof.
  unfold notFoundBlock, errorBlock, warningHeader, quoted.
  repeat rewrite <- app_assoc. reflexivity.
Qed.

Lemma finalBlock_text (transcriptionText originalLink : text) :
  finalBlock transcriptionText originalLink
  = lit "> [!tip] Audio Note" ++ [NL]
    ++ lit "> " ++ formatTranscription transcriptionText ++ [NL]
    ++ lit "> " ++ originalLink ++ [NL].
Proof.
  unfold finalBlock, tipHeader, quoted. repeat rewrite <- app_assoc. reflexivity.
Qed.

Lemma errorBlock_text (message originalLink : text) :
  errorBlock message originalLink
  = lit "> [!warning] Transcription Failed" ++ [NL]
    ++ lit "> " ++ message ++ [NL]
    ++ lit "> " ++ originalLink ++ [NL].
Proof.
  unfold errorBlock, warningHeader, quoted. repeat rewrite <- app_assoc. reflexivity.
Qed.

Section StepOne.

Variable h : Host.
Variable placeholderText : text -> text -> text.
Variable viewFile : option text.

Lemma forEach_substitute (ms : list RegExpMatch) (lo : nat) (jobs : list Job)
    (st : St) :
  placed lo (length (doc st)) ms ->
  doc (snd (forEach (processMatch h placeholderText viewFile) (rev ms) jobs st))
  = firstn lo (doc st)
    ++ substituteFrom (blockFor h placeholderText viewFile) (skipn lo (doc st)) lo ms.
Proof.
  revert lo jobs st. induction ms as [|m ms IH]; intros lo jobs st P.
  - cbn [rev forEach substituteFrom]. unfold ret. cbn [snd].
    symmetry. apply firstn_skipn.
  - cbn [placed] in P. destruct P as [Hlo P].
    pose proof (placed_bounds _ _ _ P) as Hend.
    cbn [rev]. rewrite forEach_app.
    pose proof (forEach_prefix h placeholderText viewFile ms (matchEnd m) jobs st P)
      as Hpre.
    cbv zeta in Hpre. destruct Hpre as [Hpre Hlen].
    specialize (IH (matchEnd m) jobs st P).
    set (r := forEach (processMatch h placeholderText viewFile) (rev ms) jobs st) in *.
    cbn [forEach]. unfold bind.
    destruct (processMatch h placeholderText viewFile (fst r) m (snd r))
      as [jobs' st'] eqn:E.
    unfold ret. cbn [snd].
    pose proof (processMatch_doc h placeholderText viewFile (fst r) m (snd r) Hlen)
      as Hd.
    rewrite E in Hd. unfold doc_of in Hd. cbn [snd] in Hd. rewrite Hd.
    assert (Hi : index m <= matchEnd m) by (unfold matchEnd; lia).
    assert (F : firstn (index m) (doc (snd r)) = firstn (index m) (doc st)).
    { replace (index m) with (Nat.min (index m) (matchEnd m)) by lia.
      rewrite <- !firstn_firstn. rewrite Hpre. reflexivity. }
    assert (S : skipn (matchEnd m) (doc (snd r))
                = substituteFrom (blockFor h placeholderText viewFile)
                    (skipn (matchEnd m) (doc st)) (matchEnd m) ms).
    { rewrite IH.
      rewrite <- (firstn_length_le (doc st) Hend) at 1.
      apply skipn_length_app. }
    rewrite F, S. cbn [substituteFrom].
    rewrite (app_assoc (firstn lo (doc st))), firstn_firstn_skipn.
    replace (lo + (index m - lo)) with (index m) by lia.
    rewrite <- skipn_skipn_add.
    replace (lo + (matchEnd m - lo)) with (matchEnd m) by lia.
    reflexivity.
Qed.

(** X18. Step 1 in closed form: after the placeholder loop the note is
    the original text in which the span of every reference holds the
    block of that reference (the placeholder when the link resolves, the
    failure callout otherwise); the text between the references is
    untouched. *)
Theorem createPlaceholders_document (st : St) :
  doc_of (createPlaceholders h placeholderText viewFile (matchAll (doc st)) st)
  = substituteFrom (blockFor h placeholderText viewFile) (doc st) 0
      (matchAll (doc st)).
Proof.
  unfold doc_of, createPlaceholders.
  rewrite (forEach_substitute (matchAll (doc st)) 0 [] st (matchAll_placed (doc st))).
  reflexivity.
Qed.

End StepOne.

Section WholeRun.

Variable h : Host.
Variable sched : list nat.
Variable this : Plugin.

Lemma guards_passed :
  ready this ->
  Provider_eqb (provider (settings this)) gemini
  && isEmpty (geminiApiKey (settings this)) = false
  /\ Provider_eqb (provider (settings this)) openrouter
     && isEmpty (openrouterApiKey (settings this)) = false.
Proof.
  unfold ready. intros R. destruct (provider (settings this)); cbn; split;
    try reflexivity.
  - destruct (geminiApiKey (settings this)); [contradiction|reflexivity].
  - destruct (openrouterApiKey (settings this)); [contradiction|reflexivity].
Qed.

(** X19. A run with nothing to do only tells so: with the key set, when
    there is no active note, or the note holds no audio link, the command
    shows one notice, leaves the note as it is and calls no provider. *)
Theorem run_without_work_only_notifies (st : St) :
  ready this ->
  activeView h = None \/ matchAll (doc st) = [] ->
  transcribeAudioInNote h sched this st
  = (tt, mkSt (doc st)
           (trace st
            ++ [Notice match activeView h with
                       | None => lit "No active note to transcribe."
                       | Some _ => [26410; 25214; 21040; 38899; 39057]%N
                       end])).
Proof.
  intros R W. destruct (guards_passed R) as [G1 G2].
  unfold transcribeAudioInNote. rewrite G1, G2.
  destruct (activeView h) as [viewFile|] eqn:V.
  - destruct W as [W|W]; [discriminate|].
    unfold bind at 1, getValue at 1. rewrite W. reflexivity.
  - reflexivity.
Qed.

Lemma runJobs_nil (st : St) : runJobs h sched this [] st = (tt, st).
Proof. unfold runJobs, bind. cbn. destruct st; reflexivity. Qed.

Lemma createPlaceholders_grows_quietly (p : text -> text -> text)
    (viewFile : option text) (ms : list RegExpMatch) (st : St) :
  exists evs,
    trace (snd (createPlaceholders h p viewFile ms st)) = trace st ++ evs
    /\ transcribeCalls evs = [].
Proof.
  destruct (grows_forEach (processMatch h p viewFile) (rev ms)
              (fun acc a => grows_processMatch h p viewFile acc a) [] st) as [evs E].
  exists evs. split; [exact E|].
  pose proof (quiet_createPlaceholders h p viewFile ms st) as Q.
  unfold createPlaceholders in Q. rewrite E, transcribeCalls_app in Q.
  rewrite <- (app_nil_r (transcribeCalls (trace st))) in Q at 2.
  apply app_inv_head in Q. exact Q.
Qed.

Lemma settle_all_grows_quietly (l : list (Job * Result text)) (st : St) :
  exists evs,
    trace (snd (forEach (fun _ jr => settle jr) l tt st)) = trace st ++ evs
    /\ transcribeCalls evs = [].
Proof.
  destruct (settle_all_outcomes l st) as (evs & E & _).
  exists evs. split; [exact E|].
  pose proof (quiet_forEach (fun (_ : unit) jr => settle jr) l
                (fun _ => quiet_settle) tt st) as Q.
  rewrite E, transcribeCalls_app in Q.
  rewrite <- (app_nil_r (transcribeCalls (trace st))) in Q at 2.
  apply app_inv_head in Q. exact Q.
Qed.

(** X20. The order of a run past its guards: the notice of the links
    found; then the placeholder loop, which calls no provider; then the
    provider calls of all jobs, one per job in the order of the jobs,
    before any result is written; then the splices, which call no
    provider; and last, whatever the calls returned, the notice that all
    transcriptions are complete. *)
Theorem run_trace_order (st : St) (viewFile : option text) :
  ready this -> activeView h = Some viewFile -> matchAll (doc st) <> [] ->
  exists placeholders splices,
    trace_of (transcribeAudioInNote h sched this st)
    = trace st
      ++ [Notice (foundNotice this (length (matchAll (doc st))))]
      ++ placeholders
      ++ map (fun j => Transcribe (provider (settings this)) (filePath j))
           (jobsOfRun h this viewFile st)
      ++ splices
      ++ [Notice (lit "All transcriptions complete!")]
    /\ transcribeCalls placeholders = []
    /\ transcribeCalls splices = [].
Proof.
  intros R V Hms.
  rewrite (transcribeAudioInNote_run h sched this st viewFile R V Hms).
  cbv zeta. unfold jobsOfRun.
  set (st0 := snd (newNotice (foundNotice this (length (matchAll (doc st)))) st)).
  destruct (createPlaceholders_grows_quietly
              (placeholderBlock (provider (settings this))) viewFile
              (matchAll (doc st)) st0) as (pl & Epl & Qpl).
  set (r1 := createPlaceholders h (placeholderBlock (provider (settings this)))
               viewFile (matchAll (doc st)) st0) in *.
  unfold runJobs, bind. rewrite mapM_launch.
  match goal with
  | |- context [forEach _ ?l tt ?s] =>
      destruct (settle_all_grows_quietly l s) as (sp & Esp & Qsp)
  end.
  exists pl, sp. split; [|split; assumption].
  unfold trace_of, newNotice, emit. cbn [snd trace].
  cbn [trace] in Esp. rewrite Esp, Epl.
  unfold st0, newNotice, emit. cbn [snd trace].
  repeat rewrite <- app_assoc. reflexivity.
Qed.

Lemma createPlaceholders_not_a_file (p : text -> text -> text)
    (ms : list RegExpMatch) (st : St) :
  fst (createPlaceholders h p None ms st) = [].
Proof.
  pose proof (createPlaceholders_count h p None ms st) as C.
  assert (F : filter (resolves h None) ms = []).
  { clear C. induction ms as [|m ms IH]; [reflexivity|]. cbn. exact IH. }
  rewrite F in C. cbn in C.
  destruct (fst (createPlaceholders h p None ms st)); [reflexivity|discriminate].
Qed.

(** X21. When the active note is not a file, a run past its guards
    makes no job and calls no provider: every audio link of the note is
    replaced by the failure callout
    [> [!warning] Transcription Failed\n> Active note is not a file.\n> <link>\n],
    the rest of the note is untouched, and the run still ends with the
    notice that all transcriptions are complete. *)
Theorem run_on_a_note_without_file (st : St) :
  ready this -> activeView h = Some None -> matchAll (doc st) <> [] ->
  let r := transcribeAudioInNote h sched this st in
  doc_of r
  = substituteFrom
      (fun m => lit "> [!warning] Transcription Failed" ++ [NL]
                ++ lit "> Active note is not a file." ++ [NL]
                ++ lit "> " ++ m0 m ++ [NL])
      (doc st) 0 (matchAll (doc st))
  /\ transcribeCalls (trace_of r) = transcribeCalls (trace st)
  /\ exists evs, trace_of r = trace st ++ evs
                 ++ [Notice (lit "All transcriptions complete!")].
Proof.
  intros R V Hms r. subst r.
  rewrite (transcribeAudioInNote_run h sched this st None R V Hms).
  cbv zeta.
  set (st0 := snd (newNotice (foundNotice this (length (matchAll (doc st)))) st)).
  rewrite createPlaceholders_not_a_file, runJobs_nil.
  unfold doc_of, trace_of, newNotice, emit. cbn [snd doc trace].
  pose proof (forEach_substitute h (placeholderBlock (provider (settings this)))
                None (matchAll (doc st)) 0 [] st0 (matchAll_placed (doc st))) as D.
  split.
  { unfold createPlaceholders. rewrite D. cbn [firstn app skipn].
    apply substituteFrom_ext. intros m _. cbn [blockFor].
    apply notAFileBlock_text. }
  destruct (createPlaceholders_grows_quietly
              (placeholderBlock (provider (settings this))) None
              (matchAll (doc st)) st0) as (pl & Epl & Qpl).
  rewrite Epl. unfold st0, newNotice, emit. cbn [snd trace]. split.
  - repeat rewrite transcribeCalls_app. rewrite Qpl. cbn. 
    repeat rewrite app_nil_r. reflexivity.
  - exists (Notice (foundNotice this (length (matchAll (doc st)))) :: pl).
    repeat rewrite <- app_assoc. reflexivity.
Qed.

End WholeRun.

Lemma run_without_work_only_notifies_witness :
  transcribeAudioInNote (vaultHost echoAnswer) [] configured (open (lit "No audio here."))
  = (tt, mkSt (lit "No audio here.") [Notice [26410; 25214; 21040; 38899; 39057]%N]).
Proof.
  apply (run_without_work_only_notifies (vaultHost echoAnswer) [] configured
           (open (lit "No audio here."))).
  - vm_compute. discriminate.
  - right. reflexivity.
Defined.

Lemma run_trace_order_witness :
  exists placeholders splices,
    trace_of (transcribeAudioInNote (vaultHost rateLimited) [] configured (open clipDoc))
    = [Notice (foundNotice configured 1)]
      ++ placeholders
      ++ [Transcribe gemini (lit "/vault/Audio/clip.mp3")]
      ++ splices
      ++ [Notice (lit "All transcriptions complete!")].
Proof.
  destruct (run_trace_order (vaultHost rateLimited) [] configured (open clipDoc)
              (Some (lit "Notes/day.md")))
    as (pl & sp & E & _).
  - vm_compute. discriminate.
  - reflexivity.
  - vm_compute. discriminate.
  - exists pl, sp. exact E.
Defined.

Lemma run_on_a_note_without_file_witness :
  doc_of (transcribeAudioInNote
            (mkHost (Some None) (fun _ _ => None) (fun p => p) (fun p => Ok p)
                    (fun _ _ _ _ => Ok (lit "hi")) (fun _ _ _ _ => Ok (lit "hi")))
            [] configured (open clipDoc))
  = lit "Intro" ++ [NL]
    ++ lit "> [!warning] Transcription Failed" ++ [NL]
    ++ lit "> Active note is not a file." ++ [NL]
    ++ lit "> ![[clip.mp3]]" ++ [NL]
    ++ [NL] ++ lit "Outro".
Proof.
  destruct (run_on_a_note_without_file
              (mkHost (Some None) (fun _ _ => None) (fun p => p) (fun p => Ok p)
                 (fun _ _ _ _ => Ok (lit "hi")) (fun _ _ _ _ => Ok (lit "hi")))
              [] configured (open clipDoc)) as (D & _).
  - vm_compute. discriminate.
  - reflexivity.
  - vm_compute. discriminate.
  - rewrite D. vm_compute. reflexivity.
Defined.

(** *** The lines of the callouts *)

Lemma linesOf_nonempty (s : text) : linesOf s <> [].
Proof.
  induction s as [|c s IH]; cbn [linesOf]; [discriminate|].
  destruct (isNL c); [discriminate|].
  destruct (linesOf s); discriminate.
Qed.

Lemma linesOf_app_NL (a b : text) :
  linesOf (a ++ NL :: b) = linesOf a ++ linesOf b.
Proof.
  induction a as [|c a IH].
  - reflexivity.
  - cbn [app linesOf]. rewrite IH. destruct (isNL c); [reflexivity|].
    pose proof (linesOf_nonempty a) as N.
    destruct (linesOf a); [contradiction|reflexivity].
Qed.

Lemma linesOf_prefix (p s : text) :
  existsb isNL p = false ->
  linesOf (p ++ s) = (p ++ hd [] (linesOf s)) :: tl (linesOf s).
Proof.
  intros Hp. induction p as [|c p IH].
  - cbn [app]. pose proof (linesOf_nonempty s) as N.
    destruct (linesOf s); [contradiction|reflexivity].
  - cbn [existsb] in Hp. apply orb_false_elim in Hp. destruct Hp as [Hc Hp].
    cbn [app linesOf]. rewrite Hc, (IH Hp). reflexivity.
Qed.

Lemma linesOf_line (s : text) : existsb isNL s = false -> linesOf s = [s].
Proof.
  intros H. rewrite <- (app_nil_r s) at 1. rewrite (linesOf_prefix s [] H).
  cbn. rewrite app_nil_r. reflexivity.
Qed.

Lemma linesOf_formatTranscription (t : text) :
  linesOf (formatTranscription t)
  = hd [] (linesOf t) :: map (app (lit "> ")) (tl (linesOf t)).
Proof.
  induction t as [|c t IH]; [reflexivity|].
  pose proof (linesOf_nonempty t) as N.
  unfold formatTranscription in *. cbn [flat_map].
  destruct (isNL c) eqn:E.
  - match goal with
    | |- linesOf (_ ++ ?x) = ?rhs =>
        change (linesOf ([] ++ NL :: (lit "> " ++ x)) = rhs)
    end.
    rewrite linesOf_app_NL.
    rewrite (linesOf_prefix (lit "> ") _ eq_refl), IH.
    cbn [linesOf hd tl app]. rewrite E. cbn [hd tl].
    destruct (linesOf t) as [|l ls]; [contradiction|]. reflexivity.
  - cbn [app linesOf]. rewrite E, IH.
    destruct (linesOf t) as [|l ls]; [contradiction|]. reflexivity.
Qed.

(** X22. The success callout keeps a transcript of several lines inside
    the callout: its lines are the title, every line of the transcript
    behind the quote mark [> ], the quoted link, and an empty last line. *)
Theorem finalBlock_lines (transcriptionText originalLink : text) :
  existsb isNL originalLink = false ->
  linesOf (finalBlock transcriptionText originalLink)
  = lit "> [!tip] Audio Note"
    :: map (app (lit "> ")) (linesOf transcriptionText)
    ++ [lit "> " ++ originalLink; []].
Proof.
  intros Hl. unfold finalBlock, tipHeader, quoted.
  repeat rewrite <- app_assoc. cbn [app].
  rewrite (linesOf_app_NL (lit "> [!tip] Audio Note")).
  rewrite (linesOf_line (lit "> [!tip] Audio Note") eq_refl).
  rewrite (app_assoc (lit "> ") (formatTranscription transcriptionText)).
  rewrite linesOf_app_NL.
  rewrite (app_assoc (lit "> ") originalLink).
  rewrite linesOf_app_NL.
  rewrite (linesOf_prefix (lit "> ") _ eq_refl), linesOf_formatTranscription.
  rewrite (linesOf_line (lit "> " ++ originalLink)).
  - pose proof (linesOf_nonempty transcriptionText) as N.
    destruct (linesOf transcriptionText) as [|l ls]; [contradiction|].
    cbn [hd tl map app linesOf]. reflexivity.
  - rewrite existsb_app. rewrite Hl. reflexivity.
Qed.

Lemma finalBlock_lines_witness :
  linesOf (finalBlock (lit "one" ++ [NL] ++ lit "two") (lit "![[a.mp3]]"))
  = [lit "> [!tip] Audio Note"; lit "> one"; lit "> two"; lit "> ![[a.mp3]]"; []].
Proof.
  apply (finalBlock_lines (lit "one" ++ [NL] ++ lit "two") (lit "![[a.mp3]]")).
  reflexivity.
Defined.

(** X23. The failure callout quotes the first line of the message only:
    its lines are the title, the first line of the message behind the
    quote mark, the further lines of the message as they are, the quoted
    link, and an empty last line. *)
Theorem errorBlock_lines (message originalLink : text) :
  existsb isNL originalLink = false ->
  linesOf (errorBlock message originalLink)
  = lit "> [!warning] Transcription Failed"
    :: (lit "> " ++ hd [] (linesOf message))
    :: tl (linesOf message)
    ++ [lit "> " ++ originalLink; []].
Proof.
  intros Hl. unfold errorBlock, warningHeader, quoted.
  repeat rewrite <- app_assoc. cbn [app].
  rewrite (linesOf_app_NL (lit "> [!warning] Transcription Failed")).
  rewrite (linesOf_line (lit "> [!warning] Transcription Failed") eq_refl).
  rewrite (app_assoc (lit "> ") message).
  rewrite linesOf_app_NL.
  rewrite (app_assoc (lit "> ") originalLink).
  rewrite linesOf_app_NL.
  rewrite (linesOf_prefix (lit "> ") _ eq_refl).
  rewrite (linesOf_line (lit "> " ++ originalLink)).
  - cbn [app linesOf]. reflexivity.
  - rewrite existsb_app. rewrite Hl. reflexivity.
Qed.

Lemma errorBlock_lines_witness :
  linesOf (errorBlock (lit "quota exceeded" ++ [NL] ++ lit "retry later")
             (lit "![[a.mp3]]"))
  = [lit "> [!warning] Transcription Failed"; lit "> quota exceeded";
     lit "retry later"; lit "> ![[a.mp3]]"; []].
Proof.
  apply (errorBlock_lines (lit "quota exceeded" ++ [NL] ++ lit "retry later")
           (lit "![[a.mp3]]")).
  reflexivity.
Defined.

(** *** The Gemini-only revision *)

Lemma geminiOnly_session_from (changes : list GeminiOnlyLifecycle.SettingChange)
    (l : GeminiOnlyLifecycle.Loaded) :
  (GeminiOnlyLifecycle.loadSettings (GeminiOnlyLifecycle.stored l)
   = GeminiOnly.settings (GeminiOnlyLifecycle.plugin l)
   /\ GeminiOnlyLifecycle.plugin l
      = GeminiOnlyLifecycle.services (GeminiOnly.settings (GeminiOnlyLifecycle.plugin l))) ->
  let l' := fold_left GeminiOnlyLifecycle.onChange changes l in
  GeminiOnlyLifecycle.loadSettings (GeminiOnlyLifecycle.stored l')
  = GeminiOnly.settings (GeminiOnlyLifecycle.plugin l')
  /\ GeminiOnlyLifecycle.plugin l'
     = GeminiOnlyLifecycle.services (GeminiOnly.settings (GeminiOnlyLifecycle.plugin l')).
Proof.
  revert l. induction changes as [|c changes IH]; intros l H; [exact H|].
  cbn [fold_left]. apply IH.
  unfold GeminiOnlyLifecycle.onChange, GeminiOnlyLifecycle.saveSettings.
  cbn [GeminiOnlyLifecycle.stored GeminiOnlyLifecycle.plugin GeminiOnly.settings
       GeminiOnlyLifecycle.services].
  split; [|reflexivity].
  destruct c; reflexivity.
Qed.

(** X24. In the Gemini-only revision too, throughout a session the stored
    data read back gives the settings in memory and the client holds the
    key of those settings; loading again from storage gives the same
    plugin and saves nothing. *)
Theorem geminiOnly_session_persists (data : option GeminiOnlyLifecycle.StoredData)
    (changes : list GeminiOnlyLifecycle.SettingChange) :
  let l := GeminiOnlyLifecycle.session data changes in
  GeminiOnlyLifecycle.loadSettings (GeminiOnlyLifecycle.stored l)
  = GeminiOnly.settings (GeminiOnlyLifecycle.plugin l)
  /\ GeminiService.apiKey (GeminiOnly.geminiService (GeminiOnlyLifecycle.plugin l))
     = GeminiOnly.geminiApiKey (GeminiOnly.settings (GeminiOnlyLifecycle.plugin l))
  /\ GeminiOnlyLifecycle.plugin (GeminiOnlyLifecycle.onload (GeminiOnlyLifecycle.stored l))
     = GeminiOnlyLifecycle.plugin l
  /\ GeminiOnlyLifecycle.lifecycle
       (GeminiOnlyLifecycle.onload (GeminiOnlyLifecycle.stored l))
     = [GeminiOnlyLifecycle.AddCommand (lit "transcribe-audio-in-note");
        GeminiOnlyLifecycle.AddSettingTab].
Proof.
  intros l.
  destruct (geminiOnly_session_from changes (GeminiOnlyLifecycle.onload data))
    as [Hs Hp].
  { split; reflexivity. }
  fold (GeminiOnlyLifecycle.session data changes) in Hs, Hp. fold l in Hs, Hp.
  split; [exact Hs|]. split; [|split].
  - rewrite Hp. reflexivity.
  - unfold GeminiOnlyLifecycle.onload. cbn [GeminiOnlyLifecycle.plugin].
    rewrite Hs. symmetry. exact Hp.
  - reflexivity.
Qed.

(** X25. The command of the Gemini-only revision with nothing to do only
    tells so: with the key set, when there is no active note, or the note
    holds no audio link, it shows one notice, leaves the note as it is
    and calls no provider. *)
Theorem geminiOnly_run_without_work_only_notifies (h : Host) (sched : list nat)
    (this : GeminiOnly.Plugin) (st : St) :
  GeminiOnly.geminiApiKey (GeminiOnly.settings this) <> [] ->
  activeView h = None \/ matchAll (doc st) = [] ->
  GeminiOnly.transcribeAudioInNote h sched this st
  = (tt, mkSt (doc st)
           (trace st
            ++ [Notice match activeView h with
                       | None => lit "No active note to transcribe."
                       | Some _ => [26410; 25214; 21040; 38899; 39057]%N
                       end])).
Proof.
  intros K W. unfold GeminiOnly.transcribeAudioInNote.
  destruct (GeminiOnly.geminiApiKey (GeminiOnly.settings this)); [contradiction|].
  cbn [isEmpty].
  destruct (activeView h) as [viewFile|] eqn:V.
  - destruct W as [W|W]; [discriminate|].
    unfold bind at 1, getValue at 1. rewrite W. reflexivity.
  - reflexivity.
Qed.

Lemma geminiOnly_run_without_work_only_notifies_witness :
  GeminiOnly.transcribeAudioInNote (vaultHost echoAnswer) [] configuredGeminiOnly
    (open (lit "![[photo.png]]"))
  = (tt, mkSt (lit "![[photo.png]]") [Notice [26410; 25214; 21040; 38899; 39057]%N]).
Proof.
  apply (geminiOnly_run_without_work_only_notifies (vaultHost echoAnswer) []
           configuredGeminiOnly (open (lit "![[photo.png]]"))).
  - vm_compute. discriminate.
  - right. reflexivity.
Defined.

(** *** The note at the end of a run *)

Lemma hourglassFree_app (a b : text) :
  hourglassFree (a ++ b) = hourglassFree a && hourglassFree b.
Proof. unfold hourglassFree. rewrite existsb_app, negb_orb. reflexivity. Qed.

Lemma hourglassFree_firstn (k : nat) (s : text) :
  hourglassFree s = true -> hourglassFree (firstn k s) = true.
Proof.
  intros H. rewrite <- (firstn_skipn k s), hourglassFree_app in H.
  apply andb_prop in H. apply H.
Qed.

Lemma hourglassFree_skipn (k : nat) (s : text) :
  hourglassFree s = true -> hourglassFree (skipn k s) = true.
Proof.
  intros H. rewrite <- (firstn_skipn k s), hourglassFree_app in H.
  apply andb_prop in H. apply H.
Qed.

Lemma hourglassFree_nth (s : text) (i : nat) :
  hourglassFree s = true -> nth_error s i <> Some hourglass.
Proof.
  revert i. induction s as [|c s IH]; intros i H E.
  - destruct i; discriminate.
  - unfold hourglassFree in H. cbn [existsb] in H. rewrite negb_orb in H.
    apply andb_prop in H. destruct H as [Hc Hs].
    destruct i as [|i].
    + cbn in E. injection E as ->. rewrite cu_eqb_refl in Hc. discriminate.
    + cbn [nth_error] in E. exact (IH i Hs E).
Qed.

Lemma mark_position (A B : text) (i : nat) :
  hourglassFree A = true -> hourglassFree B = true ->
  nth_error (A ++ hourglass :: B) i = Some hourglass -> i = length A.
Proof.
  intros HA HB E.
  destruct (Nat.lt_ge_cases i (length A)) as [Hlt|Hge].
  - rewrite nth_error_app1 in E by exact Hlt.
    exfalso. exact (hourglassFree_nth A i HA E).
  - rewrite nth_error_app2 in E by exact Hge.
    destruct (i - length A) as [|k] eqn:Ek; [lia|].
    cbn [nth_error] in E. exfalso. exact (hourglassFree_nth B k HB E).
Qed.

Lemma flatten_app (ph : text -> text) (l1 l2 : list Piece) :
  flatten ph (l1 ++ l2) = flatten ph l1 ++ flatten ph l2.
Proof. apply flat_map_app. Qed.

Lemma flatten_cons (ph : text -> text) (pc : Piece) (l : list Piece) :
  flatten ph (pc :: l) = pieceText ph pc ++ flatten ph l.
Proof. reflexivity. Qed.

Lemma pendingNames_app (l1 l2 : list Piece) :
  pendingNames (l1 ++ l2) = pendingNames l1 ++ pendingNames l2.
Proof. apply flat_map_app. Qed.

Lemma split_compare {A} (l1 l2 l1' l2' : list A) (a a' : A) :
  l1 ++ a :: l2 = l1' ++ a' :: l2' ->
  (exists m, l1 = l1' ++ a' :: m) \/ (l1 = l1' /\ a = a')
  \/ (exists m, l1' = l1 ++ a :: m).
Proof.
  revert l1'. induction l1 as [|x l1 IH]; intros l1' E.
  - destruct l1' as [|y l1'].
    + right. left. injection E as -> _. split; reflexivity.
    + right. right. injection E as -> E. exists l1'. reflexivity.
  - destruct l1' as [|y l1'].
    + left. injection E as -> E. exists l1. reflexivity.
    + injection E as -> E. destruct (IH l1' E) as [[m ->]|[[-> ->]|[m ->]]].
      * left. exists m. reflexivity.
      * right. left. split; reflexivity.
      * right. right. exists m. reflexivity.
Qed.

Lemma first_pending (pieces : list Piece) (f : text) :
  In f (pendingNames pieces) ->
  exists pre post,
    pieces = pre ++ Pending f :: post /\ ~ In f (pendingNames pre).
Proof.
  induction pieces as [|pc pieces IH]; intros H; [destruct H|].
  destruct pc as [t|g].
  - cbn in H. destruct (IH H) as (pre & post & -> & Hn).
    exists (Inert t :: pre), post. split; [reflexivity|]. exact Hn.
  - destruct (text_eqb g f) eqn:E.
    + apply text_eqb_eq in E. subst g. exists [], pieces.
      split; [reflexivity|]. intros [].
    + cbn in H. destruct H as [H|H].
      * subst g. rewrite text_eqb_refl in E. discriminate.
      * destruct (IH H) as (pre & post & -> & Hn).
        exists (Pending g :: pre), post. split; [reflexivity|].
        cbn. intros [Hg|Hin]; [|exact (Hn Hin)].
        subst g. rewrite text_eqb_refl in E. discriminate.
Qed.

Lemma resolveAll_no_pending (ph : text -> text) (res : text -> text)
    (pieces : list Piece) :
  pendingNames pieces = [] ->
  flatten ph (resolveAll res pieces) = flatten ph pieces.
Proof.
  induction pieces as [|[t|g] pieces IH]; intros H.
  - reflexivity.
  - cbn [resolveAll map]. rewrite !flatten_cons. cbn [pieceText].
    f_equal. apply IH. exact H.
  - discriminate.
Qed.

Lemma resolveAll_app (res : text -> text) (l1 l2 : list Piece) :
  resolveAll res (l1 ++ l2) = resolveAll res l1 ++ resolveAll res l2.
Proof. apply map_app. Qed.

(** Step 2 on a note made of pieces, for a placeholder wording [ph] that
    carries the hourglass after the title line and tells the file names
    apart, and for the continuation [settleJob] of either revision. *)
Section Layout.

Variable ph : text -> text.

Hypothesis ph_mark :
  forall f, hourglassFree f = true ->
  exists B, ph f = (tipHeader ++ lit "> ") ++ hourglass :: B
            /\ hourglassFree B = true.

Hypothesis ph_inj :
  forall f g c c', noLineBreak f = true -> noLineBreak g = true ->
  ph f ++ c = ph g ++ c' -> f = g.

Variable settleJob : Job * Result text -> M unit.
Variable resultOf : Job * Result text -> text.

Hypothesis settleJob_document :
  forall jr st, exists tr,
    doc (snd (settleJob jr st))
    = doc_of (updateCallout (fst jr) (resultOf jr) (mkSt (doc st) tr)).

Lemma occurrence_has_mark (f d : text) (j : nat) :
  hourglassFree f = true ->
  startsWith (ph f) (skipn j d) = true ->
  nth_error d (j + length (tipHeader ++ lit "> ")) = Some hourglass.
Proof.
  intros Hf H. destruct (ph_mark f Hf) as (B & E & _).
  apply startsWith_inv in H. rewrite <- nth_error_skipn, H, E.
  rewrite <- app_assoc. rewrite nth_error_app2 by lia.
  rewrite Nat.sub_diag. reflexivity.
Qed.

(** Every hourglass of the note is the one of a pending placeholder. *)
Lemma mark_in_pieces (pieces : list Piece) (i : nat) :
  Forall goodPiece pieces ->
  nth_error (flatten ph pieces) i = Some hourglass ->
  exists pre g post,
    pieces = pre ++ Pending g :: post
    /\ i = length (flatten ph pre) + length (tipHeader ++ lit "> ").
Proof.
  revert i. induction pieces as [|pc pieces IH]; intros i G E.
  - destruct i; discriminate.
  - inversion G as [|? ? Gpc Grest]; subst. rewrite flatten_cons in E.
    destruct (Nat.lt_ge_cases i (length (pieceText ph pc))) as [Hlt|Hge].
    + rewrite nth_error_app1 in E by exact Hlt.
      destruct pc as [t|g]; cbn [pieceText goodPiece] in *.
      * exfalso. exact (hourglassFree_nth t i Gpc E).
      * destruct Gpc as [_ Hg].
        destruct (ph_mark g Hg) as (B & EB & HB).
        rewrite EB in E. apply mark_position in E; [|reflexivity|exact HB].
        exists [], g, pieces. split; [reflexivity|]. cbn. exact E.
    + rewrite nth_error_app2 in E by exact Hge.
      destruct (IH _ Grest E) as (pre & g & post & -> & Ei).
      exists (pc :: pre), g, post. split; [reflexivity|].
      rewrite flatten_cons, length_app. lia.
Qed.

(** The first occurrence of a placeholder text in the note is the first
    pending placeholder of that file name. *)
Lemma first_pending_found (pre post : list Piece) (f : text) :
  Forall goodPiece (pre ++ Pending f :: post) ->
  ~ In f (pendingNames pre) ->
  indexOf (flatten ph pre ++ ph f ++ flatten ph post) (ph f)
  = Some (length (flatten ph pre)).
Proof.
  intros G Hpre. apply indexOf_first. intros j Hj.
  destruct (startsWith (ph f) (skipn j _)) eqn:E; [|reflexivity].
  exfalso.
  assert (Gf : noLineBreak f = true /\ hourglassFree f = true).
  { rewrite Forall_forall in G. apply (G (Pending f)).
    apply in_or_app. right. left. reflexivity. }
  pose proof (occurrence_has_mark f _ j (proj2 Gf) E) as Hm.
  change (flatten ph pre ++ ph f ++ flatten ph post)
    with (flatten ph pre ++ flatten ph (Pending f :: post)) in Hm, E.
  rewrite <- flatten_app in Hm, E.
  destruct (mark_in_pieces _ _ G Hm) as (pre' & g & post' & Es & Ej).
  assert (Ej' : j = length (flatten ph pre')) by lia. clear Ej.
  assert (Gg : noLineBreak g = true /\ hourglassFree g = true).
  { rewrite Forall_forall in G. apply (G (Pending g)). rewrite Es.
    apply in_or_app. right. left. reflexivity. }
  assert (Efg : f = g).
  { rewrite Es, flatten_app, Ej', skipn_length_app, flatten_cons in E.
    apply startsWith_iff in E. destruct E as [t E].
    cbn [pieceText] in E. symmetry.
    exact (ph_inj g f _ _ (proj1 Gg) (proj1 Gf) E). }
  subst g.
  destruct (split_compare _ _ _ _ _ _ Es) as [[m E1]|[[E1 _]|[m E1]]].
  - apply Hpre. rewrite E1, pendingNames_app. apply in_or_app. right.
    left. reflexivity.
  - subst pre'. lia.
  - rewrite E1, flatten_app, length_app in Ej'. lia.
Qed.

(** Whatever the order in which the jobs settle, every pending
    placeholder ends as the result of its file name. *)
Lemma settle_all_document (res : text -> text)
    (order : list (Job * Result text)) (pieces : list Piece) (st : St) :
  Forall goodPiece pieces ->
  (forall f, In f (pendingNames pieces) -> hourglassFree (res f) = true) ->
  Forall (fun jr =>
            jobPlaceholder (fst jr) = ph (fileName (fst jr))
            /\ resultOf jr = res (fileName (fst jr))) order ->
  Permutation (pendingNames pieces) (map (fun jr => fileName (fst jr)) order) ->
  doc st = flatten ph pieces ->
  doc (snd (forEach (fun _ jr => settleJob jr) order tt st))
  = flatten ph (resolveAll res pieces).
Proof.
  revert pieces st. induction order as [|jr order IH]; intros pieces st G Hres F P D.
  - cbn [map] in P. apply Permutation_sym, Permutation_nil in P.
    cbn [forEach]. unfold ret. cbn [snd]. rewrite D.
    symmetry. apply resolveAll_no_pending. exact P.
  - inversion F as [|? ? [Hq Hr] F']; subst.
    cbn [map] in P.
    assert (Hin : In (fileName (fst jr)) (pendingNames pieces)).
    { apply (Permutation_in _ (Permutation_sym P)). left. reflexivity. }
    destruct (first_pending pieces _ Hin) as (pre & post & -> & Hn).
    rewrite forEach_cons. destruct (fst (settleJob jr st)).
    replace (resolveAll res (pre ++ Pending (fileName (fst jr)) :: post))
      with (resolveAll res (pre ++ Inert (res (fileName (fst jr))) :: post))
      by (rewrite !resolveAll_app; reflexivity).
    apply (IH (pre ++ Inert (res (fileName (fst jr))) :: post)).
    + apply Forall_app in G. destruct G as [G1 G2].
      inversion G2 as [|? ? _ G3]; subst.
      apply Forall_app. split; [exact G1|]. constructor; [|exact G3].
      cbn [goodPiece]. apply Hres. exact Hin.
    + intros f Hf. apply Hres. rewrite pendingNames_app in *.
      apply in_app_or in Hf. apply in_or_app.
      destruct Hf as [Hf|Hf]; [left; exact Hf|right; right; exact Hf].
    + exact F'.
    + rewrite pendingNames_app in *. cbn [pendingNames flat_map app] in *.
      apply Permutation_sym. apply Permutation_sym in P.
      apply Permutation_cons_app_inv in P. exact P.
    + destruct (settleJob_document jr st) as [tr E]. rewrite E, D.
      rewrite flatten_app, flatten_cons. cbn [pieceText].
      rewrite <- Hq, <- Hr.
      rewrite (updateCallout_at (fst jr) _ (flatten ph pre) (flatten ph post) tr).
      * rewrite flatten_app, flatten_cons. reflexivity.
      * rewrite Hq. apply first_pending_found; assumption.
Qed.

End Layout.

Lemma flatten_resolved_piecesFrom (ph : text -> text) (resolved : RegExpMatch -> bool)
    (block : RegExpMatch -> text) (res : text -> text) (s : text) (pos : nat)
    (ms : list RegExpMatch) :
  flatten ph (resolveAll res (piecesFrom resolved block s pos ms))
  = substituteFrom (fun m => if resolved m then res (m1 m) else block m) s pos ms.
Proof.
  revert s pos. induction ms as [|m ms IH]; intros s pos.
  - cbn. apply app_nil_r.
  - cbn [piecesFrom substituteFrom resolveAll map].
    fold (resolveAll res (piecesFrom resolved block (skipn (matchEnd m - pos) s)
                            (matchEnd m) ms)).
    rewrite !flatten_cons, IH. cbn [pieceText].
    destruct (resolved m); reflexivity.
Qed.

Lemma pendingNames_piecesFrom (resolved : RegExpMatch -> bool)
    (block : RegExpMatch -> text) (s : text) (pos : nat) (ms : list RegExpMatch) :
  pendingNames (piecesFrom resolved block s pos ms) = map m1 (filter resolved ms).
Proof.
  revert s pos. induction ms as [|m ms IH]; intros s pos; [reflexivity|].
  cbn [piecesFrom filter]. unfold pendingNames in *. cbn [flat_map app].
  rewrite IH. destruct (resolved m); reflexivity.
Qed.

Lemma good_piecesFrom (resolved : RegExpMatch -> bool) (block : RegExpMatch -> text)
    (s : text) (pos : nat) (ms : list RegExpMatch) :
  hourglassFree s = true ->
  Forall (fun m => noLineBreak (m1 m) = true /\ hourglassFree (m1 m) = true
                   /\ (resolved m = false -> hourglassFree (block m) = true)) ms ->
  Forall goodPiece (piecesFrom resolved block s pos ms).
Proof.
  revert s pos. induction ms as [|m ms IH]; intros s pos Hs F.
  - constructor; [exact Hs|constructor].
  - inversion F as [|? ? (Hn & Hf & Hb) F']; subst. cbn [piecesFrom].
    constructor; [apply hourglassFree_firstn; exact Hs|].
    constructor.
    + destruct (resolved m); cbn [goodPiece]; [split; assumption|].
      apply Hb. reflexivity.
    + apply IH; [apply hourglassFree_skipn; exact Hs|exact F'].
Qed.

Lemma matchAll_In_scanned (content : text) (m : RegExpMatch) :
  In m (matchAll content) -> scanned m.
Proof.
  intros Hin. destruct (matchAll_In_inv content m Hin) as [H H0].
  apply matchHere_Some in H. split; [exact H0|apply H].
Qed.

Lemma matchAll_In_hourglassFree (content : text) (m : RegExpMatch) :
  hourglassFree content = true -> In m (matchAll content) ->
  hourglassFree (m0 m) = true /\ hourglassFree (m1 m) = true.
Proof.
  intros Hc Hin. destruct (matchAll_In_inv content m Hin) as [H H0].
  apply matchHere_Some in H. destruct H as [H _]. rewrite <- H0 in H.
  apply startsWith_iff in H. destruct H as [t E].
  pose proof (hourglassFree_skipn (index m) content Hc) as Hs.
  rewrite E, hourglassFree_app in Hs. apply andb_prop in Hs. destruct Hs as [Hs _].
  split; [exact Hs|].
  rewrite H0, !hourglassFree_app in Hs.
  apply andb_prop in Hs. destruct Hs as [_ Hs].
  apply andb_prop in Hs. apply Hs.
Qed.

Lemma failure_blocks_hourglassFree (h : Host) (p : text -> text -> text)
    (viewFile : option text) (m : RegExpMatch) :
  hourglassFree (m0 m) = true -> hourglassFree (m1 m) = true ->
  resolves h viewFile m = false ->
  hourglassFree (blockFor h p viewFile m) = true.
Proof.
  intros H0 H1 R. unfold resolves in R. unfold blockFor.
  destruct viewFile as [sourcePath|].
  - destruct (getFirstLinkpathDest h (m1 m) sourcePath); [discriminate|].
    unfold notFoundBlock, errorBlock, quoted.
    repeat rewrite hourglassFree_app. rewrite H0, H1. reflexivity.
  - unfold notAFileBlock, errorBlock, quoted.
    repeat rewrite hourglassFree_app. rewrite H0. reflexivity.
Qed.

Lemma Forall2_map_eq {A B C} (R : A -> B -> Prop) (f : A -> C) (g : B -> C)
    (l : list A) (l' : list B) :
  (forall x y, R x y -> f x = g y) -> Forall2 R l l' -> map f l = map g l'.
Proof.
  intros H F. induction F as [|x y l l' Hxy F IH]; [reflexivity|].
  cbn [map]. rewrite (H x y Hxy), IH. reflexivity.
Qed.

(** Steps 1 and 2 together, for the placeholder wording, the provider
    call and the continuation of either revision. *)
Section BothSteps.

Variable h : Host.
Variable placeholderText : text -> text -> text.
Variable viewFile : option text.
Variable call : text -> Result text.
Variable rb : Result text -> text -> text.
Variable settleJob : Job * Result text -> M unit.

Local Abbreviation nameText := (fun f => placeholderText f (opener ++ f ++ closer))
  (only parsing).

Hypothesis placeholder_mark :
  forall f, hourglassFree f = true ->
  exists B, placeholderText f (opener ++ f ++ closer)
            = (tipHeader ++ lit "> ") ++ hourglass :: B
            /\ hourglassFree B = true.

Hypothesis placeholder_inj :
  forall f g c c', noLineBreak f = true -> noLineBreak g = true ->
  placeholderText f (opener ++ f ++ closer) ++ c
  = placeholderText g (opener ++ g ++ closer) ++ c' -> f = g.

Hypothesis settleJob_document :
  forall jr st, exists tr,
    doc (snd (settleJob jr st))
    = doc_of (updateCallout (fst jr) (rb (snd jr) (originalLink (fst jr)))
                (mkSt (doc st) tr)).

Lemma flatten_piecesFrom (s : text) (pos : nat) (ms : list RegExpMatch) :
  Forall scanned ms ->
  flatten nameText
    (piecesFrom (resolves h viewFile) (blockFor h placeholderText viewFile) s pos ms)
  = substituteFrom (blockFor h placeholderText viewFile) s pos ms.
Proof.
  revert s pos. induction ms as [|m ms IH]; intros s pos F.
  - cbn. apply app_nil_r.
  - inversion F as [|? ? [H0 _] F']; subst.
    cbn [piecesFrom substituteFrom]. rewrite !flatten_cons, (IH _ _ F').
    cbn [pieceText]. f_equal. f_equal.
    unfold resolves, blockFor. destruct viewFile as [sourcePath|]; [|reflexivity].
    destruct (getFirstLinkpathDest h (m1 m) sourcePath); [|reflexivity].
    cbn [pieceText]. rewrite H0. reflexivity.
Qed.

Lemma outcomeOf_name (m : RegExpMatch) :
  scanned m ->
  resolves h viewFile m = true ->
  outcomeOf h call rb viewFile m = resultOfName h call rb viewFile (m1 m).
Proof.
  intros [H0 _] R. unfold resultOfName, outcomeOf, resolves in *.
  cbn [m0 m1]. destruct viewFile as [sourcePath|]; [|discriminate].
  destruct (getFirstLinkpathDest h (m1 m) sourcePath); [|discriminate].
  rewrite H0. reflexivity.
Qed.

Lemma outcomeOf_unresolved (m : RegExpMatch) :
  resolves h viewFile m = false ->
  blockFor h placeholderText viewFile m = outcomeOf h call rb viewFile m.
Proof.
  intros R. unfold outcomeOf, blockFor, resolves in *.
  destruct viewFile as [sourcePath|]; [|reflexivity].
  destruct (getFirstLinkpathDest h (m1 m) sourcePath); [discriminate|reflexivity].
Qed.

Lemma job_of_scanned_match (m : RegExpMatch) (j : Job) :
  scanned m ->
  jobFor h placeholderText viewFile m j ->
  jobPlaceholder j = placeholderText (fileName j) (opener ++ fileName j ++ closer)
  /\ rb (call (filePath j)) (originalLink j)
     = resultOfName h call rb viewFile (fileName j).
Proof.
  intros [H0 _] (Hq & Hl & Hf & sourcePath & file & Hv & Hr & Hp).
  split.
  - rewrite Hq, Hf, H0. reflexivity.
  - unfold resultOfName, outcomeOf. cbn [m0 m1].
    rewrite Hv, Hf, Hr, Hp, Hl, H0. reflexivity.
Qed.

(** The note after the placeholder loop on [st0] and the splices of the
    created jobs, settled in the order [sched] gives. *)
Lemma both_steps_document (sched : list nat) (st0 st1 : St) :
  let ms := matchAll (doc st0) in
  let r1 := createPlaceholders h placeholderText viewFile ms st0 in
  let running := map (fun j => (j, call (filePath j))) (fst r1) in
  hourglassFree (doc st0) = true ->
  (forall m, In m ms -> hourglassFree (outcomeOf h call rb viewFile m) = true) ->
  doc st1 = doc (snd r1) ->
  doc (snd (forEach (fun _ jr => settleJob jr) (settleOrder sched running) tt st1))
  = substituteFrom (outcomeOf h call rb viewFile) (doc st0) 0 ms.
Proof.
  intros ms r1 running Hc Hout D.
  set (block := blockFor h placeholderText viewFile).
  set (pieces := piecesFrom (resolves h viewFile) block (doc st0) 0 ms).
  set (res := resultOfName h call rb viewFile).
  assert (Hsc : Forall scanned ms).
  { apply Forall_forall. intros m Hm. exact (matchAll_In_scanned _ m Hm). }
  assert (D1 : doc st1 = flatten nameText pieces).
  { unfold pieces, block. rewrite (flatten_piecesFrom _ _ _ Hsc).
    rewrite D. unfold r1, createPlaceholders.
    rewrite (forEach_substitute h placeholderText viewFile ms 0 [] st0).
    - reflexivity.
    - exact (matchAll_placed (doc st0)). }
  pose proof (createPlaceholders_jobs h placeholderText viewFile ms st0) as J.
  fold r1 in J.
  rewrite (settle_all_document nameText placeholder_mark placeholder_inj settleJob
             (fun jr => rb (snd jr) (originalLink (fst jr))) settleJob_document
             res (settleOrder sched running) pieces).
  - unfold pieces. rewrite flatten_resolved_piecesFrom.
    apply substituteFrom_ext. intros m Hm.
    destruct (resolves h viewFile m) eqn:Rm.
    + symmetry. apply outcomeOf_name; [|exact Rm].
      rewrite Forall_forall in Hsc. exact (Hsc m Hm).
    + apply outcomeOf_unresolved. exact Rm.
  - apply good_piecesFrom; [exact Hc|]. apply Forall_forall. intros m Hm.
    destruct (matchAll_In_hourglassFree (doc st0) m Hc Hm) as [H0 H1].
    rewrite Forall_forall in Hsc. destruct (Hsc m Hm) as [_ Hn].
    split; [exact Hn|]. split; [exact H1|].
    intros Rm. apply failure_blocks_hourglassFree; assumption.
  - intros f Hf. unfold pieces in Hf. rewrite pendingNames_piecesFrom in Hf.
    apply in_map_iff in Hf. destruct Hf as (m & <- & Hm).
    apply filter_In in Hm. destruct Hm as [Hm Rm].
    unfold res. rewrite <- outcomeOf_name; [apply Hout; exact Hm| |exact Rm].
    rewrite Forall_forall in Hsc. exact (Hsc m Hm).
  - apply (Permutation_Forall (Permutation_sym (settleOrder_perm sched running))).
    unfold running. apply Forall_forall. intros jr Hjr.
    apply in_map_iff in Hjr. destruct Hjr as (j & <- & Hj). cbn [fst snd].
    destruct (Forall2_In_right _ _ _ j J Hj) as (m & Hm & Hjob).
    apply filter_In in Hm. destruct Hm as [Hm _]. apply in_rev in Hm.
    rewrite Forall_forall in Hsc.
    exact (job_of_scanned_match m j (Hsc m Hm) Hjob).
  - unfold pieces. rewrite pendingNames_piecesFrom.
    eapply Permutation_trans;
      [|apply Permutation_map, Permutation_sym, settleOrder_perm].
    unfold running. rewrite map_map. cbn [fst].
    rewrite <- (Forall2_map_eq _ m1 (fun x : Job => fileName x) _ _
                  (fun m j (Hj : jobFor h placeholderText viewFile m j) =>
                     eq_sym (proj1 (proj2 (proj2 Hj)))) J).
    rewrite filter_rev, map_rev. apply Permutation_rev.
  - exact D1.
Qed.

End BothSteps.

(** The two placeholder wordings. *)
Lemma placeholder_mark (p : Provider) (f : text) :
  hourglassFree f = true ->
  exists B,
    placeholderBlock p f (opener ++ f ++ closer)
    = (tipHeader ++ lit "> ") ++ hourglass :: B
    /\ hourglassFree B = true.
Proof.
  intros Hf.
  exists (lit " Transcribing " ++ f ++ lit " with " ++ providerName p ++ lit "..."
          ++ [NL] ++ quoted (opener ++ f ++ closer)).
  split.
  - unfold placeholderBlock, quoted.
    repeat (rewrite <- app_assoc || rewrite <- app_comm_cons). reflexivity.
  - unfold quoted. repeat rewrite hourglassFree_app. rewrite Hf.
    destruct p; reflexivity.
Qed.

Lemma geminiOnly_placeholder_mark (f : text) :
  hourglassFree f = true ->
  exists B,
    GeminiOnly.placeholderBlock f (opener ++ f ++ closer)
    = (tipHeader ++ lit "> ") ++ hourglass :: B
    /\ hourglassFree B = true.
Proof.
  intros Hf.
  exists (lit " Transcribing " ++ f ++ lit "..."
          ++ [NL] ++ quoted (opener ++ f ++ closer)).
  split.
  - unfold GeminiOnly.placeholderBlock, quoted.
    repeat (rewrite <- app_assoc || rewrite <- app_comm_cons). reflexivity.
  - unfold quoted. repeat rewrite hourglassFree_app. rewrite Hf. reflexivity.
Qed.

Lemma geminiOnly_placeholder_prefix_inj (f f' l l' c c' : text) :
  noLineBreak f = true -> noLineBreak f' = true ->
  GeminiOnly.placeholderBlock f l ++ c = GeminiOnly.placeholderBlock f' l' ++ c' ->
  f = f'.
Proof.
  intros Hf Hf' E.
  assert (A : forall g k d,
             GeminiOnly.placeholderBlock g k ++ d
             = (tipHeader ++ lit "> " ++ hourglass :: lit " Transcribing ")
               ++ (g ++ lit "...") ++ NL :: lit "> " ++ k ++ NL :: d).
  { intros g k d. unfold GeminiOnly.placeholderBlock, quoted.
    repeat (rewrite <- app_assoc || rewrite <- app_comm_cons). reflexivity. }
  rewrite !A in E. apply app_inv_head in E.
  apply split_at_newline in E as [E1 _];
    try (apply existsb_app_false; [apply noLineBreak_noNL; assumption|reflexivity]).
  apply app_inv_tail in E1. exact E1.
Qed.

Lemma settle_document (h : Host) (this : Plugin) (jr : Job * Result text) (st : St) :
  exists tr,
    doc (snd (settle jr st))
    = doc_of (updateCallout (fst jr)
                (resultBlock (snd jr) (originalLink (fst jr)))
                (mkSt (doc st) tr)).
Proof.
  unfold settle, resultBlock. destruct (snd jr) as [t|msg].
  - exists (trace st). destruct st; reflexivity.
  - eexists. unfold bind, consoleError, emit. cbn [snd]. reflexivity.
Qed.

Lemma geminiOnly_settle_document (jr : Job * Result text) (st : St) :
  exists tr,
    doc (snd (GeminiOnly.settle jr st))
    = doc_of (updateCallout (fst jr)
                (geminiOnlyResultBlock (snd jr) (originalLink (fst jr)))
                (mkSt (doc st) tr)).
Proof.
  unfold GeminiOnly.settle, geminiOnlyResultBlock. destruct (snd jr) as [t|msg].
  - exists (trace st). destruct st; reflexivity.
  - eexists. unfold bind, consoleError, emit. cbn [snd]. reflexivity.
Qed.

Lemma geminiOnly_mapM_launch (h : Host) (this : GeminiOnly.Plugin)
    (jobs : list Job) (st : St) :
  mapM (GeminiOnly.launch h this) jobs st =
  (map (fun j => (j, GeminiOnly.callProvider h this (filePath j))) jobs,
   mkSt (doc st)
        (trace st ++ map (fun j => Transcribe gemini (filePath j)) jobs)).
Proof.
  revert st; induction jobs as [|j jobs IH]; intros st; cbn [mapM map].
  - unfold ret. rewrite app_nil_r. destruct st; reflexivity.
  - unfold bind, GeminiOnly.launch, bind, emit, ret. rewrite IH. cbn [doc trace].
    rewrite <- app_assoc. reflexivity.
Qed.

Section FinalDocument.

Variable h : Host.
Variable sched : list nat.

Lemma run_final_document (this : Plugin) (st : St)
    (viewFile : option text) :
  ready this -> activeView h = Some viewFile ->
  hourglassFree (doc st) = true ->
  (forall m, In m (matchAll (doc st)) ->
             hourglassFree (outcomeFor h this viewFile m) = true) ->
  doc_of (transcribeAudioInNote h sched this st)
  = substituteFrom (outcomeFor h this viewFile) (doc st) 0 (matchAll (doc st)).
Proof.
  intros R V Hc Hout.
  destruct (matchAll (doc st)) as [|m0' ms'] eqn:Ems.
  { destruct (guards_passed this R) as [G1 G2].
    unfold transcribeAudioInNote. rewrite G1, G2, V.
    unfold bind at 1, getValue at 1. rewrite Ems. reflexivity. }
  rewrite <- Ems in *.
  assert (Hne : matchAll (doc st) <> []) by (rewrite Ems; discriminate).
  clear Ems m0' ms'.
  rewrite (transcribeAudioInNote_run h sched this st viewFile R V Hne).
  cbv zeta. unfold doc_of, newNotice at 1, emit at 1. cbn [snd doc].
  unfold runJobs, bind. rewrite mapM_launch.
  set (st0 := snd (newNotice (foundNotice this (length (matchAll (doc st)))) st)).
  apply (both_steps_document h (placeholderBlock (provider (settings this)))
           viewFile (callProvider h this) resultBlock settle
           (placeholder_mark (provider (settings this)))
           (fun f g c c' =>
              placeholderBlock_prefix_inj (provider (settings this)) f g _ _ c c')
           (settle_document h this) sched st0).
  - exact Hc.
  - exact Hout.
  - reflexivity.
Qed.

Lemma geminiOnly_run_final_document (this : GeminiOnly.Plugin) (st : St)
    (viewFile : option text) :
  GeminiOnly.geminiApiKey (GeminiOnly.settings this) <> [] ->
  activeView h = Some viewFile ->
  hourglassFree (doc st) = true ->
  (forall m, In m (matchAll (doc st)) ->
             hourglassFree (geminiOnlyOutcomeFor h this viewFile m) = true) ->
  doc_of (GeminiOnly.transcribeAudioInNote h sched this st)
  = substituteFrom (geminiOnlyOutcomeFor h this viewFile) (doc st) 0
      (matchAll (doc st)).
Proof.
  intros K V Hc Hout. unfold GeminiOnly.transcribeAudioInNote.
  destruct (GeminiOnly.geminiApiKey (GeminiOnly.settings this)); [contradiction|].
  cbn [isEmpty]. rewrite V. unfold bind at 1, getValue at 1.
  destruct (matchAll (doc st)) as [|m0' ms'] eqn:Ems; [reflexivity|].
  rewrite <- Ems in *. cbn [length Nat.eqb].
  replace (Nat.eqb (length (matchAll (doc st))) 0) with false
    by (rewrite Ems; reflexivity).
  clear Ems m0' ms'.
  unfold bind at 1.
  destruct (newNotice _ st) as [u st0] eqn:E0.
  assert (D0 : doc st0 = doc st).
  { unfold newNotice, emit in E0. injection E0 as _ <-. reflexivity. }
  unfold bind at 1.
  destruct (createPlaceholders h GeminiOnly.placeholderBlock viewFile
              (matchAll (doc st)) st0) as [jobs st1] eqn:E1.
  unfold bind at 1, GeminiOnly.runJobs, bind at 1.
  rewrite geminiOnly_mapM_launch.
  unfold doc_of. 
  match goal with
  | |- doc (snd (let (_, st') := ?r in newNotice _ st')) = _ =>
      destruct r as [u2 st2] eqn:E2
  end.
  unfold newNotice, emit. cbn [snd doc].
  rewrite <- D0 in *.
  pose proof (both_steps_document h GeminiOnly.placeholderBlock viewFile
                (GeminiOnly.callProvider h this) geminiOnlyResultBlock
                GeminiOnly.settle geminiOnly_placeholder_mark
                (fun f g c c' => geminiOnly_placeholder_prefix_inj f g _ _ c c')
                geminiOnly_settle_document sched st0
                (mkSt (doc st1)
                   (trace st1 ++ map (fun j => Transcribe gemini (filePath j)) jobs)))
    as B.
  cbv zeta in B. rewrite E1 in B. cbn [fst snd doc] in B.
  rewrite E2 in B. cbn [snd] in B.
  apply B; [exact Hc|exact Hout|reflexivity].
Qed.



End FinalDocument.



(** ** The scanner against the formats of the client (C1) *)

Lemma toLowerCase_bracket (E : text) :
  existsb (cu_eqb 93%N) (toLowerCase E) = existsb (cu_eqb 93%N) E.
Proof.
  induction E as [|c E IH]; [reflexivity|].
  unfold toLowerCase in *. cbn [map existsb]. rewrite IH. f_equal.
  destruct (N.leb 65 c && N.leb c 90)%bool eqn:R; [|reflexivity].
  apply andb_prop in R. destruct R as [R1 R2].
  apply N.leb_le in R1. apply N.leb_le in R2.
  transitivity false.
  - apply not_true_is_false. intros H. apply cu_eqb_eq in H. lia.
  - symmetry. apply not_true_is_false. intros H. apply cu_eqb_eq in H. lia.
Qed.

Lemma extensions_no_bracket (e : text) :
  In e extensions -> existsb (cu_eqb 93%N) e = false.
Proof.
  intros He. cbn in He.
  repeat (destruct He as [<-|He]; [reflexivity|]). destruct He.
Qed.

Lemma split_at_bracket (a a' b b' : text) :
  existsb (cu_eqb 93%N) a = false -> existsb (cu_eqb 93%N) a' = false ->
  a ++ 93%N :: b = a' ++ 93%N :: b' -> a = a'.
Proof.
  revert a'; induction a as [|x a IH]; intros [|y a'] Ha Ha' E;
    cbn [app existsb] in *.
  - reflexivity.
  - injection E as E1 E2. subst y. rewrite cu_eqb_refl in Ha'. discriminate.
  - injection E as E1 E2. subst x. rewrite cu_eqb_refl in Ha. discriminate.
  - injection E as E1 E2. subst y.
    apply orb_false_iff in Ha as [_ Ha]. apply orb_false_iff in Ha' as [_ Ha'].
    rewrite (IH a' Ha Ha' E2). reflexivity.
Qed.

(** An extension that is one of the seven only up to case is followed by
    the closing brackets the way none of the seven is. *)
Lemma upper_case_tail (E e : text) :
  In (toLowerCase E) extensions -> ~ In E extensions -> In e extensions ->
  startsWith (e ++ closer) (E ++ closer) = false.
Proof.
  intros Hl Hn He.
  destruct (startsWith (e ++ closer) (E ++ closer)) eqn:S; [|reflexivity].
  exfalso. apply Hn. apply startsWith_iff in S. destruct S as [t S].
  rewrite <- app_assoc in S.
  assert (E = e) as ->; [|exact He].
  apply (split_at_bracket E e [93%N] (93%N :: t)).
  - rewrite <- toLowerCase_bracket. apply extensions_no_bracket. exact Hl.
  - apply extensions_no_bracket. exact He.
  - exact S.
Qed.

Lemma no_tail_without_dot (t : text) (j : nat) (e : text) :
  existsb (cu_eqb dot) t = false ->
  startsWith (dot :: e ++ closer) (skipn j t) = false.
Proof.
  intros H. apply (existsb_skipn_false _ j) in H.
  destruct (skipn j t) as [|c s]; [reflexivity|].
  cbn [existsb] in H. apply orb_false_iff in H as [H _].
  cbn [startsWith]. rewrite H. reflexivity.
Qed.

Lemma no_tail_cons (c : cu) (t : text) :
  (forall e, In e extensions -> startsWith (dot :: e ++ closer) (c :: t) = false) ->
  (forall j e, In e extensions ->
               startsWith (dot :: e ++ closer) (skipn j t) = false) ->
  forall j e, In e extensions ->
              startsWith (dot :: e ++ closer) (skipn j (c :: t)) = false.
Proof.
  intros H0 H [|j] e He; [apply H0; exact He|]. cbn [skipn]. apply H. exact He.
Qed.

(** In a link with such an extension no offset starts a dot, one of the
    seven extensions and the closing brackets. *)
Lemma no_tail_in_upper_case_link (name ext : text) :
  wellFormedName name = true ->
  In (toLowerCase ext) extensions -> ~ In ext extensions ->
  forall j e, In e extensions ->
              startsWith (dot :: e ++ closer) (skipn j (link name ext)) = false.
Proof.
  unfold wellFormedName. intros Hn Hl Hne.
  apply andb_true_iff in Hn as [_ Hcl]. apply negb_true_iff in Hcl.
  assert (Hext : forall j e, In e extensions ->
            startsWith (dot :: e ++ closer) (skipn j (dot :: ext ++ closer)) = false).
  { apply no_tail_cons.
    - intros e He. cbn [startsWith]. rewrite cu_eqb_refl.
      apply upper_case_tail; assumption.
    - intros j e _. apply no_tail_without_dot.
      rewrite existsb_app, <- toLowerCase_dot, (extensions_no_dot _ Hl).
      reflexivity. }
  assert (Hname : forall j e, In e extensions ->
            startsWith (dot :: e ++ closer)
              (skipn j (name ++ dot :: ext ++ closer)) = false).
  { clear Hl Hne. induction name as [|c name IH]; [exact Hext|].
    pose proof Hcl as Hcl'. apply includes_cons_false in Hcl' as [_ Hcl'].
    cbn [app]. apply no_tail_cons; [|apply IH; exact Hcl'].
    intros e He. cbn [startsWith].
    rewrite (no_tail_inside e name _ (extensions_no_dot e He) Hcl').
    apply andb_false_r. }
  unfold link, opener. cbn [lit app].
  repeat (apply no_tail_cons; [intros e _; reflexivity|]).
  exact Hname.
Qed.

Lemma matchHere_needs_tail (t name : text) :
  matchHere t = Some name ->
  exists j e, In e extensions
              /\ startsWith (dot :: e ++ closer) (skipn j t) = true.
Proof.
  intros H. apply matchHere_inv in H. destruct H as [_ H].
  destruct (matchLazy_stem _ _ H) as (stem & e & _ & Ht & _).
  apply matchTail_Some in Ht. destruct Ht as [He Hs].
  exists (3 + length stem), e. split; [exact He|].
  rewrite skipn_skipn_add. exact Hs.
Qed.

Lemma scanFrom_without_tail (s : text) (pos skip : nat) :
  (forall j e, In e extensions ->
               startsWith (dot :: e ++ closer) (skipn j s) = false) ->
  scanFrom s pos skip = [].
Proof.
  revert pos skip. induction s as [|c s IH]; intros pos skip H; [reflexivity|].
  assert (Hs : forall j e, In e extensions ->
                 startsWith (dot :: e ++ closer) (skipn j s) = false).
  { intros j e He. exact (H (S j) e He). }
  destruct skip as [|k]; [|cbn [scanFrom]; apply IH; exact Hs].
  rewrite scanFrom_cons.
  destruct (matchHere (c :: s)) as [name|] eqn:E; [|apply IH; exact Hs].
  exfalso. destruct (matchHere_needs_tail _ _ E) as (j & e & He & Hj).
  rewrite (H j e He) in Hj. discriminate.
Qed.

(** C1.  The scanner falls short of the claim where the client does
    not: a link whose extension is one of the seven only up to case
    (say [MP3]) is a well-formed audio link in the claim's sense, one
    reference is expected of it, and the scanner returns none, because
    its pattern is compared case-sensitively; [getMimeType] lower-cases
    the very same extension and gives the file of that link its mime
    type. *)
Theorem scanner_drops_what_the_client_accepts (name ext dir : text) :
  wellFormedName name = true ->
  audioExtensionAnyCase ext = true -> ~ In ext extensions ->
  matchAll (render [([], name, ext)] []) = []
  /\ references 0 [([], name, ext)]
     = [mkMatch (link name ext) (name ++ dot :: ext) 0]
  /\ getMimeType (dir ++ name ++ dot :: ext)
     = Some (lit "audio/" ++ toLowerCase ext).
Proof.
  intros Hn Hany Hne.
  assert (Hl : In (toLowerCase ext) extensions).
  { unfold audioExtensionAnyCase in Hany. apply existsb_exists in Hany.
    destruct Hany as (e & He & Heq). apply text_eqb_eq in Heq.
    rewrite Heq. exact He. }
  split; [|split].
  - cbn [render]. rewrite app_nil_l, app_nil_r. unfold matchAll.
    apply scanFrom_without_tail.
    apply no_tail_in_upper_case_link; assumption.
  - reflexivity.
  - rewrite app_assoc. apply getMimeType_of_extension; [exact Hl|].
    rewrite splitPop_last; [reflexivity|].
    rewrite <- toLowerCase_dot. apply extensions_no_dot. exact Hl.
Qed.

Lemma scanner_drops_what_the_client_accepts_witness :
  matchAll (lit "![[a.MP3]]") = []
  /\ references 0 [([], lit "a", lit "MP3")]
     = [mkMatch (lit "![[a.MP3]]") (lit "a.MP3") 0]
  /\ getMimeType (lit "/vault/Audio/a.MP3") = Some (lit "audio/mp3").
Proof.
  apply (scanner_drops_what_the_client_accepts (lit "a") (lit "MP3")
           (lit "/vault/Audio/")).
  - reflexivity.
  - reflexivity.
  - intros H. vm_compute in H. intuition discriminate.
Defined.

(** ** Links that do not resolve, in both revisions (C3) *)

Lemma geminiOnly_quiet_settle (jr : Job * Result text) :
  quiet (GeminiOnly.settle jr).
Proof.
  unfold GeminiOnly.settle. destruct (snd jr).
  - apply quiet_updateCallout.
  - apply quiet_bind; [apply quiet_consoleError|].
    intros _. apply quiet_updateCallout.
Qed.

Lemma transcribeCalls_geminiOnly_launches (jobs : list Job) :
  transcribeCalls (map (fun j => Transcribe gemini (filePath j)) jobs)
  = map (fun j => (gemini, filePath j)) jobs.
Proof. induction jobs as [|j jobs IH]; simpl; [|rewrite IH]; reflexivity. Qed.

(** The provider calls of a run of the Gemini-only revision: one per job
    of the placeholder loop. *)
Lemma geminiOnly_run_calls (h : Host) (sched : list nat) (this : GeminiOnly.Plugin)
    (st : St) (viewFile : option text) :
  GeminiOnly.geminiApiKey (GeminiOnly.settings this) <> [] ->
  activeView h = Some viewFile ->
  let ms := matchAll (doc st) in
  let st0 := snd (newNotice (lit "Found " ++ decimal (length ms)
                             ++ lit " audio file(s). Starting transcription...") st) in
  transcribeCalls (trace_of (GeminiOnly.transcribeAudioInNote h sched this st))
  = transcribeCalls (trace st)
    ++ map (fun j => (gemini, filePath j))
         (fst (createPlaceholders h GeminiOnly.placeholderBlock viewFile ms st0)).
Proof.
  intros K V. cbv zeta. unfold GeminiOnly.transcribeAudioInNote.
  destruct (GeminiOnly.geminiApiKey (GeminiOnly.settings this)); [contradiction|].
  cbn [isEmpty]. rewrite V. unfold bind at 1, getValue at 1.
  destruct (matchAll (doc st)) as [|m ms'] eqn:Ems.
  - cbn [length Nat.eqb]. unfold trace_of. rewrite quiet_newNotice.
    cbn. rewrite app_nil_r. reflexivity.
  - rewrite <- Ems.
    replace (Nat.eqb (length (matchAll (doc st))) 0) with false
      by (rewrite Ems; reflexivity).
    clear Ems m ms'. unfold bind at 1.
    match goal with
    | |- context [newNotice ?note st] =>
        pose proof (quiet_newNotice note st) as Q0;
        destruct (newNotice note st) as [u st0]
    end.
    cbn [snd] in *. unfold bind at 1.
    pose proof (quiet_createPlaceholders h GeminiOnly.placeholderBlock viewFile
                  (matchAll (doc st)) st0) as Q1.
    destruct (createPlaceholders h GeminiOnly.placeholderBlock viewFile
                (matchAll (doc st)) st0) as [jobs st1].
    cbn [fst snd] in *.
    unfold bind at 1, GeminiOnly.runJobs, bind at 1.
    rewrite geminiOnly_mapM_launch.
    pose proof (quiet_forEach (fun (_ : unit) jr => GeminiOnly.settle jr)
                  (settleOrder sched
                     (map (fun j => (j, GeminiOnly.callProvider h this (filePath j)))
                        jobs))
                  (fun _ => geminiOnly_quiet_settle) tt
                  (mkSt (doc st1)
                     (trace st1 ++ map (fun j => Transcribe gemini (filePath j)) jobs)))
      as Q2.
    destruct (forEach _ _ tt _) as [u2 st2]. cbn [snd trace] in Q2.
    unfold trace_of. rewrite quiet_newNotice. cbn [snd].
    rewrite Q2, transcribeCalls_app, transcribeCalls_geminiOnly_launches, Q1, Q0.
    reflexivity.
Qed.

(** C3.  In both revisions, on a note that is a file: when the turn of
    a link that does not resolve comes, its iteration inserts the
    placeholder (of whatever wording), at once writes over it the failure
    callout
    [> [!warning] Transcription Failed\n> Could not find file: <name>\n> <link>\n]
    (the text before the link being the original one), emits the notice,
    adds no job, and the loop goes on with the remaining matches.  The
    jobs are exactly those of the links that resolve, and a run past its
    guard calls the provider client once per job: [N_resolved] calls, not
    [N_total], in the revision with provider selection and in the
    Gemini-only one.  (The loop of a run starts on the state after the
    notice of the links found, which holds the text of the note.) *)
Theorem unresolved_link_fails_inline (h : Host) (sched : list nat)
    (this : Plugin) (thisG : GeminiOnly.Plugin) (st : St) (sourcePath : text) :
  ready this ->
  GeminiOnly.geminiApiKey (GeminiOnly.settings thisG) <> [] ->
  activeView h = Some (Some sourcePath) ->
  let ms := matchAll (doc st) in
  let resolved := filter (resolves h (Some sourcePath)) in
  let stG :=
    snd (newNotice (lit "Found " ++ decimal (length ms)
                    ++ lit " audio file(s). Starting transcription...") st) in
  let jobsG :=
    fst (createPlaceholders h GeminiOnly.placeholderBlock (Some sourcePath) ms stG) in
  (forall (p : text -> text -> text) (st0 : St) before m after,
      doc st0 = doc st ->
      rev ms = before ++ m :: after ->
      getFirstLinkpathDest h (m1 m) sourcePath = None ->
      let loop := processMatch h p (Some sourcePath) in
      let r := forEach loop before [] st0 in
      let d := doc (snd r) in
      let callout :=
        lit "> [!warning] Transcription Failed" ++ [NL]
        ++ lit "> Could not find file: " ++ m1 m ++ [NL]
        ++ lit "> " ++ m0 m ++ [NL] in
      firstn (index m) d = firstn (index m) (doc st)
      /\ loop (fst r) m (snd r)
         = (fst r,
            mkSt (firstn (index m) d ++ callout ++ skipn (matchEnd m) d)
                 (trace (snd r)
                  ++ [ReplaceRange (p (m1 m) (m0 m)) (offsetToPosIn d (index m))
                        (offsetToPosIn d (matchEnd m));
                      ReplaceRange callout
                        (offsetToPosIn d (index m))
                        (offsetToPosIn
                           (firstn (index m) d ++ p (m1 m) (m0 m)
                            ++ skipn (matchEnd m) d)
                           (index m + length (p (m1 m) (m0 m))));
                      Notice (lit "Could not find the file: " ++ m1 m)]))
      /\ createPlaceholders h p (Some sourcePath) ms st0
         = forEach loop after (fst r) (snd (loop (fst r) m (snd r))))
  /\ Forall2 (jobFor h (placeholderBlock (provider (settings this)))
                (Some sourcePath))
       (resolved (rev ms)) (jobsOfRun h this (Some sourcePath) st)
  /\ transcribeCalls (trace_of (transcribeAudioInNote h sched this st))
     = transcribeCalls (trace st)
       ++ map (callOf this) (jobsOfRun h this (Some sourcePath) st)
  /\ length (transcribeCalls (trace_of (transcribeAudioInNote h sched this st)))
     = length (transcribeCalls (trace st)) + length (resolved ms)
  /\ Forall2 (jobFor h GeminiOnly.placeholderBlock (Some sourcePath))
       (resolved (rev ms)) jobsG
  /\ transcribeCalls (trace_of (GeminiOnly.transcribeAudioInNote h sched thisG st))
     = transcribeCalls (trace st) ++ map (fun j => (gemini, filePath j)) jobsG
  /\ length (transcribeCalls
               (trace_of (GeminiOnly.transcribeAudioInNote h sched thisG st)))
     = length (transcribeCalls (trace st)) + length (resolved ms).
Proof.
  intros Hready Hkey Hview ms resolved stG jobsG.
  assert (Hjobs : Forall2 (jobFor h (placeholderBlock (provider (settings this)))
                             (Some sourcePath))
                    (resolved (rev ms)) (jobsOfRun h this (Some sourcePath) st))
    by apply createPlaceholders_jobs.
  assert (HjobsG : Forall2 (jobFor h GeminiOnly.placeholderBlock (Some sourcePath))
                     (resolved (rev ms)) jobsG)
    by apply createPlaceholders_jobs.
  assert (Hcalls := transcribeAudioInNote_calls_ready h sched this st
                      (Some sourcePath) Hready Hview).
  assert (HcallsG := geminiOnly_run_calls h sched thisG st (Some sourcePath)
                       Hkey Hview).
  cbv zeta in HcallsG. fold ms in HcallsG. fold stG in HcallsG. fold jobsG in HcallsG.
  assert (Hcount : forall (jobs : list Job) (R : RegExpMatch -> Job -> Prop),
            Forall2 R (resolved (rev ms)) jobs ->
            length jobs = length (resolved ms)).
  { intros jobs R F. apply Forall2_length in F. rewrite <- F.
    unfold resolved. rewrite filter_rev, length_rev. reflexivity. }
  split; [|split; [exact Hjobs|split; [exact Hcalls|split;
           [|split; [exact HjobsG|split; [exact HcallsG|]]]]]].
  - intros p st0 before m after Hdoc Hrev Hnone loop r d callout.
    destruct (before_turn h p (Some sourcePath) (doc st) st0 [] before after m
                Hdoc Hrev) as [Hpre Hlen].
    fold loop in Hpre, Hlen. fold r in Hpre, Hlen. fold d in Hpre, Hlen.
    assert (Hstep := processMatch_unresolved h p (Some sourcePath) (fst r) m
                       (snd r) sourcePath eq_refl Hnone Hlen).
    fold loop in Hstep. fold d in Hstep.
    rewrite notFoundBlock_text in Hstep. fold callout in Hstep.
    split; [|split].
    + assert (Hidx : index m <= matchEnd m) by (unfold matchEnd; lia).
      apply (f_equal (firstn (index m))) in Hpre.
      rewrite !firstn_firstn in Hpre.
      replace (Nat.min (index m) (matchEnd m)) with (index m) in Hpre by lia.
      exact Hpre.
    + exact Hstep.
    + unfold createPlaceholders. fold ms. rewrite Hrev, forEach_app.
      fold loop. fold r. rewrite forEach_cons. rewrite Hstep at 1.
      reflexivity.
  - rewrite Hcalls, length_app, length_map. f_equal.
    exact (Hcount _ _ Hjobs).
  - rewrite HcallsG, length_app, length_map. f_equal.
    exact (Hcount _ _ HjobsG).
Qed.

Lemma unresolved_link_fails_inline_witness :
  let h := vaultHost (fun _ => Ok (lit "hi")) in
  let loop := processMatch h (placeholderBlock gemini) (Some (lit "Notes/day.md")) in
  let r := forEach loop [mkMatch (lit "![[b.mp3]]") (lit "b.mp3") 28] []
             (open threeDoc) in
  doc (snd (loop (fst r)
              (mkMatch (lit "![[missing.mp3]]") (lit "missing.mp3") 11) (snd r)))
  = lit "![[a.mp3]] > [!warning] Transcription Failed" ++ [NL]
    ++ lit "> Could not find file: missing.mp3" ++ [NL]
    ++ lit "> ![[missing.mp3]]" ++ [NL]
    ++ lit " > [!tip] Audio Note" ++ [NL]
    ++ lit "> " ++ hourglass :: lit " Transcribing b.mp3 with gemini..." ++ [NL]
    ++ lit "> ![[b.mp3]]" ++ [NL]
  /\ length (fst (loop (fst r)
                    (mkMatch (lit "![[missing.mp3]]") (lit "missing.mp3") 11)
                    (snd r))) = 1
  /\ length (transcribeCalls
               (trace_of (transcribeAudioInNote h [] configured (open threeDoc))))
     = 2
  /\ length (transcribeCalls
               (trace_of (GeminiOnly.transcribeAudioInNote h [] configuredGeminiOnly
                            (open threeDoc))))
     = 2.
Proof.
  cbv zeta.
  destruct (unresolved_link_fails_inline (vaultHost (fun _ => Ok (lit "hi"))) []
              configured configuredGeminiOnly (open threeDoc) (lit "Notes/day.md"))
    as (Hloop & _ & _ & H1 & _ & _ & H2).
  - cbn. discriminate.
  - cbn. discriminate.
  - reflexivity.
  - destruct (Hloop (placeholderBlock gemini) (open threeDoc)
                [mkMatch (lit "![[b.mp3]]") (lit "b.mp3") 28]
                (mkMatch (lit "![[missing.mp3]]") (lit "missing.mp3") 11)
                [mkMatch (lit "![[a.mp3]]") (lit "a.mp3") 0]
                eq_refl eq_refl eq_refl) as (_ & Hstep & _).
    rewrite Hstep.
    split; [vm_compute; reflexivity|].
    split; [vm_compute; reflexivity|].
    split; [exact H1|exact H2].
Defined.
